(** * aws_s3: a shallow embedding of [plugins/modules/aws_s3.py]

    The module is one invocation of [main]: it reads the parameter bag,
    validates it, opens a connection and then runs the branch of the
    requested mode.  Every call that leaves the module (the boto3 client,
    the helpers of [module_utils], [time.sleep]) is answered by an
    environment and recorded in a trace, so that statements such as
    "nothing was sent before the failure" or "the download was attempted
    at most n times" are statements about that trace. *)

From Stdlib Require Import ZArith Ascii.
From stdpp Require Import gmap strings list fin_maps.

Local Open Scope Z_scope.
Local Open Scope string_scope.
Local Open Scope list_scope.

(** ** Python values *)

(** A tag dictionary: [dict] from tag name to tag value.  Equality of
    [gmap]s is extensional, as [==] on Python dictionaries is. *)
Abbreviation Tags := (gmap string string).

(** The boto3 wire form of a tag set, [[{'Key': k, 'Value': v}, ...]]. *)
Abbreviation TagList := (list (string * string)).

(** Truthiness of an optional string: [None] and [''] are falsy. *)
Definition truthy (o : option string) : bool :=
  match o with
  | Some (String _ _) => true
  | _ => false
  end.

Definition nonempty (s : string) : bool :=
  match s with
  | String _ _ => true
  | EmptyString => false
  end.

(** [s.startswith('/')] *)
Definition startswith_slash (s : string) : bool :=
  match s with
  | String c _ => bool_decide (c = "/"%char)
  | EmptyString => false
  end.

(** [s[1:]] *)
Definition drop_first (s : string) : string :=
  match s with
  | String _ r => r
  | EmptyString => EmptyString
  end.

(** [s.endswith('/')] *)
Fixpoint endswith_slash (s : string) : bool :=
  match s with
  | EmptyString => false
  | String c EmptyString => bool_decide (c = "/"%char)
  | String _ r => endswith_slash r
  end.

(** [sub in s] *)
Fixpoint str_contains (sub s : string) : bool :=
  String.prefix sub s ||
  match s with
  | EmptyString => false
  | String _ r => str_contains sub r
  end.

(** ['%s' % o]: [None] prints as [None]. *)
Definition pystr (o : option string) : string := default "None" o.

(** ['%s' % l] for a list of strings. *)
Definition pyrepr_list (l : list string) : string :=
  "[" +:+ String.concat ", " ((λ s, "'" +:+ s +:+ "'") <$> l) +:+ "]".

(** The double quote character, as a string. *)
Definition dquote : string := String (ascii_of_nat 34) EmptyString.

(** [range(lo, hi)] *)
Definition py_range (lo hi : Z) : list Z :=
  (λ i : nat, lo + Z.of_nat i) <$> seq 0 (Z.to_nat (hi - lo)).

(** ** Exceptions and results *)

(** The exceptions of the libraries and of Python itself, as far as the
    module tells them apart.  [ClientError] carries the error code and
    message of the response; [BotoCoreError] the name of the subclass
    ([EndpointConnectionError] is one); [PyError] any other Python
    exception, by name.  The module's own class [Sigv4Required] is not
    among them: no library raises it. *)
Inductive Exn : Type :=
| ClientError (code message : string)
| BotoCoreError (name : string)
| SSLError
| PyError (name : string).

#[global] Instance Exn_eq_dec : EqDecision Exn.
Proof. solve_decision. Defined.

Definition is_ClientError (e : Exn) : bool :=
  match e with ClientError _ _ => true | _ => false end.

Definition is_BotoCoreError (e : Exn) : bool :=
  match e with BotoCoreError _ => true | _ => false end.

(** [except (botocore.exceptions.BotoCoreError, botocore.exceptions.ClientError)] *)
Definition is_boto_error (e : Exn) : bool :=
  is_BotoCoreError e || is_ClientError e.

Definition is_EndpointConnectionError (e : Exn) : bool :=
  match e with
  | BotoCoreError n => bool_decide (n = "EndpointConnectionError")
  | _ => false
  end.

Definition is_SSLError (e : Exn) : bool :=
  match e with SSLError => true | _ => false end.

(** The keyword arguments of [module.exit_json]. *)
Record ExitJson : Type := {
  ej_msg : option string;
  ej_changed : option bool;
  ej_url : option string;
  ej_tags : option Tags;
  ej_expiry : option Z;
  ej_contents : option string;
  ej_s3_keys : option (list string);
  ej_failed : option bool
}.

Definition ej (msg : string) (changed : option bool) : ExitJson :=
  {| ej_msg := Some msg; ej_changed := changed; ej_url := None;
     ej_tags := None; ej_expiry := None; ej_contents := None;
     ej_s3_keys := None; ej_failed := None |}.

(** The arguments of [module.fail_json] and [module.fail_json_aws]. *)
Record FailJson : Type := {
  fj_msg : string;
  fj_exception : option Exn;
  fj_requested_tags : option Tags;
  fj_live_tags : option Tags
}.

Definition fj (msg : string) : FailJson :=
  {| fj_msg := msg; fj_exception := None;
     fj_requested_tags := None; fj_live_tags := None |}.

Definition fj_aws (e : Exn) (msg : string) : FailJson :=
  {| fj_msg := msg; fj_exception := Some e;
     fj_requested_tags := None; fj_live_tags := None |}.

(** How a piece of the module ends: it returns a value, it leaves the
    process through [exit_json] or [fail_json] (neither is caught by an
    [except] clause of the module), it raises an exception of a library,
    or it raises [Sigv4Required]. *)
Inductive Result (A : Type) : Type :=
| Ret (a : A)
| Exit (o : ExitJson)
| Fail (f : FailJson)
| Raise (e : Exn)
| RaiseSigv4Required.
Arguments Ret {A} a.
Arguments Exit {A} o.
Arguments Fail {A} f.
Arguments Raise {A} e.
Arguments RaiseSigv4Required {A}.

(** The answer of a boto3 client call. *)
Inductive PyRes (A : Type) : Type :=
| Ok (a : A)
| Err (e : Exn).
Arguments Ok {A} a.
Arguments Err {A} e.

(** The answer of a helper of [module_utils]: a value, an exception, or
    a [fail_json] of its own. *)
Inductive UtilRes (A : Type) : Type :=
| UOk (a : A)
| UErr (e : Exn)
| UFail (f : FailJson).
Arguments UOk {A} a.
Arguments UErr {A} e.
Arguments UFail {A} f.

(** The verdict of a validating helper of the host. *)
Inductive Checked (A : Type) : Type :=
| Accept (a : A)
| Reject (msg : string).
Arguments Accept {A} a.
Arguments Reject {A} msg.

(** ** Requests *)

(** The part of a [head_object] response the module reads.  Time stamps
    are the floats of [datetime.timestamp()] and [os.path.getmtime];
    every finite double is an integer multiple of 2^-1074, so a time
    stamp is given by that integer, and [<=] on the floats is [<=] on
    the integers. *)
Record Head : Type := {
  ETag : string;
  LastModified : Z
}.

(** A page of [list_object_versions]: the delete markers and the
    versions, each a key with its version id. *)
Record VersionPage : Type := {
  DeleteMarkers : list (string * string);
  Versions : list (string * string)
}.

(** What a paginator yields: the pages, and the exception that ends the
    iteration early, if any. *)
Definition Paged (A : Type) : Type := (list A * option Exn)%type.

(** The calls on the boto3 client, indexed by the type of their answer.
    An absent [version] is a call without [VersionId]; a [head_object]
    answer [None] is an empty (falsy) response.  [PutObjectTagging],
    [DeleteObjectTagging] and [PutBucketAcl] are the calls as wrapped by
    [AWSRetry.jittered_backoff]: one request stands for the wrapped
    call, whatever the wrapper does inside.  The payload that no branch
    looks at (extra arguments of an upload, encryption settings) is left
    out of the request. *)
Inductive S3Req : Type → Type :=
| HeadObject (bucket : string) (key version : option string) : S3Req (option Head)
| HeadBucket (bucket : string) : S3Req unit
| CreateBucket (bucket : string) (location : option string) : S3Req unit
| WaitBucketExists (bucket : string) : S3Req unit
| PutBucketAcl (acl bucket : string) : S3Req unit
| ListObjectsV2 (bucket : string) (prefix marker : option string)
    (max_keys : option Z) : S3Req (Paged (list string))
| ListObjectVersions (bucket : string) : S3Req (Paged VersionPage)
| DeleteObjects (bucket : string) (objects : list (string * option string)) : S3Req unit
| DeleteBucket (bucket : string) : S3Req unit
| DeleteObject (bucket : string) (key : option string) : S3Req unit
| PutObject (bucket : string) (key : option string) : S3Req unit
| PutObjectAcl (acl bucket : string) (key : option string) : S3Req unit
| GeneratePresignedUrl (method bucket : string) (key : option string)
    (expiry : Z) : S3Req string
| UploadFile (filename bucket : string) (key : option string) : S3Req unit
| UploadFileobj (content : option string) (bucket : string)
    (key : option string) : S3Req unit
| GetObject (bucket : string) (key version : option string) : S3Req string
| DownloadFile (bucket : string) (key : option string) (dest : option string)
    (version : option string) : S3Req unit
| CopyObject (bucket : string) (key : option string) (src_bucket src_key : string)
    (src_version : option string) : S3Req unit
| GetObjectTagging (bucket : string) (key version : option string)
    : S3Req (option TagList)
| PutObjectTagging (bucket : string) (key : option string) (tags : TagList)
    : S3Req unit
| DeleteObjectTagging (bucket : string) (key : option string) : S3Req unit.

(** The helpers of [module_utils] that take the module object and may
    talk to the remote store or end the invocation themselves. *)
Inductive UtilReq : Type → Type :=
| GetAwsConnectionInfo : UtilReq (option string)
| Boto3Conn (location : string) (rgw : bool) (s3_url : option string)
    (sig_4 : bool) : UtilReq unit
| CalculateEtag (filename : string) (etag : option string) (bucket : string)
    (key version : option string) : UtilReq (option string)
| CalculateEtagContent (content : option string) (etag : option string)
    (bucket : string) (key version : option string) : UtilReq (option string).

(** One entry of the trace. *)
Inductive Event : Type :=
| EvS3 {A : Type} (r : S3Req A)
| EvUtil {A : Type} (r : UtilReq A)
| EvSleep (seconds : Z).

(** ** The environment of an invocation

    [W] is the state of everything outside the module: the remote store,
    the local file system, the clock.  The fields that stand for code
    of [module_utils] and of the host ([HAS_MD5], the error matchers,
    the tag conversions, the validators) are not among the sources; the
    embedding takes them as they are given. *)
Record Env (W : Type) : Type := {
  s3_call : ∀ A, S3Req A → W → PyRes A * W;
  util_call : ∀ A, UtilReq A → W → UtilRes A * W;
  os_path_exists : string → W → bool;
  os_path_getmtime : string → W → PyRes Z;
  HAS_MD5 : bool;
  is_boto3_error_code : list string → Exn → bool;
  is_boto3_error_message : string → Exn → bool;
  validate_bucket_name : string → Checked unit;
  module_boolean : string → Checked bool;
  standard_b64decode : string → PyRes string;
  boto3_tag_list_to_ansible_dict : option TagList → Tags;
  ansible_dict_to_boto3_tag_list : Tags → TagList
}.
Arguments s3_call {W} e {A} r w.
Arguments util_call {W} e {A} r w.
Arguments os_path_exists {W} e path w.
Arguments os_path_getmtime {W} e path w.
Arguments HAS_MD5 {W} e.
Arguments is_boto3_error_code {W} e codes exn.
Arguments is_boto3_error_message {W} e msg exn.
Arguments validate_bucket_name {W} e name.
Arguments module_boolean {W} e arg.
Arguments standard_b64decode {W} e data.
Arguments boto3_tag_list_to_ansible_dict {W} e tags.
Arguments ansible_dict_to_boto3_tag_list {W} e tags.

(** ** The parameter bag *)

Inductive Mode : Type :=
| ModeGet | ModePut | ModeDelete | ModeCreate | ModeGetUrl
| ModeGetStr | ModeDelObj | ModeList | ModeCopy.

#[global] Instance Mode_eq_dec : EqDecision Mode.
Proof. solve_decision. Defined.

Record CopySrc : Type := {
  cs_bucket : string;
  cs_object : string;
  cs_version_id : option string
}.

(** [module.params], with [module.check_mode] and the [S3_URL] entry of
    [os.environ].  [mode] is restricted to its choices by the argument
    specification, so it is an enumeration here. *)
Record Params : Type := {
  p_bucket : string;
  p_dest : option string;
  p_encrypt : bool;
  p_expiry : Z;
  p_marker : string;
  p_max_keys : Z;
  p_mode : Mode;
  p_object : option string;
  p_permission : list string;
  p_version : option string;
  p_overwrite : string;
  p_prefix : string;
  p_retries : Z;
  p_s3_url : option string;
  p_dualstack : bool;
  p_rgw : bool;
  p_src : option string;
  p_content : option string;
  p_content_base64 : option string;
  p_ignore_nonexistent_bucket : bool;
  p_tags : option Tags;
  p_purge_tags : bool;
  p_copy_src : option CopySrc;
  p_check_mode : bool;
  p_environ_S3_URL : option string
}.

Definition IGNORE_S3_DROP_IN_EXCEPTIONS : list string :=
  ["XNotImplemented"; "NotImplemented"].

(** ** The monad of the module

    A computation runs on the state of the outside world, the trace of
    the calls made so far, the warnings given so far, and the one entry
    of [module.params] that [main] assigns to: [permission]. *)
Section Model.

Context {W : Type}.
Variable env : Env W.
Variable p : Params.

Record State : Type := {
  world : W;
  trace : list Event;
  warnings : list string;
  permission : list string
}.

Definition M (A : Type) : Type := State → Result A * State.

Definition ret {A} (a : A) : M A := λ st, (Ret a, st).

Definition bind {A B} (m : M A) (k : A → M B) : M B := λ st,
  match m st with
  | (Ret a, st') => k a st'
  | (Exit o, st') => (Exit o, st')
  | (Fail f, st') => (Fail f, st')
  | (Raise e, st') => (Raise e, st')
  | (RaiseSigv4Required, st') => (RaiseSigv4Required, st')
  end.

Notation "'let*' x ':=' m 'in' k" := (bind m (λ x, k))
  (at level 10, x name, m at level 100, k at level 200, only parsing).
Notation "m '>>' k" := (bind m (λ _, k))
  (at level 100, k at level 200, right associativity, only parsing).

Definition exit_json {A} (o : ExitJson) : M A := λ st, (Exit o, st).

Definition fail_json {A} (f : FailJson) : M A := λ st, (Fail f, st).

Definition fail_json_aws {A} (e : Exn) (msg : string) : M A :=
  fail_json (fj_aws e msg).

Definition raise {A} (e : Exn) : M A := λ st, (Raise e, st).

Definition raise_Sigv4Required {A} : M A := λ st, (RaiseSigv4Required, st).

Definition log (ev : Event) (w : W) (st : State) : State :=
  {| world := w; trace := trace st ++ [ev];
     warnings := warnings st; permission := permission st |}.

(** A call on the boto3 client. *)
Definition s3 {A} (r : S3Req A) : M A := λ st,
  match s3_call env r (world st) with
  | (Ok a, w) => (Ret a, log (EvS3 r) w st)
  | (Err e, w) => (Raise e, log (EvS3 r) w st)
  end.

(** A call of a helper of [module_utils]. *)
Definition util {A} (r : UtilReq A) : M A := λ st,
  match util_call env r (world st) with
  | (UOk a, w) => (Ret a, log (EvUtil r) w st)
  | (UErr e, w) => (Raise e, log (EvUtil r) w st)
  | (UFail f, w) => (Fail f, log (EvUtil r) w st)
  end.

(** [time.sleep(seconds)] *)
Definition sleep (seconds : Z) : M unit := λ st,
  (Ret tt, log (EvSleep seconds) (world st) st).

(** [module.warn(msg)] *)
Definition warn (msg : string) : M unit := λ st,
  (Ret tt, {| world := world st; trace := trace st;
              warnings := warnings st ++ [msg];
              permission := permission st |}).

(** [module.params.get('permission')] and
    [module.params['permission'] = acls] *)
Definition get_permission : M (list string) := λ st, (Ret (permission st), st).

Definition set_permission (acls : list string) : M unit := λ st,
  (Ret tt, {| world := world st; trace := trace st;
              warnings := warnings st; permission := acls |}).

(** [try: m except ...: ...] with clauses for exceptions of the
    libraries: the handler picks the first clause that matches;
    [exit_json], [fail_json] and [Sigv4Required] pass through. *)
Definition try_except {A} (m : M A) (handler : Exn → option (M A)) : M A :=
  λ st,
  match m st with
  | (Raise e, st') =>
      match handler e with
      | Some h => h st'
      | None => (Raise e, st')
      end
  | r => r
  end.

(** [try: m except Sigv4Required: h] *)
Definition except_Sigv4Required {A} (m : M A) (h : M A) : M A := λ st,
  match m st with
  | (RaiseSigv4Required, st') => h st'
  | r => r
  end.

(** [if c: m] *)
Definition when (c : bool) (m : M unit) : M unit :=
  if c then m else ret tt.

(** [for x in xs: body] *)
Fixpoint for_each {X} (xs : list X) (body : X → M unit) : M unit :=
  match xs with
  | [] => ret tt
  | x :: rest => body x >> for_each rest body
  end.

(** [x if x else None] on the version argument: a falsy version is not
    sent. *)
Definition sent_version (version : option string) : option string :=
  if truthy version then version else None.

(** [except is_boto3_error_code(codes)] *)
Definition code_in (codes : list string) (e : Exn) : bool :=
  is_boto3_error_code env codes e.

(** ** The functions of the module *)

Definition key_check (bucket : string) (obj version : option string)
    (validate : bool) : M bool :=
  let* r :=
    try_except
      (s3 (HeadObject bucket obj (sent_version version)) >> ret None)
      (λ e,
         if code_in ["404"] e then Some (ret (Some false))
         else if code_in ["403"] e then
           Some (if validate
                 then fail_json_aws e
                        ("Failed while looking up object (during key check) "
                           +:+ pystr obj +:+ ".")
                 else ret None)
         else if is_boto_error e then
           Some (fail_json_aws e
                   ("Failed while looking up object (during key check) "
                      +:+ pystr obj +:+ "."))
         else None) in
  match r with
  | Some b => ret b
  | None => ret true
  end.

Definition get_etag (bucket : string) (obj version : option string)
    : M (option string) :=
  try_except
    (let* key_check := s3 (HeadObject bucket obj (sent_version version)) in
     match key_check with
     | None => ret None
     | Some h => ret (Some (ETag h))
     end)
    (λ e, if code_in ["404"] e then Some (ret None) else None).

Definition etag_compare (bucket : string) (obj version : option string)
    (local_file : option string) (content : option string) : M bool :=
  let* s3_etag := get_etag bucket obj version in
  let* local_etag :=
    match local_file with
    | Some f => util (CalculateEtag f s3_etag bucket obj version)
    | None => util (CalculateEtagContent content s3_etag bucket obj version)
    end in
  ret (bool_decide (s3_etag = local_etag)).

Definition get_s3_last_modified_timestamp (bucket : string)
    (obj version : option string) : M (option Z) :=
  let* key_check := s3 (HeadObject bucket obj (sent_version version)) in
  match key_check with
  | None => ret None
  | Some h => ret (Some (LastModified h))
  end.

(** [os.path.exists(path)]; a path that is [None] raises [TypeError]. *)
Definition path_exists (path : option string) : M bool := λ st,
  match path with
  | Some f => (Ret (os_path_exists env f (world st)), st)
  | None => (Raise (PyError "TypeError"), st)
  end.

(** [os.path.getmtime(path)] *)
Definition getmtime (path : option string) : M Z := λ st,
  match path with
  | Some f =>
      match os_path_getmtime env f (world st) with
      | Ok t => (Ret t, st)
      | Err e => (Raise e, st)
      end
  | None => (Raise (PyError "TypeError"), st)
  end.

Definition is_local_object_latest (bucket : string)
    (obj version : option string) (local_file : option string) : M bool :=
  let* s3_last_modified := get_s3_last_modified_timestamp bucket obj version in
  let* exists_ := path_exists local_file in
  if negb exists_ then ret false
  else
    let* local_last_modified := getmtime local_file in
    match s3_last_modified with
    | Some t => ret (bool_decide (t ≤ local_last_modified)%Z)
    | None => raise (PyError "TypeError")
    end.

Definition bucket_check (bucket : string) (validate : bool) : M bool :=
  let* r :=
    try_except
      (s3 (HeadBucket bucket) >> ret None)
      (λ e,
         if code_in ["404"] e then Some (ret (Some false))
         else if code_in ["403"] e then
           Some (if validate
                 then fail_json_aws e
                        ("Failed while looking up bucket (during bucket_check) "
                           +:+ bucket +:+ ".")
                 else ret None)
         else if is_EndpointConnectionError e then
           Some (fail_json_aws e "Invalid endpoint provided")
         else if is_boto_error e then
           Some (fail_json_aws e
                   ("Failed while looking up bucket (during bucket_check) "
                      +:+ bucket +:+ "."))
         else None) in
  match r with
  | Some b => ret b
  | None => ret true
  end.

Definition create_bucket (bucket : string) (location : string)
    : M (option bool) :=
  when (p_check_mode p)
    (exit_json (ej "CREATE operation skipped - running in check mode"
                  (Some true))) >>
  let configuration :=
    if bool_decide (location = "us-east-1") then None else Some location in
  try_except
    (s3 (CreateBucket bucket configuration) >>
     (let* permission := get_permission in
      when (bool_decide (permission ≠ []))
        (* Wait for the bucket to exist before setting ACLs *)
        (s3 (WaitBucketExists bucket))) >>
     let* permission := get_permission in
     for_each permission (λ acl, s3 (PutBucketAcl acl bucket)))
    (λ e,
       if code_in IGNORE_S3_DROP_IN_EXCEPTIONS e then
         Some (warn "PutBucketAcl is not implemented by your storage provider. Set the permission parameters to the empty list to avoid this warning")
       else if is_boto_error e then
         Some (fail_json_aws e "Failed while creating bucket or setting acl (check that you have CreateBucket and PutBucketAcl permission).")
       else None) >>
  if nonempty bucket then ret (Some true) else ret None.

(** Iterating a paginator: a call that fails outright is an iteration
    that raises before its first page. *)
Definition paginate {A} (r : S3Req (Paged A)) : M (Paged A) :=
  try_except (s3 r) (λ e, Some (ret ([], Some e))).

Definition raise_if_some (e : option Exn) : M unit :=
  match e with
  | Some e => raise e
  | None => ret tt
  end.

(** The generator [paginated_list], as the pages it yields. *)
Definition paginated_list (bucket : string) (prefix marker : option string)
    (max_keys : option Z) : M (Paged (list string)) :=
  paginate (ListObjectsV2 bucket prefix marker max_keys).

(** The generator [paginated_versioned_list_with_fallback], driven by
    the body of the loop that consumes it.  In the fallback a page is a
    list of key strings, and [data['Key']] on a string raises
    [TypeError]. *)
Definition paginated_versioned_list_with_fallback (bucket : string)
    (body : list (string * option string) → M unit) : M unit :=
  let* pg := paginate (ListObjectVersions bucket) in
  for_each pg.1
    (λ page,
       let delete_markers := (λ d, (d.1, Some d.2)) <$> DeleteMarkers page in
       let current_objects := (λ d, (d.1, Some d.2)) <$> Versions page in
       body (delete_markers ++ current_objects)) >>
  match pg.2 with
  | None => ret tt
  | Some e =>
      if code_in (IGNORE_S3_DROP_IN_EXCEPTIONS ++ ["AccessDenied"]) e then
        let* pg2 := paginated_list bucket None None None in
        for_each pg2.1
          (λ page,
             match page with
             | [] => body []
             | _ :: _ => raise (PyError "TypeError")
             end) >>
        raise_if_some pg2.2
      else raise e
  end.

Definition list_keys (bucket : string) (prefix marker : string)
    (max_keys : Z) : M unit :=
  try_except
    (let* pg := paginated_list bucket (Some prefix) (Some marker)
                  (Some max_keys) in
     raise_if_some pg.2 >>
     exit_json {| ej_msg := Some "LIST operation complete";
                  ej_changed := None; ej_url := None; ej_tags := None;
                  ej_expiry := None; ej_contents := None;
                  ej_s3_keys := Some (concat pg.1); ej_failed := None |})
    (λ e,
       if is_boto_error e then
         Some (fail_json_aws e
                 ("Failed while listing the keys in the bucket " +:+ bucket))
       else None).

Definition delete_bucket (bucket : string) : M bool :=
  when (p_check_mode p)
    (exit_json (ej "DELETE operation skipped - running in check mode"
                  (Some true))) >>
  try_except
    (let* exists_ := bucket_check bucket true in
     if negb exists_ then ret false
     else
       (* if there are contents then we need to delete them before we can
          delete the bucket *)
       paginated_versioned_list_with_fallback bucket
         (λ keys, when (bool_decide (keys ≠ []))
                    (s3 (DeleteObjects bucket keys))) >>
       s3 (DeleteBucket bucket) >>
       ret true)
    (λ e,
       if code_in ["NoSuchBucket"] e then Some (ret false)
       else if is_boto_error e then
         Some (fail_json_aws e
                 ("Failed while deleting bucket " +:+ bucket +:+ "."))
       else None).

Definition delete_key (bucket : string) (obj : option string) : M unit :=
  when (p_check_mode p)
    (exit_json (ej "DELETE operation skipped - running in check mode"
                  (Some true))) >>
  try_except
    (s3 (DeleteObject bucket obj) >>
     exit_json (ej ("Object deleted from bucket " +:+ bucket +:+ ".")
                  (Some true)))
    (λ e,
       if is_boto_error e then
         Some (fail_json_aws e
                 ("Failed while trying to delete " +:+ pystr obj +:+ "."))
       else None).

Definition get_current_object_tags_dict (bucket : string)
    (obj version : option string) : M Tags :=
  let* r :=
    try_except
      (let* current_tags :=
         s3 (GetObjectTagging bucket obj (sent_version version)) in
       ret (Some current_tags))
      (λ e,
         if code_in ["NoSuchTagSet"] e then Some (ret None)
         else if code_in ["NoSuchTagSetError"] e then Some (ret None)
         else None) in
  match r with
  | None => ret ∅
  | Some current_tags => ret (boto3_tag_list_to_ansible_dict env current_tags)
  end.

Definition put_object_tagging (bucket : string) (obj : option string)
    (tags : Tags) : M unit :=
  s3 (PutObjectTagging bucket obj (ansible_dict_to_boto3_tag_list env tags)).

Definition delete_object_tagging (bucket : string) (obj : option string)
    : M unit :=
  s3 (DeleteObjectTagging bucket obj).

(** The loop of [wait_tags_are_applied] over the values of
    [range(0, 12)] that are left; [live] is the binding of
    [current_tags_dict] left by the previous round. *)
Fixpoint wait_tags_loop (dummies : list Z) (bucket : string)
    (obj : option string) (expected_tags_dict : Tags)
    (version : option string) (live : option Tags) : M Tags :=
  match dummies with
  | [] =>
      fail_json
        {| fj_msg := "Object tags failed to apply in the expected time.";
           fj_exception := None;
           fj_requested_tags := Some expected_tags_dict;
           fj_live_tags := live |}
  | _ :: rest =>
      let* current_tags_dict :=
        try_except (get_current_object_tags_dict bucket obj version)
          (λ e,
             if is_boto_error e
             then Some (fail_json_aws e "Failed to get object tags.")
             else None) in
      if bool_decide (current_tags_dict ≠ expected_tags_dict) then
        sleep 5 >>
        wait_tags_loop rest bucket obj expected_tags_dict version
          (Some current_tags_dict)
      else ret current_tags_dict
  end.

Definition wait_tags_are_applied (bucket : string) (obj : option string)
    (expected_tags_dict : Tags) (version : option string) : M Tags :=
  wait_tags_loop (py_range 0 12) bucket obj expected_tags_dict version None.

(** [ensure_tags] returns the pair [(current_tags_dict, changed)].  When
    the tag lookup is answered by a "not implemented" error the function
    only warns, and the [return] then reads [current_tags_dict], which
    was never bound. *)
Definition ensure_tags (bucket : string) (obj : option string)
    : M (Tags * bool) :=
  let tags := p_tags p in
  let purge_tags := p_purge_tags p in
  let* looked_up :=
    try_except
      (let* current_tags_dict := get_current_object_tags_dict bucket obj None in
       ret (Some current_tags_dict))
      (λ e,
         if code_in IGNORE_S3_DROP_IN_EXCEPTIONS e then
           Some (warn "GetObjectTagging is not implemented by your storage provider. Set the permission parameters to the empty list to avoid this warning." >>
                 ret None)
         else if is_boto_error e then
           Some (fail_json_aws e "Failed to get object tags.")
         else None) in
  match looked_up with
  | None => raise (PyError "UnboundLocalError")
  | Some current_tags_dict =>
      match tags with
      | None => ret (current_tags_dict, false)
      | Some tags =>
          let tags :=
            if negb purge_tags
            (* Ensure existing tags that aren't updated by desired tags
               remain *)
            then tags ∪ current_tags_dict
            else tags in
          if bool_decide (current_tags_dict ≠ tags) then
            (if bool_decide (tags ≠ ∅) then
               try_except (put_object_tagging bucket obj tags)
                 (λ e,
                    if is_boto_error e
                    then Some (fail_json_aws e "Failed to update object tags.")
                    else None)
             else
               when purge_tags
                 (try_except (delete_object_tagging bucket obj)
                    (λ e,
                       if is_boto_error e
                       then Some (fail_json_aws e
                                    "Failed to delete object tags.")
                       else None))) >>
            let* current_tags_dict :=
              wait_tags_are_applied bucket obj tags None in
            ret (current_tags_dict, true)
          else ret (current_tags_dict, false)
      end
  end.

Definition put_download_url (bucket : string) (obj : option string)
    (expiry : Z) : M string :=
  try_except (s3 (GeneratePresignedUrl "put_object" bucket obj expiry))
    (λ e,
       if is_boto_error e
       then Some (fail_json_aws e "Unable to generate presigned URL")
       else None).

Definition get_download_url (bucket : string) (obj : option string)
    (expiry : Z) (tags : option Tags) (changed : bool) : M unit :=
  try_except
    (let* url := s3 (GeneratePresignedUrl "get_object" bucket obj expiry) in
     exit_json {| ej_msg := Some "Download url:"; ej_changed := Some changed;
                  ej_url := Some url; ej_tags := tags;
                  ej_expiry := Some expiry; ej_contents := None;
                  ej_s3_keys := None; ej_failed := None |})
    (λ e,
       if is_boto_error e
       then Some (fail_json_aws e "Failed while getting download url.")
       else None).

Definition create_dirkey (bucket : string) (obj : option string)
    (expiry : Z) : M unit :=
  when (p_check_mode p)
    (exit_json (ej "PUT operation skipped - running in check mode"
                  (Some true))) >>
  try_except
    (s3 (PutObject bucket obj) >>
     let* permission := get_permission in
     for_each permission (λ acl, s3 (PutObjectAcl acl bucket obj)))
    (λ e,
       if code_in IGNORE_S3_DROP_IN_EXCEPTIONS e then
         Some (warn "PutObjectAcl is not implemented by your storage provider. Set the permissions parameters to the empty list to avoid this warning")
       else if is_boto_error e then
         Some (fail_json_aws e
                 ("Failed while creating object " +:+ pystr obj +:+ "."))
       else None) >>
  (* Tags *)
  let* tc := ensure_tags bucket obj in
  try_except
    (s3 (GeneratePresignedUrl "put_object" bucket obj expiry) >> ret tt)
    (λ e,
       if is_boto_error e
       then Some (fail_json_aws e "Unable to generate presigned URL")
       else None) >>
  let* url := put_download_url bucket obj expiry in
  exit_json {| ej_msg := Some ("Virtual directory " +:+ pystr obj
                                 +:+ " created in bucket " +:+ bucket);
               ej_changed := Some true; ej_url := Some url;
               ej_tags := Some tc.1; ej_expiry := None; ej_contents := None;
               ej_s3_keys := None; ej_failed := None |}.

Definition upload_s3file (bucket : string) (obj : option string)
    (expiry : Z) (src content : option string) : M unit :=
  when (p_check_mode p)
    (exit_json (ej "PUT operation skipped - running in check mode"
                  (Some true))) >>
  try_except
    (match src with
     | Some filename => s3 (UploadFile filename bucket obj)
     | None => s3 (UploadFileobj content bucket obj)
     end)
    (λ e,
       if is_boto_error e
       then Some (fail_json_aws e "Unable to complete PUT operation.")
       else None) >>
  try_except
    (let* permission := get_permission in
     for_each permission (λ acl, s3 (PutObjectAcl acl bucket obj)))
    (λ e,
       if code_in IGNORE_S3_DROP_IN_EXCEPTIONS e then
         Some (warn "PutObjectAcl is not implemented by your storage provider. Set the permission parameters to the empty list to avoid this warning")
       else if is_boto_error e then
         Some (fail_json_aws e "Unable to set object ACL")
       else None) >>
  (* Tags *)
  let* tc := ensure_tags bucket obj in
  let* url := put_download_url bucket obj expiry in
  exit_json {| ej_msg := Some "PUT operation complete";
               ej_changed := Some true; ej_url := Some url;
               ej_tags := Some tc.1; ej_expiry := None; ej_contents := None;
               ej_s3_keys := None; ej_failed := None |}.

(** One pass of the retry loop of [download_s3file]. *)
Definition download_attempt (bucket : string) (obj dest : option string)
    (retries : Z) (version : option string) (x : Z) : M unit :=
  try_except
    (s3 (DownloadFile bucket obj dest (sent_version version)) >>
     exit_json (ej "GET operation complete" (Some true)))
    (λ e,
       if is_boto_error e then
         (* actually fail on last pass through the loop. *)
         Some (when (x >=? retries)
                 (fail_json_aws e
                    ("Failed while downloading " +:+ pystr obj +:+ ".")))
         (* otherwise, try again, this may be a transient timeout. *)
       else if is_SSLError e then
         Some (when (x >=? retries) (fail_json_aws e "s3 download failed"))
       else None).

Definition download_s3file (bucket : string) (obj dest : option string)
    (retries : Z) (version : option string) : M unit :=
  when (p_check_mode p)
    (exit_json (ej "GET operation skipped - running in check mode"
                  (Some true))) >>
  try_except
    (s3 (GetObject bucket obj (sent_version version)) >> ret tt)
    (λ e,
       if code_in ["404"; "403"] e then
         Some (fail_json_aws e
                 ("Could not find the key " +:+ pystr obj +:+ "."))
       else if is_boto3_error_message env
                 "require AWS Signature Version 4" e then
         Some raise_Sigv4Required
       else if code_in ["InvalidArgument"] e then
         Some (fail_json_aws e
                 ("Could not find the key " +:+ pystr obj +:+ "."))
       else if is_boto_error e then
         Some (fail_json_aws e
                 ("Could not find the key " +:+ pystr obj +:+ "."))
       else None) >>
  for_each (py_range 0 (retries + 1))
    (download_attempt bucket obj dest retries version).

Definition download_s3str (bucket : string) (obj version : option string)
    : M unit :=
  when (p_check_mode p)
    (exit_json (ej "GET operation skipped - running in check mode"
                  (Some true))) >>
  try_except
    (let* contents := s3 (GetObject bucket obj (sent_version version)) in
     exit_json {| ej_msg := Some "GET operation complete";
                  ej_changed := Some true; ej_url := None; ej_tags := None;
                  ej_expiry := None; ej_contents := Some contents;
                  ej_s3_keys := None; ej_failed := None |})
    (λ e,
       if is_boto3_error_message env "require AWS Signature Version 4" e then
         Some raise_Sigv4Required
       else if code_in ["InvalidArgument"] e then
         Some (fail_json_aws e
                 ("Failed while getting contents of object " +:+ pystr obj
                    +:+ " as a string."))
       else if is_boto_error e then
         Some (fail_json_aws e
                 ("Failed while getting contents of object " +:+ pystr obj
                    +:+ " as a string."))
       else None).

Definition copy_object_to_bucket (bucket : string) (obj : option string)
    (validate : bool) (d_etag : option string) : M unit :=
  when (p_check_mode p)
    (exit_json (ej "COPY operation skipped - running in check mode"
                  (Some true))) >>
  try_except
    (match p_copy_src p with
     | None => raise (PyError "AttributeError")
     | Some copy_src =>
         let src_bucket := cs_bucket copy_src in
         let src_key := cs_object copy_src in
         let version := cs_version_id copy_src in
         let* found := key_check src_bucket (Some src_key) version validate in
         when (negb found)
           (* Key does not exist in source bucket *)
           (exit_json (ej ("Key " +:+ src_key +:+ " does not exist in bucket "
                             +:+ src_bucket +:+ ".") (Some false))) >>
         let* s_etag := get_etag src_bucket (Some src_key) version in
         if bool_decide (s_etag = d_etag) then
           (* Tags *)
           let* tc := ensure_tags bucket obj in
           if negb tc.2 then
             exit_json (ej "ETag from source and destination are the same"
                          (Some false))
           else
             exit_json {| ej_msg := Some "tags successfully updated.";
                          ej_changed := Some tc.2; ej_url := None;
                          ej_tags := Some tc.1; ej_expiry := None;
                          ej_contents := None; ej_s3_keys := None;
                          ej_failed := None |}
         else
           s3 (CopyObject bucket obj src_bucket src_key version) >>
           (let* permission := get_permission in
            for_each permission (λ acl, s3 (PutObjectAcl acl bucket obj))) >>
           (* Tags *)
           let* tc := ensure_tags bucket obj in
           exit_json {| ej_msg := Some ("Object copied from bucket "
                                          +:+ src_bucket +:+ " to bucket "
                                          +:+ bucket +:+ ".");
                        ej_changed := Some true; ej_url := None;
                        ej_tags := Some tc.1; ej_expiry := None;
                        ej_contents := None; ej_s3_keys := None;
                        ej_failed := None |}
     end)
    (λ e,
       if code_in IGNORE_S3_DROP_IN_EXCEPTIONS e then
         Some (warn "PutObjectAcl is not implemented by your storage provider. Set the permissions parameters to the empty list to avoid this warning")
       else if is_boto_error e then
         Some (fail_json_aws e
                 ("Failed while copying object " +:+ pystr obj
                    +:+ " from bucket " +:+ pystr None +:+ "."))
       else None).

(** [get_s3_connection] works out the arguments of [boto3_conn] from the
    endpoint and hands them over; no branch of it ends the invocation. *)
Definition get_s3_connection (location : string) (rgw : bool)
    (s3_url : option string) (sig_4 : bool) : M unit :=
  util (Boto3Conn location rgw s3_url sig_4).

Definition object_canned_acl : list string :=
  ["private"; "public-read"; "public-read-write"; "aws-exec-read";
   "authenticated-read"; "bucket-owner-read"; "bucket-owner-full-control"].

Definition bucket_canned_acl : list string :=
  ["private"; "public-read"; "public-read-write"; "authenticated-read"].

(** [x in l] *)
Definition in_list (x : string) (l : list string) : bool :=
  bool_decide (x ∈ l).

(** Lines 970-974 of [main]: a value that is none of the four policies
    goes through [module.boolean]. *)
Definition normalize_overwrite (overwrite : string) : M string :=
  if negb (in_list overwrite ["always"; "never"; "different"; "latest"]) then
    match module_boolean env overwrite with
    | Accept true => ret "always"
    | Accept false => ret "never"
    | Reject msg => fail_json (fj msg)
    end
  else ret overwrite.

(** Lines 989-994 of [main]. *)
Definition normalize_object (object : option string) : option string :=
  match object with
  | Some o =>
      if nonempty o then
        (* If there is a top level object, do nothing - if the object
           starts with / remove the leading character to maintain
           compatibility with Ansible versions < 2.4 *)
        if startswith_slash o then Some (drop_first o) else Some o
      else object
  | None => None
  end.

(** The branches of [main], one per mode: [mode_get] is the body of
    [if mode == 'get':], and so on.  Each takes the locals of [main] that
    it reads. *)
Definition mode_get (bucket : string) (obj : option string)
    (overwrite : string) (validate : bool) (location : string)
    (s3_url : option string) : M unit :=
  let dest := p_dest p in
  let version := p_version p in
  let retries := p_retries p in
  let* keyrtn := key_check bucket obj version validate in
  when (negb keyrtn)
    (if truthy version then
       fail_json (fj ("Key " +:+ pystr obj +:+ " with version id "
                        +:+ pystr version +:+ " does not exist."))
     else
       fail_json (fj ("Key " +:+ pystr obj +:+ " does not exist."))) >>
  let* dest_exists := if truthy dest then path_exists dest else ret false in
  when (dest_exists && negb (bool_decide (overwrite = "always")))
    (when (bool_decide (overwrite = "never"))
       (exit_json (ej "Local object already exists and overwrite is disabled."
                     (Some false))) >>
     (if bool_decide (overwrite = "different") then
        let* same := etag_compare bucket obj version dest None in
        when same
          (exit_json (ej "Local and remote object are identical, ignoring. Use overwrite=always parameter to force."
                        (Some false)))
      else ret tt) >>
     (if bool_decide (overwrite = "latest") then
        let* latest := is_local_object_latest bucket obj version dest in
        when latest
          (exit_json (ej "Local object is latest, ignoreing. Use overwrite=always parameter to force."
                        (Some false)))
      else ret tt)) >>
  except_Sigv4Required (download_s3file bucket obj dest retries version)
    (get_s3_connection location (p_rgw p) s3_url true >>
     download_s3file bucket obj dest retries version).

Definition mode_put (bucket : string) (obj : option string)
    (overwrite : string) (validate : bool) (location : string)
    (bucketrtn : bool) (bucket_acl object_acl : list string) : M unit :=
  let src := p_src p in
  let content := p_content p in
  let content_base64 := p_content_base64 p in
  let version := p_version p in
  when (bool_decide (content = None) && bool_decide (content_base64 = None)
        && bool_decide (src = None))
    (fail_json (fj "Either content, content_base64 or src must be specified for PUT operations")) >>
  (match src with
   | Some f =>
       let* src_exists := path_exists src in
       when (negb src_exists)
         (fail_json (fj ("Local object " +:+ dquote +:+ f +:+ dquote
                           +:+ " does not exist for PUT operation")))
   | None => ret tt
   end) >>
  let* keyrtn :=
    if bucketrtn then
      let* k := key_check bucket obj version validate in ret (Some k)
    else
      (* If the bucket doesn't exist we should create it.
         only use valid bucket acls for create_bucket function *)
      set_permission bucket_acl >>
      create_bucket bucket location >>
      ret None in
  (* the content will be uploaded as a byte string *)
  let* bincontent :=
    match content_base64 with
    | Some c =>
        match standard_b64decode env c with
        | Ok b => ret (Some b)
        | Err e => raise e
        end
    | None => ret content
    end in
  when (bool_decide (keyrtn = Some true)
        && negb (bool_decide (overwrite = "always")))
    (let* skip :=
       if bool_decide (overwrite = "never") then ret true
       else etag_compare bucket obj version src bincontent in
     when skip
       (* Return the download URL for the existing object and ensure tags
          are updated *)
       (let* tc := ensure_tags bucket obj in
        get_download_url bucket obj (p_expiry p) (Some tc.1) tc.2)) >>
  (* only use valid object acls for the upload_s3file function *)
  set_permission object_acl >>
  upload_s3file bucket obj (p_expiry p) src bincontent.

Definition mode_delobj (bucket : string) (obj : option string) : M unit :=
  when (bool_decide (obj = None))
    (fail_json (fj "object parameter is required")) >>
  if nonempty bucket then delete_key bucket obj
  else fail_json (fj "Bucket parameter is required.").

Definition mode_delete (bucket : string) : M unit :=
  if nonempty bucket then
    let* deletertn := delete_bucket bucket in
    when deletertn
      (exit_json (ej ("Bucket " +:+ bucket +:+ " and all keys have been deleted.")
                    (Some true)))
  else fail_json (fj "Bucket parameter is required.").

Definition mode_list (bucket : string) : M unit :=
  let* exists_ := bucket_check bucket true in
  (* If the bucket does not exist then bail out *)
  when (negb exists_)
    (fail_json (fj ("Target bucket (" +:+ bucket +:+ ") cannot be found"))) >>
  list_keys bucket (p_prefix p) (p_marker p) (p_max_keys p).

(** [obj if obj.endswith('/') else obj + "/"] *)
Definition as_directory (obj : string) : string :=
  if endswith_slash obj then obj else obj +:+ "/".

Definition mode_create (bucket : string) (obj : option string)
    (location : string) (bucketrtn : bool)
    (bucket_acl object_acl : list string) : M unit :=
  when (nonempty bucket && negb (truthy obj))
    (if bucketrtn then
       exit_json (ej "Bucket already exists." (Some false))
     else
       (* only use valid bucket acls when creating the bucket *)
       set_permission bucket_acl >>
       let* created := create_bucket bucket location in
       exit_json (ej "Bucket created successfully" created)) >>
  when (nonempty bucket && truthy obj)
    (let dirobj := as_directory <$> obj in
     if bucketrtn then
       let* found := key_check bucket dirobj None true in
       if found then
         exit_json (ej ("Bucket " +:+ bucket +:+ " and key " +:+ pystr obj
                          +:+ " already exists.") (Some false))
       else
         (* setting valid object acls for the create_dirkey function *)
         set_permission object_acl >>
         create_dirkey bucket dirobj (p_expiry p)
     else
       (* only use valid bucket acls for the create_bucket function *)
       set_permission bucket_acl >>
       create_bucket bucket location >>
       (* only use valid object acls for the create_dirkey function *)
       set_permission object_acl >>
       create_dirkey bucket dirobj (p_expiry p)).

Definition mode_geturl (bucket : string) (obj : option string)
    (validate : bool) : M unit :=
  let version := p_version p in
  when (negb (nonempty bucket) && negb (truthy obj))
    (fail_json (fj "Bucket and Object parameters must be set")) >>
  let* keyrtn := key_check bucket obj version validate in
  if keyrtn then
    let* tags := get_current_object_tags_dict bucket obj version in
    get_download_url bucket obj (p_expiry p) (Some tags) true
  else fail_json (fj ("Key " +:+ pystr obj +:+ " does not exist.")).

Definition mode_getstr (bucket : string) (obj : option string)
    (validate : bool) (location : string) (s3_url : option string) : M unit :=
  let version := p_version p in
  when (nonempty bucket && truthy obj)
    (let* keyrtn := key_check bucket obj version validate in
     if keyrtn then
       except_Sigv4Required (download_s3str bucket obj version)
         (get_s3_connection location (p_rgw p) s3_url true >>
          download_s3str bucket obj version)
     else if bool_decide (version ≠ None) then
       fail_json (fj ("Key " +:+ pystr obj +:+ " with version id "
                        +:+ pystr version +:+ " does not exist."))
     else
       fail_json (fj ("Key " +:+ pystr obj +:+ " does not exist."))).

Definition mode_copy (bucket : string) (obj : option string)
    (validate : bool) (location : string) (bucketrtn : bool)
    (bucket_acl object_acl : list string) : M unit :=
  let* d_etag :=
    if bucketrtn then get_etag bucket obj None
    else
      (* If the bucket doesn't exist we should create it.
         only use valid bucket acls for create_bucket function *)
      set_permission bucket_acl >>
      create_bucket bucket location >>
      ret None in
  (* only use valid object acls for the copy operation *)
  set_permission object_acl >>
  copy_object_to_bucket bucket obj validate d_etag.

(** [main], from the line after the module object is built: the
    argument specification has been applied, so [module.params] is the
    parameter bag [p]. *)
Definition main : M unit :=
  let bucket := p_bucket p in
  let mode := p_mode p in
  (match validate_bucket_name env bucket with
   | Accept _ => ret tt
   | Reject msg => fail_json (fj msg)
   end) >>
  let* overwrite := normalize_overwrite (p_overwrite p) in
  when (bool_decide (overwrite = "different") && negb (HAS_MD5 env))
    (fail_json (fj "overwrite=different is unavailable: ETag calculation requires MD5 support")) >>
  let* region := util GetAwsConnectionInfo in
  let location :=
    if bool_decide (region ∈ [Some "us-east-1"; Some ""; None])
    (* default to US Standard region *)
    then "us-east-1"
    else default "" region in
  let obj := normalize_object (p_object p) in
  (* Bucket deletion does not require obj.  Prevents ambiguity with
     delobj. *)
  when (truthy obj && bool_decide (mode = ModeDelete))
    (fail_json (fj "Parameter obj cannot be used with mode=delete")) >>
  (* allow eucarc environment variables to be used if ansible vars aren't
     set *)
  let s3_url :=
    if negb (truthy (p_s3_url p)) && bool_decide (p_environ_S3_URL p ≠ None)
    then p_environ_S3_URL p
    else p_s3_url p in
  when (p_dualstack p &&
        match s3_url with
        | Some u => negb (str_contains "amazonaws.com" u)
        | None => false
        end)
    (fail_json (fj "dualstack only applies to AWS S3")) >>
  (* rgw requires an explicit url *)
  when (p_rgw p && negb (truthy s3_url))
    (fail_json (fj "rgw flavour requires s3_url")) >>
  get_s3_connection location (p_rgw p) s3_url false >>
  let validate := negb (p_ignore_nonexistent_bucket p) in
  (* separate types of ACLs *)
  let* permission := get_permission in
  let bucket_acl := filter (λ acl, acl ∈ bucket_canned_acl) permission in
  let object_acl := filter (λ acl, acl ∈ object_canned_acl) permission in
  let error_acl :=
    filter (λ acl, (acl ∉ bucket_canned_acl) ∧ (acl ∉ object_canned_acl))
      permission in
  when (bool_decide (error_acl ≠ []))
    (fail_json (fj ("Unknown permission specified: "
                      +:+ pyrepr_list error_acl))) >>
  (* First, we check to see if the bucket exists, we get "bucket"
     returned. *)
  let* bucketrtn := bucket_check bucket validate in
  when (validate
        && negb (bool_decide (mode ∈ [ModeCreate; ModePut; ModeDelete; ModeCopy]))
        && negb bucketrtn)
    (fail_json (fj "Source bucket cannot be found.")) >>
  when (bool_decide (mode = ModeGet))
    (mode_get bucket obj overwrite validate location s3_url) >>
  when (bool_decide (mode = ModePut))
    (mode_put bucket obj overwrite validate location bucketrtn
       bucket_acl object_acl) >>
  (* Delete an object from a bucket, not the entire bucket *)
  when (bool_decide (mode = ModeDelObj)) (mode_delobj bucket obj) >>
  (* Delete an entire bucket, including all objects in the bucket *)
  when (bool_decide (mode = ModeDelete)) (mode_delete bucket) >>
  (* Support for listing a set of keys *)
  when (bool_decide (mode = ModeList)) (mode_list bucket) >>
  when (bool_decide (mode = ModeCreate))
    (mode_create bucket obj location bucketrtn bucket_acl object_acl) >>
  (* Support for grabbing the time-expired URL for an object in
     S3/Walrus. *)
  when (bool_decide (mode = ModeGetUrl)) (mode_geturl bucket obj validate) >>
  when (bool_decide (mode = ModeGetStr))
    (mode_getstr bucket obj validate location s3_url) >>
  when (bool_decide (mode = ModeCopy))
    (mode_copy bucket obj validate location bucketrtn bucket_acl object_acl) >>
  exit_json {| ej_msg := None; ej_changed := None; ej_url := None;
               ej_tags := None; ej_expiry := None; ej_contents := None;
               ej_s3_keys := None; ej_failed := Some false |}.

(** The state in which [main] starts. *)
Definition initial (w : W) : State :=
  {| world := w; trace := []; warnings := [];
     permission := p_permission p |}.

Definition run_main (w : W) : Result unit * State := main (initial w).

End Model.

(** ** The vocabulary of traces *)

(** The [Key] argument of a call, for the calls that have one. *)
Definition event_key (ev : Event) : option (option string) :=
  match ev with
  | EvS3 r =>
      match r with
      | HeadObject _ k _ | DeleteObject _ k | PutObject _ k
      | PutObjectAcl _ _ k | GeneratePresignedUrl _ _ k _
      | UploadFile _ _ k | UploadFileobj _ _ k | GetObject _ k _
      | DownloadFile _ k _ _ | CopyObject _ k _ _ _
      | GetObjectTagging _ k _ | PutObjectTagging _ k _
      | DeleteObjectTagging _ k => Some k
      | _ => None
      end
  | EvUtil r =>
      match r with
      | CalculateEtag _ _ _ k _ | CalculateEtagContent _ _ _ k _ => Some k
      | _ => None
      end
  | EvSleep _ => None
  end.

(** The call names no key, or it names [k]. *)
Definition keyed (k : option string) (ev : Event) : bool :=
  match event_key ev with
  | Some k' => bool_decide (k' = k)
  | None => true
  end.

(** The bulk transfers: [download_file], and [upload_file] or
    [upload_fileobj]. *)
Definition is_download (ev : Event) : bool :=
  match ev with
  | EvS3 (DownloadFile _ _ _ _) => true
  | _ => false
  end.

Definition is_upload (ev : Event) : bool :=
  match ev with
  | EvS3 (UploadFile _ _ _) | EvS3 (UploadFileobj _ _ _) => true
  | _ => false
  end.

(** A call that is not a bulk transfer and names no key but [k]. *)
Definition on_key (k : option string) (ev : Event) : bool :=
  keyed k ev && negb (is_download ev) && negb (is_upload ev).

(** The calls that change the tags of an object. *)
Definition is_tag_mutation (ev : Event) : bool :=
  match ev with
  | EvS3 (PutObjectTagging _ _ _) | EvS3 (DeleteObjectTagging _ _) => true
  | _ => false
  end.

(** How many events of [l] the classifier [c] picks out. *)
Fixpoint count (c : Event → bool) (l : list Event) : nat :=
  match l with
  | [] => 0
  | ev :: rest => (if c ev then 1 else 0) + count c rest
  end.

(** A computation only ever appends to the trace.  [bounded c n m] says
    that, from any state, [m] appends at most [n] events that the
    classifier [c] picks out. *)
Definition appends {W} (c : Event → bool) (n : nat) (st st' : @State W)
    : Prop :=
  ∃ l, trace st' = trace st ++ l ∧ (count c l ≤ n)%nat.

Definition bounded {W A} (c : Event → bool) (n : nat) (m : @M W A) : Prop :=
  ∀ st, appends c n st (m st).2.

(** The object key as the spec has it: a key that begins with [/] loses
    that character, any other key is kept. *)
Definition stripped (key : string) : string :=
  if startswith_slash key then drop_first key else key.

(** The key that the calls of an invocation are to name: the stripped
    key, and in create mode that key as a directory. *)
Definition target_key (p : Params) : option string :=
  let obj := stripped <$> p_object p in
  if bool_decide (p_mode p = ModeCreate) then as_directory <$> obj else obj.

(** A lookup of the source object of a copy: a [head_object] call on the
    bucket, the key and the version of [copy_src]. *)
Definition source_lookup (p : Params) (ev : Event) : bool :=
  match p_copy_src p, ev with
  | Some copy_src, EvS3 (HeadObject b k v) =>
      bool_decide (b = cs_bucket copy_src ∧ k = Some (cs_object copy_src)
                   ∧ v = sent_version (cs_version_id copy_src))
  | _, _ => false
  end.

(** The call names no key, or the target key, or, in copy mode, it is a
    lookup of the source object. *)
Definition key_ok (p : Params) (ev : Event) : bool :=
  keyed (target_key p) ev
  || (bool_decide (p_mode p = ModeCopy) && source_lookup p ev).

(** A tag mutation other than [put_object_tagging] of [tags] on the
    object [obj] of [bucket]. *)
Definition other_tag_mutation (bucket : string) (obj : option string)
    (tags : TagList) (ev : Event) : bool :=
  match ev with
  | EvS3 (PutObjectTagging b k t) =>
      negb (bool_decide (b = bucket ∧ k = obj ∧ t = tags))
  | EvS3 (DeleteObjectTagging _ _) => true
  | _ => false
  end.

(** The failure of [wait_tags_are_applied] when the tags did not show
    up in time. *)
Definition tags_timeout (expected : Tags) (live : option Tags) : FailJson :=
  {| fj_msg := "Object tags failed to apply in the expected time.";
     fj_exception := None; fj_requested_tags := Some expected;
     fj_live_tags := live |}.

(** The stages that the GET and PUT branches of [main] end in, to say
    where a run goes on from.  [download_stage] is lines 1049-1053: the
    download, and once more over a connection with signature version 4.
    [skip_upload_stage] is lines 1083-1085: make sure of the tags and
    return the download URL of the object that is already there.
    [upload_stage] is lines 1087-1089. *)
Definition download_stage {W} (env : Env W) (p : Params) (bucket : string)
    (obj : option string) (location : string) (s3_url : option string)
    : M unit :=
  except_Sigv4Required
    (download_s3file env p bucket obj (p_dest p) (p_retries p) (p_version p))
    (bind (get_s3_connection env location (p_rgw p) s3_url true)
       (λ _, download_s3file env p bucket obj (p_dest p) (p_retries p)
               (p_version p))).

Definition skip_upload_stage {W} (env : Env W) (p : Params) (bucket : string)
    (obj : option string) : M unit :=
  bind (ensure_tags env p bucket obj)
    (λ tc, get_download_url env bucket obj (p_expiry p) (Some tc.1) tc.2).

Definition upload_stage {W} (env : Env W) (p : Params) (bucket : string)
    (obj : option string) (object_acl : list string)
    (bincontent : option string) : M unit :=
  bind (set_permission object_acl)
    (λ _, upload_s3file env p bucket obj (p_expiry p) (p_src p) bincontent).

(** A computation that never ends in [exit_json]. *)
Definition never_exits {W A} (m : @M W A) : Prop :=
  ∀ st o st', m st ≠ (Exit o, st').

(** The parameter bag with another value for [overwrite]. *)
Definition with_overwrite (overwrite : string) (p : Params) : Params :=
  {| p_bucket := p_bucket p; p_dest := p_dest p; p_encrypt := p_encrypt p;
     p_expiry := p_expiry p; p_marker := p_marker p;
     p_max_keys := p_max_keys p; p_mode := p_mode p;
     p_object := p_object p; p_permission := p_permission p;
     p_version := p_version p; p_overwrite := overwrite;
     p_prefix := p_prefix p; p_retries := p_retries p;
     p_s3_url := p_s3_url p; p_dualstack := p_dualstack p;
     p_rgw := p_rgw p; p_src := p_src p; p_content := p_content p;
     p_content_base64 := p_content_base64 p;
     p_ignore_nonexistent_bucket := p_ignore_nonexistent_bucket p;
     p_tags := p_tags p; p_purge_tags := p_purge_tags p;
     p_copy_src := p_copy_src p; p_check_mode := p_check_mode p;
     p_environ_S3_URL := p_environ_S3_URL p |}.

(** The parameter bag with another value for [retries]. *)
Definition with_retries (retries : Z) (p : Params) : Params :=
  {| p_bucket := p_bucket p; p_dest := p_dest p; p_encrypt := p_encrypt p;
     p_expiry := p_expiry p; p_marker := p_marker p;
     p_max_keys := p_max_keys p; p_mode := p_mode p;
     p_object := p_object p; p_permission := p_permission p;
     p_version := p_version p; p_overwrite := p_overwrite p;
     p_prefix := p_prefix p; p_retries := retries;
     p_s3_url := p_s3_url p; p_dualstack := p_dualstack p;
     p_rgw := p_rgw p; p_src := p_src p; p_content := p_content p;
     p_content_base64 := p_content_base64 p;
     p_ignore_nonexistent_bucket := p_ignore_nonexistent_bucket p;
     p_tags := p_tags p; p_purge_tags := p_purge_tags p;
     p_copy_src := p_copy_src p; p_check_mode := p_check_mode p;
     p_environ_S3_URL := p_environ_S3_URL p |}.

(** ** What it is for a transfer to go ahead

    The run [r] goes through the download step from the state [st].  In
    check mode it ends there, with nothing sent.  Otherwise [get_object]
    is the next call; when it succeeds and [retries] is not negative,
    [download_file] is the call after it; and when that succeeds too,
    the invocation ends with "GET operation complete". *)
Definition download_goes_ahead {W} (env : Env W) (p : Params)
    (bucket : string) (obj : option string) (st : @State W)
    (r : Result unit * @State W) : Prop :=
  let get := GetObject bucket obj (sent_version (p_version p)) in
  let download :=
    DownloadFile bucket obj (p_dest p) (sent_version (p_version p)) in
  if p_check_mode p then
    r = (Exit (ej "GET operation skipped - running in check mode"
                 (Some true)), st)
  else
    ∃ l, trace r.2 = trace st ++ EvS3 get :: l
         ∧ ∀ body w1,
             s3_call env get (world st) = (Ok body, w1) →
             (0 ≤ p_retries p)%Z →
             ∃ l', l = EvS3 download :: l'
                   ∧ ∀ w2,
                       s3_call env download w1 = (Ok tt, w2) →
                       r = (Exit (ej "GET operation complete" (Some true)),
                            log (EvS3 download) w2 (log (EvS3 get) w1 st)).

(** The run [r] goes through the upload step from the state [st].  In
    check mode it ends there, with nothing sent.  Otherwise the upload
    ([upload_file] for a file, [upload_fileobj] for a content) is the
    next call, an error of the upload ends the run at that call, and
    the only [exit_json] the run can end in is "PUT operation
    complete", with [changed = true]. *)
Definition upload_goes_ahead {W} (env : Env W) (p : Params)
    (bucket : string) (obj : option string) (bincontent : option string)
    (st : @State W) (r : Result unit * @State W) : Prop :=
  let upload : S3Req unit :=
    match p_src p with
    | Some filename => UploadFile filename bucket obj
    | None => UploadFileobj bincontent bucket obj
    end in
  if p_check_mode p then
    r.1 = Exit (ej "PUT operation skipped - running in check mode"
                  (Some true))
    ∧ trace r.2 = trace st
  else
    (∃ l, trace r.2 = trace st ++ EvS3 upload :: l)
    ∧ (∀ e w1, s3_call env upload (world st) = (Err e, w1) →
         r.1 = (if is_boto_error e
                then Fail (fj_aws e "Unable to complete PUT operation.")
                else Raise e)
         ∧ trace r.2 = trace st ++ [EvS3 upload])
    ∧ (∀ o, r.1 = Exit o →
         ej_msg o = Some "PUT operation complete"
         ∧ ej_changed o = Some true).



(** ** A scripted environment

    A concrete environment, for running the module on examples.  The
    remote store answers the calls on the client from a script, one
    entry per call; when the script is used up every call succeeds with
    an empty answer.  The local file system is a table from paths to
    modification times, and the local fingerprints are a table too. *)
Module Scenario.

(** One scripted answer: success with the default payload, an error, or
    a payload for the calls that return one. *)
Inductive Answer : Type :=
| AOk
| AErr (e : Exn)
| AHead (h : option Head)
| ATags (t : option TagList)
| AStr (s : string)
| AKeys (pages : Paged (list string))
| AVersions (pages : Paged VersionPage).

Record World : Type := {
  script : list Answer;
  files : list (string * Z);
  fingerprints : list (string * string)
}.

Definition default_answer {A} (r : S3Req A) : A :=
  match r in S3Req T return T with
  | HeadObject _ _ _ => Some {| ETag := ""; LastModified := 0 |}
  | ListObjectsV2 _ _ _ _ => ([], None)
  | ListObjectVersions _ => ([], None)
  | GeneratePresignedUrl _ _ _ _ => "https://example.invalid/"
  | GetObject _ _ _ => ""
  | GetObjectTagging _ _ _ => Some []
  | _ => tt
  end.

Definition answer {A} (r : S3Req A) (a : Answer) : PyRes A :=
  match a with
  | AErr e => Err e
  | _ =>
      match r in S3Req T return T → PyRes T with
      | HeadObject _ _ _ => λ d,
          match a with AHead h => Ok h | _ => Ok d end
      | GetObjectTagging _ _ _ => λ d,
          match a with ATags t => Ok t | _ => Ok d end
      | GeneratePresignedUrl _ _ _ _ => λ d,
          match a with AStr u => Ok u | _ => Ok d end
      | GetObject _ _ _ => λ d,
          match a with AStr c => Ok c | _ => Ok d end
      | ListObjectsV2 _ _ _ _ => λ d,
          match a with AKeys pg => Ok pg | _ => Ok d end
      | ListObjectVersions _ => λ d,
          match a with AVersions pg => Ok pg | _ => Ok d end
      | _ => λ d, Ok d
      end (default_answer r)
  end.

Definition scripted_s3 {A} (r : S3Req A) (w : World) : PyRes A * World :=
  match script w with
  | [] => (Ok (default_answer r), w)
  | a :: rest =>
      (answer r a,
       {| script := rest; files := files w;
          fingerprints := fingerprints w |})
  end.

Fixpoint assoc {B} (k : string) (l : list (string * B)) : option B :=
  match l with
  | [] => None
  | (k', v) :: rest => if bool_decide (k = k') then Some v else assoc k rest
  end.

(** The helpers always succeed: the region is not set, the connection
    opens, and the fingerprint of a file or of a content is looked up in
    the table. *)
Definition scripted_util {A} (r : UtilReq A) (w : World) : UtilRes A * World :=
  match r in UtilReq T return UtilRes T * World with
  | GetAwsConnectionInfo => (UOk None, w)
  | Boto3Conn _ _ _ _ => (UOk tt, w)
  | CalculateEtag f _ _ _ _ => (UOk (assoc f (fingerprints w)), w)
  | CalculateEtagContent c _ _ _ _ =>
      (UOk (assoc (default "" c) (fingerprints w)), w)
  end.

(** Modelled from the spec: [is_boto3_error_code] of [module_utils.core]
    is not among the sources.  The spec tells remote failures apart by
    what the store reports (not found, unauthorized, unimplemented); the
    matcher accepts a [ClientError] whose error code is one of the codes
    asked for. *)
Definition code_matches (codes : list string) (e : Exn) : bool :=
  match e with
  | ClientError code _ => bool_decide (code ∈ codes)
  | _ => false
  end.

(** Modelled from the spec: [is_boto3_error_message] of
    [module_utils.core] is not among the sources; the matcher accepts a
    [ClientError] whose message contains the text asked for. *)
Definition message_matches (msg : string) (e : Exn) : bool :=
  match e with
  | ClientError _ message => str_contains msg message
  | _ => false
  end.

(** [str.lower()] on the letters A-Z. *)
Definition lower_ascii (c : ascii) : ascii :=
  let n := nat_of_ascii c in
  if (65 <=? n)%nat && (n <=? 90)%nat then ascii_of_nat (n + 32) else c.

Fixpoint lower (s : string) : string :=
  match s with
  | EmptyString => EmptyString
  | String c r => String (lower_ascii c) (lower r)
  end.

(** White space, for [str.strip()]: space, tab, line feed, vertical tab,
    form feed, carriage return and the four separators 28-31. *)
Definition is_space (c : ascii) : bool :=
  let n := nat_of_ascii c in
  (n =? 32)%nat || ((9 <=? n)%nat && (n <=? 13)%nat)
  || ((28 <=? n)%nat && (n <=? 31)%nat).

Fixpoint lstrip (s : string) : string :=
  match s with
  | String c r => if is_space c then lstrip r else s
  | EmptyString => EmptyString
  end.

Fixpoint rstrip (s : string) : string :=
  match s with
  | EmptyString => EmptyString
  | String c r =>
      match rstrip r with
      | EmptyString => if is_space c then EmptyString else String c EmptyString
      | r' => String c r'
      end
  end.

Definition strip (s : string) : string := rstrip (lstrip s).

(** [AnsibleModule.boolean] of the host, on a string: the value is
    lower-cased and stripped; the words for true and for false are
    accepted, and any other value is a [TypeError] of the conversion,
    which [AnsibleModule.boolean] turns into [fail_json].  The message
    of the host goes on to list the valid words. *)
Definition ansible_boolean (arg : string) : Checked bool :=
  let normalized_value := strip (lower arg) in
  if in_list normalized_value ["y"; "yes"; "on"; "1"; "true"; "t"] then
    Accept true
  else if in_list normalized_value ["n"; "no"; "off"; "0"; "false"; "f"] then
    Accept false
  else Reject ("The value '" +:+ arg +:+ "' is not a valid boolean.").

(** The scripted environment.  Bucket names are all accepted, base64
    data stands for itself, and a tag list is the list of the entries of
    the dictionary. *)
Definition env (has_md5 : bool) : Env World :=
  {| s3_call := @scripted_s3;
     util_call := @scripted_util;
     os_path_exists := λ path w, bool_decide (is_Some (assoc path (files w)));
     os_path_getmtime := λ path w,
       match assoc path (files w) with
       | Some t => Ok t
       | None => Err (PyError "FileNotFoundError")
       end;
     HAS_MD5 := has_md5;
     is_boto3_error_code := code_matches;
     is_boto3_error_message := message_matches;
     validate_bucket_name := λ _, Accept tt;
     module_boolean := ansible_boolean;
     standard_b64decode := λ data, Ok data;
     boto3_tag_list_to_ansible_dict := λ l, list_to_map (default [] l);
     ansible_dict_to_boto3_tag_list := λ m, map_to_list m |}.

(** The parameters of an invocation on the bucket [mybucket]: the
    options that the examples vary, and the defaults of the argument
    specification for the others. *)
Definition params (mode : Mode) (object : option string)
    (overwrite : string) (dest src : option string) (retries : Z)
    (tags : option Tags) (purge_tags ignore_nonexistent_bucket : bool)
    : Params :=
  {| p_bucket := "mybucket"; p_dest := dest; p_encrypt := true;
     p_expiry := 600; p_marker := ""; p_max_keys := 1000; p_mode := mode;
     p_object := object; p_permission := ["private"]; p_version := None;
     p_overwrite := overwrite; p_prefix := ""; p_retries := retries;
     p_s3_url := None; p_dualstack := false; p_rgw := false;
     p_src := src; p_content := None; p_content_base64 := None;
     p_ignore_nonexistent_bucket := ignore_nonexistent_bucket;
     p_tags := tags; p_purge_tags := purge_tags; p_copy_src := None;
     p_check_mode := false; p_environ_S3_URL := None |}.

(** A world with one local file, [/tmp/f], last modified at 200, whose
    fingerprint is [abc]. *)
Definition store (answers : list Answer) : World :=
  {| script := answers; files := [("/tmp/f", 200)];
     fingerprints := [("/tmp/f", "abc")] |}.

Definition get_request (overwrite : string) (retries : Z) : Params :=
  params ModeGet (Some "/k") overwrite (Some "/tmp/f") None retries None true
    false.

Definition put_request (overwrite : string) : Params :=
  params ModePut (Some "/k") overwrite None (Some "/tmp/f") 0 None true false.

Definition tag_request (tags : Tags) (purge_tags : bool) : Params :=
  params ModePut (Some "/k") "always" None (Some "/tmp/f") 0 (Some tags)
    purge_tags false.

Definition object_head (etag : string) (last_modified : Z) : Answer :=
  AHead (Some {| ETag := etag; LastModified := last_modified |}).


Definition unavailable : Exn := ClientError "503" "Slow Down".

Definition tags_ab : Tags := {["a" := "b"]}.

Definition tags_cd : Tags := {["c" := "d"]}.

End Scenario.

(** ** The methods behind the trace

    The name of the method behind an entry of the trace: the methods of
    the boto3 client, the helpers of [module_utils], and [time.sleep].
    It is what a statement such as "in check mode the module only looks
    things up" is about. *)
Inductive Method : Type :=
| m_get_aws_connection_info | m_boto3_conn | m_calculate_etag
| m_calculate_etag_content | m_sleep
| m_head_object | m_head_bucket | m_create_bucket | m_wait_bucket_exists
| m_put_bucket_acl | m_list_objects_v2 | m_list_object_versions
| m_delete_objects | m_delete_bucket | m_delete_object | m_put_object
| m_put_object_acl | m_generate_presigned_url | m_upload_file
| m_upload_fileobj | m_get_object | m_download_file | m_copy_object
| m_get_object_tagging | m_put_object_tagging | m_delete_object_tagging.

#[global] Instance Method_eq_dec : EqDecision Method.
Proof. solve_decision. Defined.

Definition method (ev : Event) : Method :=
  match ev with
  | EvS3 r =>
      match r with
      | HeadObject _ _ _ => m_head_object
      | HeadBucket _ => m_head_bucket
      | CreateBucket _ _ => m_create_bucket
      | WaitBucketExists _ => m_wait_bucket_exists
      | PutBucketAcl _ _ => m_put_bucket_acl
      | ListObjectsV2 _ _ _ _ => m_list_objects_v2
      | ListObjectVersions _ => m_list_object_versions
      | DeleteObjects _ _ => m_delete_objects
      | DeleteBucket _ => m_delete_bucket
      | DeleteObject _ _ => m_delete_object
      | PutObject _ _ => m_put_object
      | PutObjectAcl _ _ _ => m_put_object_acl
      | GeneratePresignedUrl _ _ _ _ => m_generate_presigned_url
      | UploadFile _ _ _ => m_upload_file
      | UploadFileobj _ _ _ => m_upload_fileobj
      | GetObject _ _ _ => m_get_object
      | DownloadFile _ _ _ _ => m_download_file
      | CopyObject _ _ _ _ _ => m_copy_object
      | GetObjectTagging _ _ _ => m_get_object_tagging
      | PutObjectTagging _ _ _ => m_put_object_tagging
      | DeleteObjectTagging _ _ => m_delete_object_tagging
      end
  | EvUtil r =>
      match r with
      | GetAwsConnectionInfo => m_get_aws_connection_info
      | Boto3Conn _ _ _ _ => m_boto3_conn
      | CalculateEtag _ _ _ _ _ => m_calculate_etag
      | CalculateEtagContent _ _ _ _ _ => m_calculate_etag_content
      end
  | EvSleep _ => m_sleep
  end.

(** [m] calls no method but those of [ms]: whatever state it starts in,
    every entry it appends to the trace is a call of one of them. *)
Definition only_calls {W A} (ms : list Method) (m : @M W A) : Prop :=
  ∀ st, ∃ l, trace (m st).2 = trace st ++ l ∧ Forall (λ ev, method ev ∈ ms) l.

(** The methods that change the remote store or the local file system:
    everything but the lookups, the listings, the presigned URLs (which
    are computed locally), the connection helpers and [sleep]. *)
Definition is_change (ev : Event) : bool :=
  bool_decide (method ev ∈
    [m_create_bucket; m_put_bucket_acl; m_delete_objects; m_delete_bucket;
     m_delete_object; m_put_object; m_put_object_acl; m_upload_file;
     m_upload_fileobj; m_download_file; m_copy_object; m_put_object_tagging;
     m_delete_object_tagging]).

(** The three tagging methods, and the pause between two polls. *)
Definition tagging_methods : list Method :=
  [m_get_object_tagging; m_put_object_tagging; m_delete_object_tagging;
   m_sleep].

(** What [main] calls before it looks at the mode. *)
Definition prologue_methods : list Method :=
  [m_get_aws_connection_info; m_boto3_conn; m_head_bucket].

(** What the branch of a mode calls besides the two ACL methods, outside
    check mode and in check mode. *)
Definition mode_methods (check_mode : bool) (mode : Mode) : list Method :=
  match mode, check_mode with
  | ModeGet, false =>
      [m_head_object; m_calculate_etag; m_get_object; m_download_file;
       m_boto3_conn]
  | ModeGet, true => [m_head_object; m_calculate_etag; m_boto3_conn]
  | ModePut, false =>
      [m_head_object; m_create_bucket; m_wait_bucket_exists;
       m_calculate_etag; m_calculate_etag_content; m_generate_presigned_url;
       m_upload_file; m_upload_fileobj] ++ tagging_methods
  | ModePut, true =>
      [m_head_object; m_calculate_etag; m_calculate_etag_content;
       m_generate_presigned_url] ++ tagging_methods
  | ModeDelObj, false => [m_delete_object]
  | ModeDelObj, true => []
  | ModeDelete, false =>
      [m_head_bucket; m_list_object_versions; m_list_objects_v2;
       m_delete_objects; m_delete_bucket]
  | ModeDelete, true => []
  | ModeList, _ => [m_head_bucket; m_list_objects_v2]
  | ModeCreate, false =>
      [m_head_object; m_create_bucket; m_wait_bucket_exists; m_put_object;
       m_generate_presigned_url] ++ tagging_methods
  | ModeCreate, true => [m_head_object]
  | ModeGetUrl, _ =>
      [m_head_object; m_get_object_tagging; m_generate_presigned_url]
  | ModeGetStr, false => [m_head_object; m_get_object; m_boto3_conn]
  | ModeGetStr, true => [m_head_object; m_boto3_conn]
  | ModeCopy, false =>
      [m_head_object; m_create_bucket; m_wait_bucket_exists; m_copy_object]
        ++ tagging_methods
  | ModeCopy, true => [m_head_object]
  end.

(** The modes that set ACLs: the ones that create a bucket or an
    object. *)
Definition sets_acls (check_mode : bool) (mode : Mode) : bool :=
  negb check_mode && bool_decide (mode ∈ [ModePut; ModeCreate; ModeCopy]).

Definition methods_of_mode (check_mode : bool) (mode : Mode) : list Method :=
  prologue_methods ++ mode_methods check_mode mode
    ++ (if sets_acls check_mode mode
        then [m_put_bucket_acl; m_put_object_acl] else []).

(** The ACL of a [put_bucket_acl] is a canned ACL of buckets, and the
    ACL of a [put_object_acl] a canned ACL of objects. *)
Definition acl_ok (ev : Event) : bool :=
  match ev with
  | EvS3 (PutBucketAcl acl _) => in_list acl bucket_canned_acl
  | EvS3 (PutObjectAcl acl _ _) => in_list acl object_canned_acl
  | _ => true
  end.

(** [m], started in a state whose [permission] entry satisfies [pre],
    appends no call that [c] picks out, and ends in a state whose
    [permission] entry satisfies [post]. *)
Definition follows {W A} (pre : list string → Prop) (c : Event → bool)
    (m : @M W A) (post : list string → Prop) : Prop :=
  ∀ st, pre (permission st) →
    appends c 0 st (m st).2 ∧ post (permission (m st).2).

(** What a PUT has to get past before it decides: one of [content],
    [content_base64] and [src] is given, the file at [src] exists, and
    the base64 content decodes; [bincontent] is what is uploaded. *)
Definition put_ready {W} (env : Env W) (p : Params) (st : @State W)
    (bincontent : option string) : Prop :=
  ¬ (p_content p = None ∧ p_content_base64 p = None ∧ p_src p = None)
  ∧ (∀ f, p_src p = Some f → os_path_exists env f (world st) = true)
  ∧ (∀ c, p_content_base64 p = Some c →
       ∃ b, standard_b64decode env c = Ok b ∧ bincontent = Some b)
  ∧ (p_content_base64 p = None → bincontent = p_content p).

(** The endpoint that [main] connects to: the [s3_url] parameter, or the
    [S3_URL] entry of the environment when the parameter is not set
    (the local [s3_url] of [main] after lines 1001-1002). *)
Definition endpoint (p : Params) : option string :=
  if negb (truthy (p_s3_url p)) && bool_decide (p_environ_S3_URL p ≠ None)
  then p_environ_S3_URL p
  else p_s3_url p.

(** How a run ends when it does not return. *)
Inductive Ending : Type :=
| EExit (o : ExitJson)
| EFail (f : FailJson)
| ERaise (e : Exn)
| ERaiseSigv4Required.

(** [fails x]: the ending is a [fail_json] or an exception of a
    library. *)
Definition fails (x : Ending) : Prop :=
  match x with
  | EFail _ | ERaise _ => True
  | EExit _ | ERaiseSigv4Required => False
  end.

(** [hoare P m Q R]: started in a state that satisfies [P], the
    computation [m] either returns a value [a] in a state that satisfies
    [Q a], or ends with the ending [x] in a state that satisfies
    [R x]. *)
Definition hoare {W A} (P : @State W → Prop) (m : @M W A)
    (Q : A → @State W → Prop) (R : Ending → @State W → Prop) : Prop :=
  ∀ st, P st →
    match m st with
    | (Ret a, st') => Q a st'
    | (Exit o, st') => R (EExit o) st'
    | (Fail f, st') => R (EFail f) st'
    | (Raise e, st') => R (ERaise e) st'
    | (RaiseSigv4Required, st') => R ERaiseSigv4Required st'
    end.

(** ** The extra arguments of an upload

    [option_in_extra_args] tells whether an entry of [metadata] is one
    of the arguments that boto3 takes beside the metadata of the object,
    and gives the name of the argument.  Strings are strings of bytes:
    [str.lower()] is taken on the letters A-Z, as it is on the names of
    HTTP headers, which are ASCII. *)

(** [s.replace('-', '')] *)
Fixpoint remove_dashes (s : string) : string :=
  match s with
  | EmptyString => EmptyString
  | String c r =>
      if bool_decide (c = "-"%char) then remove_dashes r
      else String c (remove_dashes r)
  end.

Definition allowed_extra_args : list (string * string) :=
  [("acl", "ACL"); ("cachecontrol", "CacheControl");
   ("contentdisposition", "ContentDisposition");
   ("contentencoding", "ContentEncoding");
   ("contentlanguage", "ContentLanguage");
   ("contenttype", "ContentType"); ("expires", "Expires");
   ("grantfullcontrol", "GrantFullControl");
   ("grantread", "GrantRead"); ("grantreadacp", "GrantReadACP");
   ("grantwriteacp", "GrantWriteACP");
   ("metadata", "Metadata"); ("requestpayer", "RequestPayer");
   ("serversideencryption", "ServerSideEncryption");
   ("storageclass", "StorageClass");
   ("ssecustomeralgorithm", "SSECustomerAlgorithm");
   ("ssecustomerkey", "SSECustomerKey");
   ("ssecustomerkeymd5", "SSECustomerKeyMD5"); ("ssekmskeyid", "SSEKMSKeyId");
   ("websiteredirectlocation", "WebsiteRedirectLocation")].

(** The function returns [None] when it falls off its end. *)
Definition option_in_extra_args (option : string) : Datatypes.option string :=
  let temp_option := Scenario.lower (remove_dashes option) in
  Scenario.assoc temp_option allowed_extra_args.

(** The string holds ASCII characters only. *)
Fixpoint ascii_only (s : string) : bool :=
  match s with
  | EmptyString => true
  | String c r => (nat_of_ascii c <? 128)%nat && ascii_only r
  end.

(** ** More requests for the scripted environment *)
Module Cases.

(** The parameter bag [base] with other values for [check_mode],
    [copy_src], [permission] and [rgw]. *)
Definition adjust (base : Params) (check_mode : bool)
    (copy_src : option CopySrc) (permission : list string) (rgw : bool)
    : Params :=
  {| p_bucket := p_bucket base; p_dest := p_dest base;
     p_encrypt := p_encrypt base; p_expiry := p_expiry base;
     p_marker := p_marker base; p_max_keys := p_max_keys base;
     p_mode := p_mode base; p_object := p_object base;
     p_permission := permission; p_version := p_version base;
     p_overwrite := p_overwrite base; p_prefix := p_prefix base;
     p_retries := p_retries base; p_s3_url := p_s3_url base;
     p_dualstack := p_dualstack base; p_rgw := rgw; p_src := p_src base;
     p_content := p_content base;
     p_content_base64 := p_content_base64 base;
     p_ignore_nonexistent_bucket := p_ignore_nonexistent_bucket base;
     p_tags := p_tags base; p_purge_tags := p_purge_tags base;
     p_copy_src := copy_src; p_check_mode := check_mode;
     p_environ_S3_URL := p_environ_S3_URL base |}.

(** A PUT of [/tmp/f] in check mode that is not to overwrite the object
    and asks for the tag [a=b]. *)
Definition check_mode_put : Params :=
  adjust (Scenario.params ModePut (Some "/k") "never" None (Some "/tmp/f") 0
            (Some Scenario.tags_ab) false false)
    true None ["private"] false.

(** A copy of the object [s] of the bucket [src]. *)
Definition copy_request : Params :=
  adjust (Scenario.params ModeCopy (Some "/k") "always" None None 0 None true
            false)
    false
    (Some {| cs_bucket := "src"; cs_object := "s"; cs_version_id := None |})
    ["private"] false.

Definition delete_request (object : option string) : Params :=
  Scenario.params ModeDelete object "always" None None 0 None true false.

Definition create_request : Params :=
  Scenario.params ModeCreate (Some "/d") "always" None None 0 None true false.

Definition not_found : Exn := ClientError "404" "Not Found".

Definition not_implemented : Exn :=
  ClientError "NotImplemented" "A header you provided implies functionality that is not implemented".

Definition access_denied : Exn := ClientError "AccessDenied" "Access Denied".

(** A store without buckets: [head_bucket] is answered by 404 whatever
    the script holds, the other calls by the script. *)
Definition s3_without_buckets {A} (r : S3Req A) (w : Scenario.World)
    : PyRes A * Scenario.World :=
  match r in S3Req T return PyRes T * Scenario.World with
  | HeadBucket _ => (Err not_found, w)
  | r' => Scenario.scripted_s3 r' w
  end.

Definition without_buckets : Env Scenario.World :=
  let env := Scenario.env true in
  {| s3_call := @s3_without_buckets;
     util_call := @util_call _ env;
     os_path_exists := os_path_exists env;
     os_path_getmtime := os_path_getmtime env;
     HAS_MD5 := HAS_MD5 env;
     is_boto3_error_code := is_boto3_error_code env;
     is_boto3_error_message := is_boto3_error_message env;
     validate_bucket_name := validate_bucket_name env;
     module_boolean := module_boolean env;
     standard_b64decode := standard_b64decode env;
     boto3_tag_list_to_ansible_dict := boto3_tag_list_to_ansible_dict env;
     ansible_dict_to_boto3_tag_list := ansible_dict_to_boto3_tag_list env |}.

(** A listing of the bucket, which has to be there. *)
Definition list_request : Params :=
  Scenario.params ModeList None "always" None None 0 None true false.

End Cases.

(** Every [exit_json] that [m] can end in satisfies [φ]. *)
Definition exits_with {W A} (φ : ExitJson → Prop) (m : @M W A) : Prop :=
  ∀ st o st', m st = (Exit o, st') → φ o.

(** The state after a call that was answered by an error for which the
    module only warns. *)
Definition warned {W} (ev : Event) (w' : W) (msg : string) (st : @State W)
    : @State W :=
  {| world := w'; trace := trace st ++ [ev];
     warnings := warnings st ++ [msg]; permission := permission st |}.

(** The call [r], made again and again from the world [w], is answered
    by the errors of [errors] in turn, and leaves the world [w']. *)
Fixpoint failed_attempts {W A} (env : Env W) (r : S3Req A) (w : W)
    (errors : list Exn) (w' : W) : Prop :=
  match errors with
  | [] => w' = w
  | e :: rest =>
      ∃ w1, s3_call env r w = (Err e, w1) ∧ failed_attempts env r w1 rest w'
  end.

(** * Reasoning about runs *)

(** ** The shape of the trace *)

Lemma count_app c l1 l2 : count c (l1 ++ l2) = (count c l1 + count c l2)%nat.
Proof. induction l1 as [|ev l1 IH]; simpl; [done|]. rewrite IH. lia. Qed.

Lemma count_zero_Forall c l : count c l = 0%nat ↔ Forall (λ ev, c ev = false) l.
Proof.
  induction l as [|ev l IH]; simpl.
  - split; [constructor | done].
  - destruct (c ev) eqn:E; simpl.
    + split; [lia | intros H; inversion H; congruence].
    + rewrite IH. split; [by constructor | intros H; by inversion H].
Qed.

Section Traces.

Context {W : Type}.
Variable env : Env W.
Variable p : Params.

Abbreviation M := (@M W).
Abbreviation State := (@State W).

Lemma appends_refl c n (st : State) : appends c n st st.
Proof. exists []. rewrite app_nil_r. split; [done | simpl; lia]. Qed.

Lemma appends_trans c n1 n2 (st1 st2 st3 : State) :
  appends c n1 st1 st2 → appends c n2 st2 st3 →
  appends c (n1 + n2) st1 st3.
Proof.
  intros (l1 & E1 & H1) (l2 & E2 & H2). exists (l1 ++ l2).
  rewrite E2, E1, app_assoc, count_app. split; [done | lia].
Qed.

Lemma appends_mono c n n' (st st' : State) :
  (n ≤ n')%nat → appends c n st st' → appends c n' st st'.
Proof. intros Hn (l & E & H). exists l. split; [done | lia]. Qed.

Lemma appends_log c ev w (st : State) :
  appends c (if c ev then 1 else 0) st (log ev w st).
Proof. exists [ev]. simpl. split; [done | lia]. Qed.

Lemma bounded_mono {A} c n n' (m : M A) :
  (n ≤ n')%nat → bounded c n m → bounded c n' m.
Proof. intros Hn H st. eapply appends_mono; [exact Hn | apply H]. Qed.

Lemma bounded_ret {A} c (a : A) : bounded c 0 (@ret W A a).
Proof. intros st. apply appends_refl. Qed.

Lemma bounded_exit_json {A} c o : bounded c 0 (@exit_json W A o).
Proof. intros st. apply appends_refl. Qed.

Lemma bounded_fail_json {A} c f : bounded c 0 (@fail_json W A f).
Proof. intros st. apply appends_refl. Qed.

Lemma bounded_fail_json_aws {A} c e msg : bounded c 0 (@fail_json_aws W A e msg).
Proof. intros st. apply appends_refl. Qed.

Lemma bounded_raise {A} c e : bounded c 0 (@raise W A e).
Proof. intros st. apply appends_refl. Qed.

Lemma bounded_raise_Sigv4Required {A} c : bounded c 0 (@raise_Sigv4Required W A).
Proof. intros st. apply appends_refl. Qed.

Lemma bounded_warn c msg : bounded c 0 (@warn W msg).
Proof. intros st. exists []. simpl. rewrite app_nil_r. split; [done | lia]. Qed.

Lemma bounded_get_permission c : bounded c 0 (@get_permission W).
Proof. intros st. apply appends_refl. Qed.

Lemma bounded_set_permission c acls : bounded c 0 (@set_permission W acls).
Proof. intros st. exists []. simpl. rewrite app_nil_r. split; [done | lia]. Qed.

Lemma bounded_path_exists c path : bounded c 0 (path_exists env path).
Proof. intros st. unfold path_exists. destruct path; apply appends_refl. Qed.

Lemma bounded_getmtime c path : bounded c 0 (getmtime env path).
Proof.
  intros st. unfold getmtime. destruct path; [|apply appends_refl].
  destruct (os_path_getmtime _ _ _); apply appends_refl.
Qed.


Lemma bounded_s3 {A} c (r : S3Req A) :
  c (EvS3 r) = false → bounded c 0 (s3 env r).
Proof.
  intros Hc st. unfold s3. destruct (s3_call _ _ _) as [[a|e] w]; simpl;
    (eapply appends_mono; [|apply appends_log]); rewrite Hc; lia.
Qed.

Lemma bounded_util {A} c (r : UtilReq A) :
  c (EvUtil r) = false → bounded c 0 (util env r).
Proof.
  intros Hc st. unfold util. destruct (util_call _ _ _) as [[a|e|f] w]; simpl;
    (eapply appends_mono; [|apply appends_log]); rewrite Hc; lia.
Qed.

Lemma bounded_sleep c n : c (EvSleep n) = false → bounded c 0 (@sleep W n).
Proof.
  intros Hc st. unfold sleep. simpl.
  eapply appends_mono; [|apply appends_log]. rewrite Hc. lia.
Qed.

Lemma bounded_bind {A B} c n1 n2 (m : M A) (k : A → M B) :
  bounded c n1 m → (∀ a, bounded c n2 (k a)) →
  bounded c (n1 + n2) (bind m k).
Proof.
  intros Hm Hk st. unfold bind. specialize (Hm st).
  destruct (m st) as [[a|o|f|e|] st']; simpl in *;
    try (eapply appends_mono; [|exact Hm]; lia).
  eapply appends_trans; [exact Hm | apply Hk].
Qed.

Lemma bounded_bind0 {A B} c (m : M A) (k : A → M B) :
  bounded c 0 m → (∀ a, bounded c 0 (k a)) → bounded c 0 (bind m k).
Proof. intros. by apply (bounded_bind c 0 0). Qed.

Lemma bounded_try_except {A} c n1 n2 (m : M A) handler :
  bounded c n1 m →
  (∀ e, match handler e with Some h => bounded c n2 h | None => True end) →
  bounded c (n1 + n2) (try_except m handler).
Proof.
  intros Hm Hh st. unfold try_except. specialize (Hm st).
  destruct (m st) as [[a|o|f|e|] st']; simpl in *;
    try (eapply appends_mono; [|exact Hm]; lia).
  specialize (Hh e). destruct (handler e) as [h|]; simpl.
  - eapply appends_trans; [exact Hm | apply Hh].
  - eapply appends_mono; [|exact Hm]. lia.
Qed.

Lemma bounded_try_except0 {A} c (m : M A) handler :
  bounded c 0 m →
  (∀ e, match handler e with Some h => bounded c 0 h | None => True end) →
  bounded c 0 (try_except m handler).
Proof. intros. by apply (bounded_try_except c 0 0). Qed.

Lemma bounded_except_Sigv4Required {A} c n1 n2 (m h : M A) :
  bounded c n1 m → bounded c n2 h →
  bounded c (n1 + n2) (except_Sigv4Required m h).
Proof.
  intros Hm Hh st. unfold except_Sigv4Required. specialize (Hm st).
  destruct (m st) as [[a|o|f|e|] st']; simpl in *;
    try (eapply appends_mono; [|exact Hm]; lia).
  eapply appends_trans; [exact Hm | apply Hh].
Qed.

Lemma bounded_when c n b (m : M unit) :
  (b = true → bounded c n m) → bounded c n (when b m).
Proof.
  intros H. destruct b; simpl; [by apply H|].
  eapply bounded_mono; [|apply bounded_ret]. lia.
Qed.

Lemma bounded_for_each {X} c n (xs : list X) (body : X → M unit) :
  (∀ x, bounded c n (body x)) →
  bounded c (length xs * n) (for_each xs body).
Proof.
  intros Hb. induction xs as [|x xs IH]; simpl.
  - apply bounded_ret.
  - apply bounded_bind; [apply Hb | intros _; apply IH].
Qed.

Lemma bounded_for_each0 {X} c (xs : list X) (body : X → M unit) :
  (∀ x, bounded c 0 (body x)) → bounded c 0 (for_each xs body).
Proof.
  intros Hb. eapply bounded_mono; [|apply bounded_for_each, Hb]. lia.
Qed.

End Traces.

(** ** What each function may send

    The lemmas of this section bound what a function appends to the
    trace: a function that works on the key [k] makes no call that [c]
    picks out, as soon as [c] leaves alone every call that names no key
    but [k] and is not a bulk transfer.  The functions that transfer
    come with a second bound, on the number of transfers. *)

Create HintDb quiet.

Ltac trace_leaf :=
  match goal with
  | H : ∀ ev, _ |- _ = false =>
      apply H;
      solve [ unfold on_key, keyed; simpl;
              rewrite ?bool_decide_eq_true_2 by reflexivity; reflexivity ]
  end.

Ltac quiet_step :=
  first
    [ solve [auto with quiet]
    | apply bounded_ret | apply bounded_exit_json | apply bounded_fail_json
    | apply bounded_fail_json_aws | apply bounded_raise
    | apply bounded_raise_Sigv4Required | apply bounded_warn
    | apply bounded_get_permission | apply bounded_set_permission
    | apply bounded_path_exists | apply bounded_getmtime
    | apply bounded_s3; trace_leaf | apply bounded_util; trace_leaf
    | apply bounded_sleep; trace_leaf
    | apply bounded_bind0 | apply bounded_try_except0
    | apply bounded_for_each0
    | apply (bounded_except_Sigv4Required _ 0 0)
    | apply bounded_when; intros _
    | exact I
    | progress intros
    | match goal with |- context [if ?b then _ else _] => destruct b end
    | match goal with |- context [match ?x with _ => _ end] => destruct x end ].

Ltac quiet := repeat quiet_step.

Section Footprints.

Context {W : Type}.
Variable env : Env W.
Variable p : Params.
Variable c : Event → bool.

Abbreviation leaves_alone k := (∀ ev, on_key k ev = true → c ev = false).

Lemma key_check_quiet b k v validate :
  leaves_alone k → bounded c 0 (key_check env b k v validate).
Proof. intros Hc. unfold key_check. quiet. Qed.

Lemma get_etag_quiet b k v :
  leaves_alone k → bounded c 0 (get_etag env b k v).
Proof. intros Hc. unfold get_etag. quiet. Qed.

Hint Resolve key_check_quiet get_etag_quiet : quiet.

Lemma etag_compare_quiet b k v local_file content :
  leaves_alone k → bounded c 0 (etag_compare env b k v local_file content).
Proof. intros Hc. unfold etag_compare. quiet. Qed.

Lemma get_s3_last_modified_timestamp_quiet b k v :
  leaves_alone k → bounded c 0 (get_s3_last_modified_timestamp env b k v).
Proof. intros Hc. unfold get_s3_last_modified_timestamp. quiet. Qed.

Hint Resolve etag_compare_quiet get_s3_last_modified_timestamp_quiet : quiet.

Lemma is_local_object_latest_quiet b k v local_file :
  leaves_alone k → bounded c 0 (is_local_object_latest env b k v local_file).
Proof. intros Hc. unfold is_local_object_latest. quiet. Qed.

Lemma bucket_check_quiet b k validate :
  leaves_alone k → bounded c 0 (bucket_check env b validate).
Proof. intros Hc. unfold bucket_check. quiet. Qed.

Lemma create_bucket_quiet b k location :
  leaves_alone k → bounded c 0 (create_bucket env p b location).
Proof. intros Hc. unfold create_bucket. quiet. Qed.

Lemma get_s3_connection_quiet k location rgw s3_url sig_4 :
  leaves_alone k → bounded c 0 (get_s3_connection env location rgw s3_url sig_4).
Proof. intros Hc. unfold get_s3_connection. quiet. Qed.

Lemma paginate_quiet {A} (r : S3Req (Paged A)) :
  c (EvS3 r) = false → bounded c 0 (paginate env r).
Proof.
  intros Hc. unfold paginate. apply bounded_try_except0.
  - by apply bounded_s3.
  - intros e. apply bounded_ret.
Qed.

Lemma list_keys_quiet b k prefix marker max_keys :
  leaves_alone k → bounded c 0 (list_keys env b prefix marker max_keys).
Proof.
  intros Hc. unfold list_keys, paginated_list, raise_if_some.
  apply bounded_try_except0; [|quiet].
  apply bounded_bind0; [apply paginate_quiet; trace_leaf | quiet].
Qed.

Lemma delete_bucket_quiet b k :
  leaves_alone k → bounded c 0 (delete_bucket env p b).
Proof.
  intros Hc.
  assert (Hb : bounded c 0 (bucket_check env b true))
    by (by apply (bucket_check_quiet b k)).
  unfold delete_bucket, paginated_versioned_list_with_fallback,
    paginated_list, raise_if_some.
  apply bounded_bind0; [quiet|]. intros _.
  apply bounded_try_except0; [|quiet].
  apply bounded_bind0; [exact Hb|]. intros exists_.
  destruct exists_; simpl; [|apply bounded_ret].
  apply bounded_bind0; [|quiet].
  apply bounded_bind0; [apply paginate_quiet; trace_leaf|]. intros pg.
  apply bounded_bind0; [quiet|]. intros _.
  destruct pg.2 as [e|]; [|apply bounded_ret].
  destruct (code_in _ _ _); [|apply bounded_raise].
  apply bounded_bind0; [apply paginate_quiet; trace_leaf | quiet].
Qed.

Lemma delete_key_quiet b k :
  leaves_alone k → bounded c 0 (delete_key env p b k).
Proof. intros Hc. unfold delete_key. quiet. Qed.

Lemma get_current_object_tags_dict_quiet b k v :
  leaves_alone k → bounded c 0 (get_current_object_tags_dict env b k v).
Proof. intros Hc. unfold get_current_object_tags_dict. quiet. Qed.

Hint Resolve is_local_object_latest_quiet get_current_object_tags_dict_quiet
  delete_key_quiet : quiet.

Lemma wait_tags_loop_quiet dummies b k expected v live :
  leaves_alone k →
  bounded c 0 (wait_tags_loop env dummies b k expected v live).
Proof.
  intros Hc. revert live.
  induction dummies as [|d rest IH]; intros live; simpl.
  - apply bounded_fail_json.
  - apply bounded_bind0; [quiet|]. intros current.
    destruct (bool_decide _); [|apply bounded_ret].
    apply bounded_bind0; [quiet | intros _; apply IH].
Qed.

Lemma wait_tags_are_applied_quiet b k expected v :
  leaves_alone k → bounded c 0 (wait_tags_are_applied env b k expected v).
Proof. intros Hc. by apply wait_tags_loop_quiet. Qed.

Hint Resolve wait_tags_are_applied_quiet : quiet.

Lemma ensure_tags_quiet b k :
  leaves_alone k → bounded c 0 (ensure_tags env p b k).
Proof. intros Hc. unfold ensure_tags, put_object_tagging, delete_object_tagging. quiet. Qed.

Lemma put_download_url_quiet b k expiry :
  leaves_alone k → bounded c 0 (put_download_url env b k expiry).
Proof. intros Hc. unfold put_download_url. quiet. Qed.

Lemma get_download_url_quiet b k expiry tags changed :
  leaves_alone k → bounded c 0 (get_download_url env b k expiry tags changed).
Proof. intros Hc. unfold get_download_url. quiet. Qed.

Hint Resolve ensure_tags_quiet put_download_url_quiet get_download_url_quiet
  : quiet.

Lemma create_dirkey_quiet b k expiry :
  leaves_alone k → bounded c 0 (create_dirkey env p b k expiry).
Proof. intros Hc. unfold create_dirkey. quiet. Qed.

Lemma download_s3str_quiet b k v :
  leaves_alone k → bounded c 0 (download_s3str env p b k v).
Proof. intros Hc. unfold download_s3str. quiet. Qed.

Hint Resolve bucket_check_quiet create_bucket_quiet get_s3_connection_quiet
  list_keys_quiet delete_bucket_quiet create_dirkey_quiet download_s3str_quiet
  : quiet.

(** *** The transfers *)

Abbreviation uploads_alone k :=
  (∀ ev, keyed k ev = true → is_upload ev = true → c ev = false).

Abbreviation downloads_alone k :=
  (∀ ev, keyed k ev = true → is_download ev = true → c ev = false).

Lemma upload_s3file_quiet b k expiry src content :
  leaves_alone k → uploads_alone k →
  bounded c 0 (upload_s3file env p b k expiry src content).
Proof. intros Hc Hup. unfold upload_s3file. quiet. Qed.


Lemma download_attempt_quiet b k dest retries v x :
  leaves_alone k → downloads_alone k →
  bounded c 0 (download_attempt env b k dest retries v x).
Proof. intros Hc Hdl. unfold download_attempt. quiet. Qed.



Lemma download_s3file_quiet b k dest retries v :
  leaves_alone k → downloads_alone k →
  bounded c 0 (download_s3file env p b k dest retries v).
Proof.
  intros Hc Hdl. unfold download_s3file.
  apply bounded_bind0; [quiet|]. intros _.
  apply bounded_bind0; [quiet|]. intros _.
  apply bounded_for_each0. intros x. by apply download_attempt_quiet.
Qed.


(** The retry loop never raises [Sigv4Required]: that exception comes
    from the [get_object] call before the loop. *)
Lemma download_loop_not_Sigv4Required b k dest retries v xs st :
  (for_each xs (download_attempt env b k dest retries v) st).1
  ≠ RaiseSigv4Required.
Proof.
  revert st. induction xs as [|x xs IH]; intros st; simpl; [done|].
  unfold bind at 1.
  destruct (download_attempt env b k dest retries v x st)
    as [[[]|o|f|e|] st'] eqn:E; simpl; try done.
  exfalso. revert E. unfold download_attempt, try_except, bind, s3.
  destruct (s3_call _ _ _) as [[[]|e] w]; simpl; [done|].
  destruct (is_boto_error e); [unfold when; by destruct (_ >=? _)|].
  destruct (is_SSLError e); [unfold when; by destruct (_ >=? _)|done].
Qed.


Lemma copy_object_to_bucket_quiet b k validate d_etag :
  leaves_alone k →
  (∀ cs, p_copy_src p = Some cs → leaves_alone (Some (cs_object cs))) →
  bounded c 0 (copy_object_to_bucket env p b k validate d_etag).
Proof.
  intros Hc Hsrc. unfold copy_object_to_bucket.
  destruct (p_copy_src p) as [cs|]; [|quiet].
  specialize (Hsrc cs eq_refl).
  apply bounded_bind0; [quiet|]. intros _.
  apply bounded_try_except0; [|quiet].
  apply bounded_bind0; [by apply key_check_quiet|]. intros found.
  apply bounded_bind0; [quiet|]. intros _.
  apply bounded_bind0; [by apply get_etag_quiet|]. intros s_etag.
  clear Hsrc. quiet.
Qed.

Hint Resolve upload_s3file_quiet download_s3file_quiet
  copy_object_to_bucket_quiet : quiet.

(** *** The branches of [main] *)

Lemma mode_get_quiet b k overwrite validate location s3_url :
  leaves_alone k → downloads_alone k →
  bounded c 0 (mode_get env p b k overwrite validate location s3_url).
Proof. intros Hc Hdl. unfold mode_get. quiet. Qed.


Lemma mode_put_quiet b k overwrite validate location bucketrtn bucket_acl
    object_acl :
  leaves_alone k → uploads_alone k →
  bounded c 0 (mode_put env p b k overwrite validate location bucketrtn
                 bucket_acl object_acl).
Proof. intros Hc Hup. unfold mode_put. quiet. Qed.


Lemma mode_delobj_quiet b k :
  leaves_alone k → bounded c 0 (mode_delobj env p b k).
Proof. intros Hc. unfold mode_delobj. quiet. Qed.

Lemma mode_delete_quiet b k :
  leaves_alone k → bounded c 0 (mode_delete env p b).
Proof.
  intros Hc. unfold mode_delete.
  pose proof (delete_bucket_quiet b k Hc). quiet.
Qed.

Lemma mode_list_quiet b k :
  leaves_alone k → bounded c 0 (mode_list env p b).
Proof.
  intros Hc. unfold mode_list.
  pose proof (bucket_check_quiet b k true Hc).
  pose proof (list_keys_quiet b k (p_prefix p) (p_marker p) (p_max_keys p) Hc).
  quiet.
Qed.

Lemma mode_create_quiet b k location bucketrtn bucket_acl object_acl :
  leaves_alone (as_directory <$> k) →
  bounded c 0 (mode_create env p b k location bucketrtn bucket_acl object_acl).
Proof.
  intros Hc. unfold mode_create.
  pose proof (create_bucket_quiet b _ location Hc).
  quiet.
Qed.

Lemma mode_geturl_quiet b k validate :
  leaves_alone k → bounded c 0 (mode_geturl env p b k validate).
Proof. intros Hc. unfold mode_geturl. quiet. Qed.

Lemma mode_getstr_quiet b k validate location s3_url :
  leaves_alone k → bounded c 0 (mode_getstr env p b k validate location s3_url).
Proof.
  intros Hc. unfold mode_getstr.
  pose proof (get_s3_connection_quiet k location (p_rgw p) s3_url true Hc).
  quiet.
Qed.

Lemma mode_copy_quiet b k validate location bucketrtn bucket_acl object_acl :
  leaves_alone k →
  (∀ cs, p_copy_src p = Some cs → leaves_alone (Some (cs_object cs))) →
  bounded c 0 (mode_copy env p b k validate location bucketrtn bucket_acl
                 object_acl).
Proof.
  intros Hc Hsrc. unfold mode_copy.
  pose proof (create_bucket_quiet b k location Hc).
  apply bounded_bind0; [quiet|]. intros d_etag.
  apply bounded_bind0; [quiet|]. intros _.
  by apply copy_object_to_bucket_quiet.
Qed.

Lemma normalize_overwrite_quiet overwrite :
  bounded c 0 (normalize_overwrite env overwrite).
Proof. unfold normalize_overwrite. quiet. Qed.

(** [main], with a bound for the GET branch and one for the PUT branch:
    everything else it sends is left alone by [c]. *)
Lemma main_bounded n_get n_put :
  let obj := normalize_object (p_object p) in
  (∃ k0, leaves_alone k0) →
  (p_mode p = ModeGet → ∀ overwrite validate location s3_url,
     bounded c n_get
       (mode_get env p (p_bucket p) obj overwrite validate location s3_url)) →
  (p_mode p = ModePut → ∀ overwrite validate location bucketrtn bucket_acl
       object_acl,
     bounded c n_put
       (mode_put env p (p_bucket p) obj overwrite validate location bucketrtn
          bucket_acl object_acl)) →
  (p_mode p ∈ [ModeDelObj; ModeGetUrl; ModeGetStr; ModeCopy] →
     leaves_alone obj) →
  (p_mode p = ModeCreate → leaves_alone (as_directory <$> obj)) →
  (p_mode p = ModeCopy → ∀ cs, p_copy_src p = Some cs →
     leaves_alone (Some (cs_object cs))) →
  bounded c (n_get + n_put) (main env p).
Proof.
  intros obj [k0 Hk0] Hget Hput Hobj Hdir Hsrc. unfold main. fold obj.
  pose proof (get_s3_connection_quiet k0) as Hconn.
  pose proof (bucket_check_quiet (p_bucket p) k0) as Hbucket.
  pose proof (normalize_overwrite_quiet (p_overwrite p)) as Hov.
  apply (bounded_bind c 0 _); [quiet|]. intros _.
  apply (bounded_bind c 0 _); [exact Hov|]. intros overwrite.
  apply (bounded_bind c 0 _); [quiet|]. intros _.
  apply (bounded_bind c 0 _); [quiet|]. intros region.
  apply (bounded_bind c 0 _); [quiet|]. intros _.
  apply (bounded_bind c 0 _); [quiet|]. intros _.
  apply (bounded_bind c 0 _); [quiet|]. intros _.
  apply (bounded_bind c 0 _); [by apply Hconn|]. intros _.
  apply (bounded_bind c 0 _); [quiet|]. intros permission.
  apply (bounded_bind c 0 _); [quiet|]. intros _.
  apply (bounded_bind c 0 _); [by apply Hbucket|]. intros bucketrtn.
  apply (bounded_bind c 0 _); [quiet|]. intros _.
  apply (bounded_bind c n_get n_put).
  { apply bounded_when. intros Hm%bool_decide_eq_true. by apply Hget. }
  intros _. replace n_put with (n_put + 0)%nat by lia.
  apply (bounded_bind c n_put 0).
  { apply bounded_when. intros Hm%bool_decide_eq_true. by apply Hput. }
  intros _. apply bounded_bind0.
  { apply bounded_when. intros Hm%bool_decide_eq_true.
    apply mode_delobj_quiet, Hobj. rewrite Hm. set_solver. }
  intros _. apply bounded_bind0.
  { apply bounded_when. intros _. by apply (mode_delete_quiet _ k0). }
  intros _. apply bounded_bind0.
  { apply bounded_when. intros _. by apply (mode_list_quiet _ k0). }
  intros _. apply bounded_bind0.
  { apply bounded_when. intros Hm%bool_decide_eq_true.
    by apply mode_create_quiet, Hdir. }
  intros _. apply bounded_bind0.
  { apply bounded_when. intros Hm%bool_decide_eq_true.
    apply mode_geturl_quiet, Hobj. rewrite Hm. set_solver. }
  intros _. apply bounded_bind0.
  { apply bounded_when. intros Hm%bool_decide_eq_true.
    apply mode_getstr_quiet, Hobj. rewrite Hm. set_solver. }
  intros _. apply bounded_bind0.
  { apply bounded_when. intros Hm%bool_decide_eq_true.
    apply mode_copy_quiet; [apply Hobj; rewrite Hm; set_solver | by apply Hsrc]. }
  intros _. apply bounded_exit_json.
Qed.

End Footprints.

(** ** Running the module step by step *)

Ltac decide_literals :=
  repeat match goal with
  | |- context [bool_decide (?a = ?b)] =>
      let v := eval vm_compute in (bool_decide (a = b)) in
      match v with
      | true => change (bool_decide (a = b)) with true
      | false => change (bool_decide (a = b)) with false
      end
  end.

Ltac run :=
  unfold when, bind, ret, path_exists, exit_json, fail_json;
  decide_literals;
  cbn [negb andb orb fst snd].

Section Runs.

Context {W : Type}.
Variable env : Env W.
Variable p : Params.

Abbreviation M := (@M W).
Abbreviation State := (@State W).

Lemma bind_Ret {A B} (m : M A) (k : A → M B) st a st' :
  m st = (Ret a, st') → bind m k st = k a st'.
Proof. intros E. unfold bind. by rewrite E. Qed.

Lemma normalize_object_stripped object :
  normalize_object object = stripped <$> object.
Proof.
  destruct object as [[|ch o]|]; [done| |done].
  unfold normalize_object, stripped. simpl. by destruct (bool_decide _).
Qed.

Lemma etag_compare_run bucket obj version local_file content st remote st1
    local_ st2 :
  get_etag env bucket obj version st = (Ret remote, st1) →
  match local_file with
  | Some f => util env (CalculateEtag f remote bucket obj version)
  | None => util env (CalculateEtagContent content remote bucket obj version)
  end st1 = (Ret local_, st2) →
  etag_compare env bucket obj version local_file content st
  = (Ret (bool_decide (remote = local_)), st2).
Proof.
  intros Hr Hl. unfold etag_compare.
  rewrite (bind_Ret _ _ _ _ _ Hr), (bind_Ret _ _ _ _ _ Hl). done.
Qed.

(** *** The tag lookup and the tag wait *)

Lemma get_current_object_tags_dict_step bucket obj version st :
  let r := get_current_object_tags_dict env bucket obj version st in
  trace r.2
  = trace st ++ [EvS3 (GetObjectTagging bucket obj (sent_version version))]
  ∧ ((∃ t, r.1 = Ret t) ∨ (∃ e, r.1 = Raise e)).
Proof.
  unfold get_current_object_tags_dict, bind, try_except, s3, ret.
  destruct (s3_call _ _ _) as [[t|e] w']; simpl; [eauto|].
  repeat (destruct (code_in _ _ _); simpl; [eauto|]). eauto.
Qed.

Lemma wait_tags_loop_step d rest bucket obj expected version live st :
  wait_tags_loop env (d :: rest) bucket obj expected version live st
  = match get_current_object_tags_dict env bucket obj version st with
    | (Ret t, st1) =>
        if bool_decide (t ≠ expected)
        then wait_tags_loop env rest bucket obj expected version (Some t)
               (log (EvSleep 5) (world st1) st1)
        else (Ret t, st1)
    | (Raise e, st1) =>
        if is_boto_error e
        then (Fail (fj_aws e "Failed to get object tags."), st1)
        else (Raise e, st1)
    | (Exit o, st1) => (Exit o, st1)
    | (Fail f, st1) => (Fail f, st1)
    | (RaiseSigv4Required, st1) => (RaiseSigv4Required, st1)
    end.
Proof.
  simpl. unfold bind, try_except, sleep.
  destruct (get_current_object_tags_dict env bucket obj version st)
    as [[t|o|f|e|] st1]; simpl; try done.
  - by destruct (bool_decide (t ≠ expected)).
  - by destruct (is_boto_error e).
Qed.

(** The loop over [dummies]: either it stops at a poll, after fewer
    rounds than there are values, or it runs through all of them and
    fails. *)
Lemma wait_tags_loop_spec dummies bucket obj expected version live st :
  let poll := EvS3 (GetObjectTagging bucket obj (sent_version version)) in
  let r := wait_tags_loop env dummies bucket obj expected version live st in
  (∃ n, (n < length dummies)%nat
        ∧ trace r.2
          = trace st ++ mjoin (replicate n [poll; EvSleep 5]) ++ [poll]
        ∧ ((r.1 = Ret expected
            ∧ ∃ st0, get_current_object_tags_dict env bucket obj version st0
                     = (Ret expected, r.2))
           ∨ (∃ e, is_boto_error e = true
                   ∧ r.1 = Fail (fj_aws e "Failed to get object tags."))
           ∨ (∃ e, is_boto_error e = false ∧ r.1 = Raise e)))
  ∨ (trace r.2
     = trace st ++ mjoin (replicate (length dummies) [poll; EvSleep 5])
     ∧ ∃ live', r.1 = Fail (tags_timeout expected live')
                ∧ match dummies with
                  | [] => live' = live
                  | _ => ∃ t, live' = Some t ∧ t ≠ expected
                  end).
Proof.
  intros poll. revert live st.
  induction dummies as [|d rest IH]; intros live st r.
  - right. subst r. simpl. rewrite app_nil_r. eauto.
  - subst r. rewrite wait_tags_loop_step.
    pose proof (get_current_object_tags_dict_step bucket obj version st)
      as [Htr Hres].
    destruct (get_current_object_tags_dict env bucket obj version st)
      as [res st1] eqn:Eg.
    simpl in Htr, Hres. destruct Hres as [[t ->]|[e ->]].
    + destruct (bool_decide (t ≠ expected)) eqn:Ene.
      * apply bool_decide_eq_true in Ene.
        set (st2 := log (EvSleep 5) (world st1) st1).
        specialize (IH (Some t) st2).
        assert (Ht2 : trace st2 = trace st ++ [poll; EvSleep 5]).
        { subst st2. simpl. rewrite Htr. by rewrite <- app_assoc. }
        cbv zeta in IH.
        destruct IH as [(n & Hn & Htrace & Hout)
                       |(Htrace & live' & Hout & Hlive)].
        -- left. exists (S n). split; [simpl; lia|]. split; [|exact Hout].
           rewrite Htrace, Ht2. simpl. by rewrite <- !app_assoc.
        -- right. split.
           ++ rewrite Htrace, Ht2. simpl. by rewrite <- !app_assoc.
           ++ exists live'. split; [done|]. destruct rest; [subst; eauto|done].
      * apply bool_decide_eq_false in Ene. apply dec_stable in Ene. subst t.
        left. exists 0%nat. simpl. split; [lia|]. split; [done|].
        left. split; [done|]. by exists st.
    + left. exists 0%nat. simpl. split; [lia|].
      destruct (is_boto_error e) eqn:Eb; simpl.
      * split; [done|]. right. left. eauto.
      * split; [done|]. right. right. eauto.
Qed.

(** * The claims *)

(** C8. With [overwrite=different] and no MD5 support the invocation
    fails before it opens a connection or sends anything: the run ends
    in [fail_json] in the very state it started in, with an empty
    trace.  The failure is the one about MD5, unless [bucket] is
    rejected by the name validation that comes first. *)
Theorem different_without_md5_fails_first (w : W) :
  p_overwrite p = "different" → HAS_MD5 env = false →
  ∃ f, run_main env p w = (Fail f, initial p w)
       ∧ trace (run_main env p w).2 = []
       ∧ (validate_bucket_name env (p_bucket p) = Accept tt →
          f = fj "overwrite=different is unavailable: ETag calculation requires MD5 support").
Proof.
  intros Hov Hmd5. unfold run_main, main.
  destruct (validate_bucket_name env (p_bucket p)) as [[]|msg] eqn:Ev.
  - eexists. rewrite Hov, Hmd5. cbn. by repeat split.
  - eexists. cbn. by repeat split.
Qed.

(** C10, as amended.  An [overwrite] value that is none of the four
    policies goes through the boolean conversion of the host before
    anything else looks at it: when the conversion gives true the run is
    the run with [always], when it gives false the run is the run with
    [never], and when the conversion rejects the value the invocation
    fails on the spot, with the message of the conversion. *)
Theorem overwrite_outside_policies_goes_through_boolean (w : W) :
  p_overwrite p ∉ ["always"; "never"; "different"; "latest"] →
  match module_boolean env (p_overwrite p) with
  | Accept b =>
      run_main env p w
      = run_main env (with_overwrite (if b then "always" else "never") p) w
  | Reject msg =>
      ∃ f, run_main env p w = (Fail f, initial p w)
           ∧ (validate_bucket_name env (p_bucket p) = Accept tt → f = fj msg)
  end.
Proof.
  intros Hov.
  assert (Hn : in_list (p_overwrite p)
                 ["always"; "never"; "different"; "latest"] = false).
  { unfold in_list. by apply bool_decide_eq_false. }
  destruct (module_boolean env (p_overwrite p)) as [b|msg] eqn:Eb.
  - unfold run_main, main, normalize_overwrite. rewrite Hn. simpl. rewrite Eb.
    clear Hov Hn Eb. destruct p; simpl in *. by destruct b.
  - unfold run_main, main, normalize_overwrite.
    destruct (validate_bucket_name env (p_bucket p)) as [[]|msg'] eqn:Ev.
    + eexists. rewrite Hn. cbn. rewrite Eb. cbn. by split.
    + eexists. cbn. by split.
Qed.



(** What [ensure_tags] does once the lookup has answered. *)
Lemma ensure_tags_after_lookup bucket obj st current st1 :
  get_current_object_tags_dict env bucket obj None st = (Ret current, st1) →
  ensure_tags env p bucket obj st
  = match p_tags p with
    | None => (Ret (current, false), st1)
    | Some tags =>
        let target := if p_purge_tags p then tags else tags ∪ current in
        if bool_decide (current ≠ target) then
          bind
            (bind
               (if bool_decide (target ≠ ∅) then
                  try_except (put_object_tagging env bucket obj target)
                    (λ e, if is_boto_error e
                          then Some (fail_json_aws e
                                       "Failed to update object tags.")
                          else None)
                else
                  when (p_purge_tags p)
                    (try_except (delete_object_tagging env bucket obj)
                       (λ e, if is_boto_error e
                             then Some (fail_json_aws e
                                          "Failed to delete object tags.")
                             else None)))
               (λ _, wait_tags_are_applied env bucket obj target None))
            (λ live, ret (live, true)) st1
        else (Ret (current, false), st1)
    end.
Proof.
  intros Hl. unfold ensure_tags.
  unfold bind at 1. unfold try_except at 1. unfold bind at 1.
  rewrite Hl. cbn [ret].
  destruct (p_tags p) as [tags|]; [|done].
  destruct (p_purge_tags p); cbn [negb];
    (destruct (bool_decide (current ≠ _)); [|done]);
    unfold bind; by repeat case_match.
Qed.

Lemma wait_tags_are_applied_Ret bucket obj expected version st live st' :
  wait_tags_are_applied env bucket obj expected version st = (Ret live, st') →
  live = expected.
Proof.
  unfold wait_tags_are_applied. intros E.
  destruct (wait_tags_loop_spec (py_range 0 12) bucket obj expected version
              None st)
    as [(n & _ & _ & [[H _]|[(e & _ & H)|(e & _ & H)]])|(_ & l & H & _)];
    rewrite E in H; simpl in H; congruence.
Qed.

(** The tags that [ensure_tags] returns are a fixed point of the
    request. *)
Lemma ensure_tags_Ret bucket obj st live changed st' tags :
  ensure_tags env p bucket obj st = (Ret (live, changed), st') →
  p_tags p = Some tags →
  (if p_purge_tags p then tags else tags ∪ live) = live.
Proof.
  intros E Ht.
  destruct (get_current_object_tags_dict env bucket obj None st)
    as [[current|o|f|e|] st1] eqn:El.
  - rewrite (ensure_tags_after_lookup _ _ _ _ _ El), Ht in E. cbv zeta in E.
    remember (if p_purge_tags p then tags else tags ∪ current) as target
      eqn:Etarget.
    destruct (bool_decide (current ≠ target)) eqn:Ene.
    + unfold bind at 1 in E.
      destruct (bind _ _ st1) as [[live'|?|?|?|] st2] eqn:Ew; try done.
      injection E as -> _ _.
      unfold bind in Ew.
      match type of Ew with
      | context [let (_, _) := ?x in _] => destruct x as [[[]|?|?|?|] st3]
      end; try done.
      apply wait_tags_are_applied_Ret in Ew. subst live target.
      destruct (p_purge_tags p); [done|].
      by rewrite (assoc_L (∪)), (idemp_L (∪)).
    + apply bool_decide_eq_false in Ene. apply dec_stable in Ene.
      injection E as <- _ _. by rewrite Etarget in Ene.
  - revert E. unfold ensure_tags, bind, try_except. rewrite El. done.
  - revert E. unfold ensure_tags, bind, try_except. rewrite El. done.
  - revert E. unfold ensure_tags, bind, try_except. rewrite El. simpl.
    destruct (code_in _ _ _); [done|]. by destruct (is_boto_error e).
  - revert E. unfold ensure_tags, bind, try_except. rewrite El. done.
Qed.

(** C4. Tag reconciliation is idempotent.  When the target computed from
    the request equals the tags that the lookup shows, [ensure_tags]
    returns those tags with [changed = false], in the state right after
    the lookup: no tag mutation was sent.  Hence a second application of
    the same request, which looks up the tags that the first one
    returned, reports [changed = false]. *)
Theorem ensure_tags_idempotent bucket obj :
  (∀ st current st1,
     get_current_object_tags_dict env bucket obj None st = (Ret current, st1) →
     (∀ tags, p_tags p = Some tags →
        (if p_purge_tags p then tags else tags ∪ current) = current) →
     ensure_tags env p bucket obj st = (Ret (current, false), st1)
     ∧ appends is_tag_mutation 0 st st1)
  ∧ (∀ st live changed st1 st2,
       ensure_tags env p bucket obj st = (Ret (live, changed), st1) →
       get_current_object_tags_dict env bucket obj None st1 = (Ret live, st2) →
       ensure_tags env p bucket obj st1 = (Ret (live, false), st2)).
Proof.
  assert (Hfix : ∀ st current st1,
    get_current_object_tags_dict env bucket obj None st = (Ret current, st1) →
    (∀ tags, p_tags p = Some tags →
       (if p_purge_tags p then tags else tags ∪ current) = current) →
    ensure_tags env p bucket obj st = (Ret (current, false), st1)).
  { intros st current st1 Hl Heq.
    rewrite (ensure_tags_after_lookup _ _ _ _ _ Hl).
    destruct (p_tags p) as [tags|]; [|done]. cbv zeta.
    rewrite (Heq tags eq_refl). by rewrite bool_decide_eq_false_2 by auto. }
  split.
  - intros st current st1 Hl Heq. split; [by apply Hfix|].
    pose proof (get_current_object_tags_dict_step bucket obj None st)
      as [Htr _].
    rewrite Hl in Htr. eexists. split; [exact Htr | simpl; lia].
  - intros st live changed st1 st2 Hfirst Hl. apply Hfix; [done|].
    intros tags Ht. by eapply ensure_tags_Ret.
Qed.

Lemma count_rounds c n ev1 ev2 :
  c ev1 = false → c ev2 = false →
  count c (mjoin (replicate n [ev1; ev2])) = 0%nat.
Proof.
  intros H1 H2. induction n as [|n IH]; simpl; [done|]. by rewrite H1, H2.
Qed.

Lemma wait_tags_are_applied_sends c bucket obj expected version :
  c (EvS3 (GetObjectTagging bucket obj (sent_version version))) = false →
  c (EvSleep 5) = false →
  bounded c 0 (wait_tags_are_applied env bucket obj expected version).
Proof.
  intros Hpoll Hsleep st. unfold wait_tags_are_applied.
  destruct (wait_tags_loop_spec (py_range 0 12) bucket obj expected version
              None st)
    as [(n & _ & Htr & _)|(Htr & _)]; eexists; (split; [exact Htr|]).
  - rewrite count_app, count_rounds by done. simpl. by rewrite Hpoll.
  - by rewrite count_rounds.
Qed.

(** Without purge, the target of the reconciliation and the only tag
    mutation that can be sent for it. *)
Lemma ensure_tags_merge_target bucket obj desired st current st1 :
  p_purge_tags p = false → p_tags p = Some desired →
  get_current_object_tags_dict env bucket obj None st = (Ret current, st1) →
  let target := desired ∪ current in
  let r := ensure_tags env p bucket obj st in
  (∀ key, is_Some (current !! key) → is_Some (target !! key))
  ∧ (∀ key value, desired !! key = Some value → target !! key = Some value)
  ∧ (∀ key, desired !! key = None → target !! key = current !! key)
  ∧ appends
      (other_tag_mutation bucket obj
         (ansible_dict_to_boto3_tag_list env target)) 0 st r.2
  ∧ (∀ live changed, r.1 = Ret (live, changed) → live = target).
Proof.
  intros Hpurge Htags Hl target r.
  split; [|split; [|split]].
  - intros key [value Hv]. subst target.
    destruct (desired !! key) as [value'|] eqn:Ed.
    + exists value'. by apply lookup_union_Some_l.
    + exists value. by rewrite lookup_union_r.
  - intros key value Hd. by apply lookup_union_Some_l.
  - intros key Hd. by apply lookup_union_r.
  - subst r. rewrite (ensure_tags_after_lookup _ _ _ _ _ Hl), Htags, Hpurge.
    cbv zeta. fold target.
    set (c := other_tag_mutation bucket obj
                (ansible_dict_to_boto3_tag_list env target)).
    assert (Hlookup : appends c 0 st st1).
    { pose proof (get_current_object_tags_dict_step bucket obj None st)
        as [Htr _].
      rewrite Hl in Htr. eexists. split; [exact Htr | simpl; lia]. }
    split.
    + destruct (bool_decide (current ≠ target)); [|exact Hlookup].
      apply (appends_trans c 0 0 st st1); [exact Hlookup|].
      apply bounded_bind0; [|intros; apply bounded_ret].
      apply bounded_bind0.
      * destruct (bool_decide (target ≠ ∅)); [|apply bounded_ret].
        apply bounded_try_except0.
        -- apply bounded_s3. subst c. simpl.
           by rewrite bool_decide_eq_true_2.
        -- intros e. destruct (is_boto_error e); [apply bounded_fail_json_aws|done].
      * intros _. by apply wait_tags_are_applied_sends.
    + intros live changed.
      destruct (bool_decide (current ≠ target)) eqn:Ene.
      * unfold bind at 1.
        destruct (bind _ _ st1) as [[live'|?|?|?|] st2] eqn:Ew; try done.
        intros [= -> _]. unfold bind in Ew.
        match type of Ew with
        | context [let (_, _) := ?x in _] => destruct x as [[[]|?|?|?|] st3]
        end; try done.
        by apply wait_tags_are_applied_Ret in Ew.
      * apply bool_decide_eq_false in Ene. apply dec_stable in Ene.
        by intros [= <- _].
Qed.

(** *** Which functions can end the invocation with success *)

Lemma never_exits_bind {A B} (m : M A) (k : A → M B) :
  never_exits m → (∀ a, never_exits (k a)) → never_exits (bind m k).
Proof.
  intros Hm Hk st o st'. unfold bind.
  destruct (m st) as [[a|o'|f|e|] st1] eqn:E; try done.
  - apply Hk.
  - by apply Hm in E.
Qed.

Lemma never_exits_try_except {A} (m : M A) handler :
  never_exits m →
  (∀ e, match handler e with Some h => never_exits h | None => True end) →
  never_exits (try_except m handler).
Proof.
  intros Hm Hh st o st'. unfold try_except.
  destruct (m st) as [[a|o'|f|e|] st1] eqn:E; try done.
  - by apply Hm in E.
  - specialize (Hh e). destruct (handler e); [apply Hh | done].
Qed.

Lemma never_exits_s3 {A} (r : S3Req A) : never_exits (s3 env r).
Proof.
  intros st o st'. unfold s3. by destruct (s3_call _ _ _) as [[a|e] w'].
Qed.

Lemma get_current_object_tags_dict_never_exits bucket obj version :
  never_exits (get_current_object_tags_dict env bucket obj version).
Proof.
  intros st o st' E.
  destruct (get_current_object_tags_dict_step bucket obj version st)
    as [_ [[t H]|[e H]]]; rewrite E in H; done.
Qed.

Lemma wait_tags_are_applied_never_exits bucket obj expected version :
  never_exits (wait_tags_are_applied env bucket obj expected version).
Proof.
  unfold wait_tags_are_applied. intros st o st' E.
  destruct (wait_tags_loop_spec (py_range 0 12) bucket obj expected version
              None st)
    as [(n & _ & _ & [[H _]|[(e & _ & H)|(e & _ & H)]])|(_ & l & H & _)];
    rewrite E in H; done.
Qed.

Lemma ensure_tags_never_exits bucket obj :
  never_exits (ensure_tags env p bucket obj).
Proof.
  unfold ensure_tags, put_object_tagging, delete_object_tagging.
  apply never_exits_bind.
  - apply never_exits_try_except.
    + apply never_exits_bind; [|done].
      apply get_current_object_tags_dict_never_exits.
    + intros e. destruct (code_in _ _ _); [|by destruct (is_boto_error e)].
      by apply never_exits_bind.
  - intros [current|]; [|done].
    destruct (p_tags p) as [tags|]; [|done].
    destruct (bool_decide _); [|done].
    apply never_exits_bind.
    + destruct (bool_decide _).
      * apply never_exits_try_except; [apply never_exits_s3|].
        intros e. by destruct (is_boto_error e).
      * destruct (p_purge_tags p); [|done].
        apply never_exits_try_except; [apply never_exits_s3|].
        intros e. by destruct (is_boto_error e).
    + intros _. apply never_exits_bind; [|done].
      apply wait_tags_are_applied_never_exits.
Qed.

(** [get_download_url] does not return: it ends the invocation. *)
Lemma get_download_url_ends bucket obj expiry tags changed st a st' :
  get_download_url env bucket obj expiry tags changed st ≠ (Ret a, st').
Proof.
  unfold get_download_url, try_except, bind, s3, exit_json.
  destruct (s3_call _ _ _) as [[url|e] w']; simpl; [done|].
  by destruct (is_boto_error e).
Qed.

Lemma skip_upload_stage_ends bucket obj st a st' :
  skip_upload_stage env p bucket obj st ≠ (Ret a, st').
Proof.
  unfold skip_upload_stage, bind.
  destruct (ensure_tags env p bucket obj st) as [[tc|o|f|e|] st1]; try done.
  apply get_download_url_ends.
Qed.

(** When the upload is skipped, a successful end of the invocation
    reports the download URL, and as [changed] what [ensure_tags] says
    about the tags. *)
Lemma skip_upload_stage_Exit bucket obj st o st' :
  skip_upload_stage env p bucket obj st = (Exit o, st') →
  ∃ tags changed st1,
    ensure_tags env p bucket obj st = (Ret (tags, changed), st1)
    ∧ ej_msg o = Some "Download url:" ∧ ej_changed o = Some changed
    ∧ ej_tags o = Some tags.
Proof.
  unfold skip_upload_stage. unfold bind at 1.
  destruct (ensure_tags env p bucket obj st) as [[[tags changed]|o'|f|e|] st1]
    eqn:E; try done.
  - intros H. exists tags, changed, st1. split; [done|]. revert H.
    unfold get_download_url, try_except, bind, s3, exit_json.
    destruct (s3_call _ _ _) as [[url|e] w']; simpl.
    + by intros [= <- _].
    + by destruct (is_boto_error e).
  - by apply ensure_tags_never_exits in E.
Qed.

Lemma skip_upload_stage_quiet bucket obj :
  bounded is_upload 0 (skip_upload_stage env p bucket obj).
Proof.
  assert (Hc : ∀ ev, on_key obj ev = true → is_upload ev = false).
  { intros ev. unfold on_key. destruct (is_upload ev); [|done].
    by rewrite andb_false_r. }
  unfold skip_upload_stage. apply bounded_bind0.
  - by apply ensure_tags_quiet.
  - intros tc. by apply get_download_url_quiet.
Qed.

Lemma not_download_on_key k ev : on_key k ev = true → is_download ev = false.
Proof.
  unfold on_key. destruct (is_download ev); [|done].
  by rewrite andb_false_r.
Qed.

Lemma not_upload_on_key k ev : on_key k ev = true → is_upload ev = false.
Proof.
  unfold on_key. destruct (is_upload ev); [|done].
  by rewrite andb_false_r.
Qed.

Lemma appends_step {A} c (m : M A) st r st' :
  bounded c 0 m → m st = (r, st') → appends c 0 st st'.
Proof. intros Hb E. specialize (Hb st). by rewrite E in Hb. Qed.

(** With [overwrite=different], where each branch goes after the
    comparison of the fingerprints. *)
Lemma different_decision bucket obj validate location s3_url :
  (∀ st st1 dest remote local_ st2 st3,
     key_check env bucket obj (p_version p) validate st = (Ret true, st1) →
     p_dest p = Some dest → nonempty dest = true →
     os_path_exists env dest (world st1) = true →
     get_etag env bucket obj (p_version p) st1 = (Ret remote, st2) →
     util env (CalculateEtag dest remote bucket obj (p_version p)) st2
     = (Ret local_, st3) →
     let run :=
       mode_get env p bucket obj "different" validate location s3_url st in
     (remote = local_ →
      run = (Exit (ej "Local and remote object are identical, ignoring. Use overwrite=always parameter to force."
                     (Some false)), st3)
      ∧ appends is_download 0 st st3)
     ∧ (remote ≠ local_ →
        run = download_stage env p bucket obj location s3_url st3))
  ∧ (∀ bucket_acl object_acl st st1 bincontent remote local_ st2 st3,
       ¬ (p_content p = None ∧ p_content_base64 p = None ∧ p_src p = None) →
       (∀ f, p_src p = Some f → os_path_exists env f (world st) = true) →
       key_check env bucket obj (p_version p) validate st = (Ret true, st1) →
       (∀ c, p_content_base64 p = Some c →
          ∃ b, standard_b64decode env c = Ok b ∧ bincontent = Some b) →
       (p_content_base64 p = None → bincontent = p_content p) →
       get_etag env bucket obj (p_version p) st1 = (Ret remote, st2) →
       match p_src p with
       | Some f => util env (CalculateEtag f remote bucket obj (p_version p))
       | None =>
           util env (CalculateEtagContent bincontent remote bucket obj
                       (p_version p))
       end st2 = (Ret local_, st3) →
       let run :=
         mode_put env p bucket obj "different" validate location true
           bucket_acl object_acl st in
       (remote = local_ →
        run = skip_upload_stage env p bucket obj st3
        ∧ appends is_upload 0 st run.2
        ∧ (∀ o, run.1 = Exit o →
             ∃ tags changed st4,
               ensure_tags env p bucket obj st3 = (Ret (tags, changed), st4)
               ∧ ej_msg o = Some "Download url:"
               ∧ ej_changed o = Some changed))
       ∧ (remote ≠ local_ →
          run = upload_stage env p bucket obj object_acl bincontent st3)).
Proof.
  split.
  - intros st st1 dest remote local_ st2 st3 Hk Hd Hne Hex Hr Hl run.
    pose proof (etag_compare_run bucket obj (p_version p) (Some dest) None
                  _ _ _ _ _ Hr Hl) as Hc.
    assert (Ht : truthy (Some dest) = true) by (by destruct dest).
    assert (Hrun : run
      = if bool_decide (remote = local_)
        then (Exit (ej "Local and remote object are identical, ignoring. Use overwrite=always parameter to force."
                      (Some false)), st3)
        else download_stage env p bucket obj location s3_url st3).
    { subst run. unfold mode_get, download_stage. rewrite Hd. run.
      rewrite Hk. run. rewrite Ht. run. rewrite Hex. run. rewrite Hc.
      by destruct (bool_decide (remote = local_)). }
    rewrite Hrun. split; intros Hrl.
    + rewrite bool_decide_eq_true_2 by done. split; [done|].
      apply (appends_trans is_download 0 0 st st1);
        [|apply (appends_trans is_download 0 0 st1 st2)].
      * eapply appends_step; [|exact Hk].
        apply key_check_quiet, not_download_on_key.
      * eapply appends_step; [|exact Hr].
        apply get_etag_quiet, not_download_on_key.
      * eapply appends_step; [|exact Hl]. by apply bounded_util.
    + by rewrite bool_decide_eq_false_2.
  - intros bucket_acl object_acl st st1 bincontent remote local_ st2 st3
      Hsome Hsrc Hk Hb64 Hcontent Hr Hl run.
    pose proof (etag_compare_run bucket obj (p_version p) (p_src p) bincontent
                  _ _ _ _ _ Hr Hl) as Hc.
    assert (Hrun : run
      = if bool_decide (remote = local_)
        then skip_upload_stage env p bucket obj st3
        else upload_stage env p bucket obj object_acl bincontent st3).
    { subst run. unfold mode_put, upload_stage.
      assert (Hchk : bool_decide (p_content p = None)
                     && bool_decide (p_content_base64 p = None)
                     && bool_decide (p_src p = None) = false).
      { apply not_true_is_false. intros H. apply Hsome.
        apply andb_prop in H as [H H3]. apply andb_prop in H as [H1 H2].
        by repeat split; eapply bool_decide_eq_true_1. }
      run. rewrite Hchk.
      destruct (p_src p) as [f|] eqn:Es;
        [run; rewrite (Hsrc f eq_refl)|]; run; rewrite Hk; run;
        (destruct (p_content_base64 p) as [c|] eqn:Ec;
         [destruct (Hb64 c eq_refl) as (b & Hb & ->); rewrite Hb
         |pose proof (Hcontent eq_refl) as ->]);
        run; rewrite Hc;
        (destruct (bool_decide (remote = local_)); [|done]);
        unfold skip_upload_stage, bind;
        (destruct (ensure_tags env p bucket obj st3) as [[tc|?|?|?|] st4];
         try done);
        (destruct (get_download_url env bucket obj (p_expiry p) (Some tc.1)
                     tc.2 st4) as [[[]|?|?|?|] st5] eqn:Eg; try done);
        by apply get_download_url_ends in Eg. }
    rewrite Hrun. split; intros Hrl.
    + rewrite bool_decide_eq_true_2 by done. split; [done|]. split.
      * apply (appends_trans is_upload 0 0 st st1);
          [|apply (appends_trans is_upload 0 0 st1 st2);
            [|apply (appends_trans is_upload 0 0 st2 st3)]].
        -- eapply appends_step; [|exact Hk].
           apply key_check_quiet, not_upload_on_key.
        -- eapply appends_step; [|exact Hr].
           apply get_etag_quiet, not_upload_on_key.
        -- eapply appends_step; [|exact Hl].
           destruct (p_src p); by apply bounded_util.
        -- apply skip_upload_stage_quiet.
      * intros o Ho.
        destruct (skip_upload_stage env p bucket obj st3) as [r st4] eqn:Es.
        simpl in Ho. subst r.
        destruct (skip_upload_stage_Exit _ _ _ _ _ Es)
          as (tags & changed & st5 & He & Hm & Hch & _).
        by exists tags, changed, st5.
    + by rewrite bool_decide_eq_false_2.
Qed.

(** With [overwrite=latest] in a GET, where the run goes after the
    comparison of the time stamps. *)
Lemma latest_decision bucket obj validate location s3_url
    st st1 dest h w2 mtime :
  key_check env bucket obj (p_version p) validate st = (Ret true, st1) →
  p_dest p = Some dest → nonempty dest = true →
  os_path_exists env dest (world st1) = true →
  s3_call env (HeadObject bucket obj (sent_version (p_version p))) (world st1)
  = (Ok (Some h), w2) →
  os_path_exists env dest w2 = true →
  os_path_getmtime env dest w2 = Ok mtime →
  let st2 :=
    log (EvS3 (HeadObject bucket obj (sent_version (p_version p)))) w2 st1 in
  let run := mode_get env p bucket obj "latest" validate location s3_url st in
  ((LastModified h ≤ mtime)%Z →
   run = (Exit (ej "Local object is latest, ignoreing. Use overwrite=always parameter to force."
                  (Some false)), st2)
   ∧ appends is_download 0 st st2)
  ∧ ((mtime < LastModified h)%Z →
     run = download_stage env p bucket obj location s3_url st2).
Proof.
  intros Hk Hd Hne Hex Hhead Hex2 Hmtime st2 run.
  assert (Ht : truthy (Some dest) = true) by (by destruct dest).
  assert (Hlatest :
    is_local_object_latest env bucket obj (p_version p) (Some dest) st1
    = (Ret (bool_decide (LastModified h ≤ mtime)%Z), st2)).
  { unfold is_local_object_latest, get_s3_last_modified_timestamp, getmtime,
      s3. run. rewrite Hhead. run. cbn [world log]. rewrite Hex2. run.
    cbn [world log]. by rewrite Hmtime. }
  assert (Hrun : run
    = if bool_decide (LastModified h ≤ mtime)%Z
      then (Exit (ej "Local object is latest, ignoreing. Use overwrite=always parameter to force."
                    (Some false)), st2)
      else download_stage env p bucket obj location s3_url st2).
  { subst run. unfold mode_get, download_stage. rewrite Hd. run.
    rewrite Hk. run. rewrite Ht. run. rewrite Hex. run. rewrite Hlatest.
    by destruct (bool_decide (LastModified h ≤ mtime)%Z). }
  rewrite Hrun. split; intros Hcmp.
  - rewrite bool_decide_eq_true_2 by done. split; [done|].
    apply (appends_trans is_download 0 0 st st1).
    + eapply appends_step; [|exact Hk].
      apply key_check_quiet, not_download_on_key.
    + apply (appends_log is_download
               (EvS3 (HeadObject bucket obj (sent_version (p_version p))))).
  - rewrite bool_decide_eq_false_2 by lia. done.
Qed.

(** *** The retry loop of the download *)

Lemma download_attempt_step bucket obj dest retries version x st :
  let download :=
    EvS3 (DownloadFile bucket obj dest (sent_version version)) in
  download_attempt env bucket obj dest retries version x st
  = match s3_call env (DownloadFile bucket obj dest (sent_version version))
            (world st) with
    | (Ok _, w') =>
        (Exit (ej "GET operation complete" (Some true)), log download w' st)
    | (Err e, w') =>
        if is_boto_error e then
          if x >=? retries
          then (Fail (fj_aws e ("Failed while downloading " +:+ pystr obj
                                  +:+ ".")), log download w' st)
          else (Ret tt, log download w' st)
        else if is_SSLError e then
          if x >=? retries
          then (Fail (fj_aws e "s3 download failed"), log download w' st)
          else (Ret tt, log download w' st)
        else (Raise e, log download w' st)
    end.
Proof.
  unfold download_attempt, try_except, bind, s3, exit_json, when.
  destruct (s3_call _ _ _) as [[[]|e] w']; simpl; [done|].
  destruct (is_boto_error e); [by destruct (x >=? retries)|].
  destruct (is_SSLError e); [by destruct (x >=? retries)|done].
Qed.

(** The loop over the attempts [xs]: it sends one download per attempt
    made, and when it ends in a failure, the attempt that failed is one
    whose number is at least [retries]. *)
Lemma download_loop_spec bucket obj dest retries version xs st :
  let download :=
    EvS3 (DownloadFile bucket obj dest (sent_version version)) in
  let r :=
    for_each xs (download_attempt env bucket obj dest retries version) st in
  ∃ n, (n ≤ length xs)%nat
       ∧ trace r.2 = trace st ++ replicate n download
       ∧ (∀ f, r.1 = Fail f →
            ∃ x, xs !! pred n = Some x ∧ (1 ≤ n)%nat ∧ (retries ≤ x)%Z).
Proof.
  intros download. revert st.
  induction xs as [|x xs IH]; intros st r.
  - exists 0%nat. subst r. simpl. rewrite app_nil_r. by repeat split.
  - assert (Hone : ∀ res w',
      ∃ n, (n ≤ length (x :: xs))%nat
           ∧ trace ((res, log download w' st) : Result unit * State).2
             = trace st ++ replicate n download
           ∧ ((retries ≤ x)%Z ∨ (∀ f, res ≠ Fail f) →
              ∀ f, res = Fail f →
                ∃ x0, (x :: xs) !! pred n = Some x0 ∧ (1 ≤ n)%nat
                      ∧ (retries ≤ x0)%Z)).
    { intros res w'. exists 1%nat. simpl. split; [lia|]. split; [done|].
      intros [Hle|Hnf] f Hf; [|by apply Hnf in Hf].
      exists x. by repeat split. }
    subst r. simpl. unfold bind. rewrite download_attempt_step. fold download.
    destruct (s3_call _ _ _) as [[[]|e] w'].
    + destruct (Hone (Exit (ej "GET operation complete" (Some true))) w')
        as (n & Hn & Htr & Hf).
      exists n. split; [done|]. split; [done|]. apply Hf. by right.
    + assert (Hnext :
        let r := for_each xs (download_attempt env bucket obj dest retries
                                version) (log download w' st) in
        ∃ n, (n ≤ length (x :: xs))%nat
             ∧ trace r.2 = trace st ++ replicate n download
             ∧ ∀ f, r.1 = Fail f →
                 ∃ x0, (x :: xs) !! pred n = Some x0 ∧ (1 ≤ n)%nat
                       ∧ (retries ≤ x0)%Z).
      { destruct (IH (log download w' st)) as (n & Hn & Htr & Hf).
        exists (S n). split; [simpl; lia|]. split.
        - rewrite Htr. simpl. by rewrite <- app_assoc.
        - intros f Hfail. destruct (Hf f Hfail) as (x0 & Hx & Hn1 & Hle).
          exists x0. split; [|split; [lia|done]].
          destruct n; [lia|]. exact Hx. }
      destruct (is_boto_error e); [|destruct (is_SSLError e)].
      * destruct (x >=? retries) eqn:Ex; [|exact Hnext].
        destruct (Hone (Fail (fj_aws e ("Failed while downloading "
                                          +:+ pystr obj +:+ "."))) w')
          as (n & Hn & Htr & Hf).
        exists n. split; [done|]. split; [done|]. apply Hf. left. lia.
      * destruct (x >=? retries) eqn:Ex; [|exact Hnext].
        destruct (Hone (Fail (fj_aws e "s3 download failed")) w')
          as (n & Hn & Htr & Hf).
        exists n. split; [done|]. split; [done|]. apply Hf. left. lia.
      * destruct (Hone (Raise e) w') as (n & Hn & Htr & Hf).
        exists n. split; [done|]. split; [done|]. apply Hf. by right.
Qed.


Lemma download_s3file_step bucket obj dest retries version st :
  let get := EvS3 (GetObject bucket obj (sent_version version)) in
  let not_found e : FailJson :=
    fj_aws e ("Could not find the key " +:+ pystr obj +:+ ".") in
  download_s3file env p bucket obj dest retries version st
  = if p_check_mode p then
      (Exit (ej "GET operation skipped - running in check mode" (Some true)),
       st)
    else
      match s3_call env (GetObject bucket obj (sent_version version))
              (world st) with
      | (Ok _, w') =>
          for_each (py_range 0 (retries + 1))
            (download_attempt env bucket obj dest retries version)
            (log get w' st)
      | (Err e, w') =>
          if code_in env ["404"; "403"] e then
            (Fail (not_found e), log get w' st)
          else if is_boto3_error_message env
                    "require AWS Signature Version 4" e then
            (RaiseSigv4Required, log get w' st)
          else if code_in env ["InvalidArgument"] e then
            (Fail (not_found e), log get w' st)
          else if is_boto_error e then (Fail (not_found e), log get w' st)
          else (Raise e, log get w' st)
      end.
Proof.
  unfold download_s3file, bind, when, try_except, s3, ret, exit_json.
  destruct (p_check_mode p); [done|].
  destruct (s3_call _ _ _) as [[body|e] w']; simpl; [done|].
  destruct (code_in env ["404"; "403"] e); [done|].
  destruct (is_boto3_error_message env _ e); [done|].
  destruct (code_in env ["InvalidArgument"] e); [done|].
  by destruct (is_boto_error e).
Qed.




End Runs.

(** * The claims on examples

    Each theorem above that has a premise is applied here to a run of
    the scripted environment, and each claim of the specification that
    the module does not meet is shown to fail on such a run. *)

(** C8 on an example: a GET with [overwrite=different] where MD5 is
    missing. *)
Lemma different_without_md5_witness :
  let env := Scenario.env false in
  let p := Scenario.get_request "different" 0 in
  let w := Scenario.store [] in
  ∃ f, run_main env p w = (Fail f, initial p w)
       ∧ trace (run_main env p w).2 = []
       ∧ (validate_bucket_name env (p_bucket p) = Accept tt →
          f = fj "overwrite=different is unavailable: ETag calculation requires MD5 support").
Proof.
  intros env p w.
  apply (different_without_md5_fails_first env p w); reflexivity.
Defined.

(** C10 as amended, on an example: [overwrite=yes] runs as
    [overwrite=always]. *)
Lemma not_a_policy_witness :
  let env := Scenario.env true in
  let p := Scenario.get_request "yes" 0 in
  let w := Scenario.store [] in
  (p_overwrite p ∉ ["always"; "never"; "different"; "latest"])
  ∧ run_main env p w = run_main env (with_overwrite "always" p) w.
Proof.
  intros env p w.
  assert (H : "yes" ∉ ["always"; "never"; "different"; "latest"]).
  { apply (bool_decide_eq_false_1 _). reflexivity. }
  split; [exact H|].
  exact (overwrite_outside_policies_goes_through_boolean env p w H).
Defined.

(** C10 fails as stated: [overwrite=sometimes] is none of the four
    policies and is an error.  The boolean conversion of the host
    rejects the value, and the invocation fails before anything is
    sent. *)
Lemma overwrite_sometimes_is_an_error :
  let env := Scenario.env true in
  let p := Scenario.get_request "sometimes" 0 in
  let w := Scenario.store [] in
  (p_overwrite p ∉ ["always"; "never"; "different"; "latest"])
  ∧ ∃ f, run_main env p w = (Fail f, initial p w).
Proof.
  split; [apply (bool_decide_eq_false_1 _); reflexivity|].
  eexists. reflexivity.
Qed.


(** C4 on an example: the first application puts the tag [a=b] on an
    object without tags, the second one finds it there. *)
Lemma ensure_tags_idempotent_witness :
  let env := Scenario.env true in
  let p := Scenario.tag_request Scenario.tags_ab true in
  let st := initial p (Scenario.store
              [Scenario.ATags (Some []); Scenario.AOk;
               Scenario.ATags (Some [("a", "b")]);
               Scenario.ATags (Some [("a", "b")])]) in
  let first := ensure_tags env p "mybucket" (Some "k") st in
  let second := ensure_tags env p "mybucket" (Some "k") first.2 in
  first.1 = Ret (Scenario.tags_ab, true)
  ∧ second = (Ret (Scenario.tags_ab, false),
              (get_current_object_tags_dict env "mybucket" (Some "k") None
                 first.2).2)
  ∧ appends is_tag_mutation 0 first.2 second.2.
Proof.
  intros env p st first second.
  assert (Hfirst : ensure_tags env p "mybucket" (Some "k") st
                   = (Ret (Scenario.tags_ab, true), first.2)) by reflexivity.
  assert (Hlookup : get_current_object_tags_dict env "mybucket" (Some "k")
                      None first.2
                    = (Ret Scenario.tags_ab, (get_current_object_tags_dict env "mybucket"
                                  (Some "k") None first.2).2))
    by reflexivity.
  destruct (ensure_tags_idempotent env p "mybucket" (Some "k")) as [H1 H2].
  split; [reflexivity|]. split.
  - exact (H2 _ _ _ _ _ Hfirst Hlookup).
  - assert (Hsecond : second.2
                      = (get_current_object_tags_dict env "mybucket"
                           (Some "k") None first.2).2) by reflexivity.
    rewrite Hsecond.
    refine (proj2 (H1 _ _ _ Hlookup _)). intros tags [= <-]. reflexivity.
Defined.


(** * What the module may call

    The footprint of each function, by method: the lemmas of this part
    say which methods a function may call, and that it leaves the
    [permission] entry as it found it.  The functions that set ACLs send
    one call per entry of [permission], so what they send is stated for
    the entries that satisfy the invariant [inv]. *)

Section Follows.

Context {W : Type}.
Variable env : Env W.
Variable c : Event → bool.

Abbreviation M := (@M W).
Abbreviation State := (@State W).

Implicit Types pre post mid inv : list string → Prop.

Lemma follows_weaken {A} pre pre' post post' (m : M A) :
  (∀ l, pre' l → pre l) → (∀ l, post l → post' l) →
  follows pre c m post → follows pre' c m post'.
Proof. intros Hpre Hpost H st Hst. destruct (H st); auto. Qed.

Lemma follows_bounded {A} (m : M A) :
  follows (λ _, True) c m (λ _, True) → bounded c 0 m.
Proof. intros H st. by destruct (H st). Qed.

Lemma follows_ret {A} inv (a : A) : follows inv c (@ret W A a) inv.
Proof. intros st H. split; [apply appends_refl | done]. Qed.

Lemma follows_exit_json {A} inv o : follows inv c (@exit_json W A o) inv.
Proof. intros st H. split; [apply appends_refl | done]. Qed.

Lemma follows_fail_json {A} inv f : follows inv c (@fail_json W A f) inv.
Proof. intros st H. split; [apply appends_refl | done]. Qed.

Lemma follows_fail_json_aws {A} inv e msg :
  follows inv c (@fail_json_aws W A e msg) inv.
Proof. intros st H. split; [apply appends_refl | done]. Qed.

Lemma follows_raise {A} inv e : follows inv c (@raise W A e) inv.
Proof. intros st H. split; [apply appends_refl | done]. Qed.

Lemma follows_raise_Sigv4Required {A} inv :
  follows inv c (@raise_Sigv4Required W A) inv.
Proof. intros st H. split; [apply appends_refl | done]. Qed.

Lemma follows_warn inv msg : follows inv c (@warn W msg) inv.
Proof. intros st H. split; [apply bounded_warn | done]. Qed.

Lemma follows_get_permission inv : follows inv c (@get_permission W) inv.
Proof. intros st H. split; [apply appends_refl | done]. Qed.

Lemma follows_set_permission pre post acls :
  post acls → follows pre c (@set_permission W acls) post.
Proof. intros Hp st H. split; [apply bounded_set_permission | done]. Qed.

Lemma follows_path_exists inv path : follows inv c (path_exists env path) inv.
Proof.
  intros st H. split; [apply bounded_path_exists|].
  unfold path_exists. by destruct path.
Qed.

Lemma follows_getmtime inv path : follows inv c (getmtime env path) inv.
Proof.
  intros st H. split; [apply bounded_getmtime|].
  unfold getmtime. destruct path; [|done]. by destruct (os_path_getmtime _ _ _).
Qed.

Lemma follows_s3 {A} inv (r : S3Req A) :
  c (EvS3 r) = false → follows inv c (s3 env r) inv.
Proof.
  intros Hc st H. split; [by apply bounded_s3|].
  unfold s3. by destruct (s3_call _ _ _) as [[a|e] w].
Qed.

Lemma follows_util {A} inv (r : UtilReq A) :
  c (EvUtil r) = false → follows inv c (util env r) inv.
Proof.
  intros Hc st H. split; [by apply bounded_util|].
  unfold util. by destruct (util_call _ _ _) as [[a|e|f] w].
Qed.

Lemma follows_sleep inv n : c (EvSleep n) = false → follows inv c (@sleep W n) inv.
Proof. intros Hc st H. split; [by apply bounded_sleep | done]. Qed.

Lemma follows_bind {A B} pre mid post (m : M A) (k : A → M B) :
  follows pre c m mid → (∀ a, follows mid c (k a) post) →
  (∀ l, mid l → post l) →
  follows pre c (bind m k) post.
Proof.
  intros Hm Hk Hpost st Hst. unfold bind.
  destruct (Hm st Hst) as [Ht Hp].
  destruct (m st) as [[a|o|f|e|] st']; simpl in *; auto.
  destruct (Hk a st' Hp) as [Ht' Hp']. split; [|done].
  by apply (appends_trans c 0 0 st st').
Qed.

Lemma keeps_bind {A B} inv (m : M A) (k : A → M B) :
  follows inv c m inv → (∀ a, follows inv c (k a) inv) → follows inv c (bind m k) inv.
Proof. intros Hm Hk. by apply (follows_bind inv inv inv). Qed.

Lemma follows_bind_ret {A B} pre post (a : A) (k : A → M B) :
  follows pre c (k a) post → follows pre c (bind (ret a) k) post.
Proof. intros H. exact H. Qed.

(** What follows a [set_permission] starts from the list that was set. *)
Lemma follows_after_set {B} pre post acls (k : unit → M B) :
  follows (λ l, l = acls) c (k tt) post →
  follows pre c (bind (set_permission acls) k) post.
Proof.
  intros Hk st _. unfold bind, set_permission.
  set (st' := {| world := world st; trace := trace st;
                 warnings := warnings st; permission := acls |}).
  destruct (Hk st' eq_refl) as [(l & E & Hl) Hp]. split; [|done]. by exists l.
Qed.

(** What reads [permission] reads a list that satisfies the invariant. *)
Lemma keeps_bind_get_permission {B} inv (k : list string → M B) :
  (∀ l, inv l → follows inv c (k l) inv) → follows inv c (bind get_permission k) inv.
Proof. intros Hk st Hst. by apply (Hk _ Hst). Qed.

(** Code after an [exit_json] is not run. *)
Lemma keeps_bind_exit_json {A B} inv o (k : A → M B) :
  follows inv c (bind (exit_json o) k) inv.
Proof. intros st H. split; [apply appends_refl | done]. Qed.

Lemma keeps_try_except {A} inv (m : M A) handler :
  follows inv c m inv →
  (∀ e, match handler e with Some h => follows inv c h inv | None => True end) →
  follows inv c (try_except m handler) inv.
Proof.
  intros Hm Hh st Hst. unfold try_except.
  destruct (Hm st Hst) as [Ht Hp].
  destruct (m st) as [[a|o|f|e|] st']; simpl in *; auto.
  specialize (Hh e). destruct (handler e) as [h|]; [|done].
  destruct (Hh st' Hp) as [Ht' Hp']. split; [|done].
  by apply (appends_trans c 0 0 st st').
Qed.

Lemma keeps_except_Sigv4Required {A} inv (m h : M A) :
  follows inv c m inv → follows inv c h inv →
  follows inv c (except_Sigv4Required m h) inv.
Proof.
  intros Hm Hh st Hst. unfold except_Sigv4Required.
  destruct (Hm st Hst) as [Ht Hp].
  destruct (m st) as [[a|o|f|e|] st']; simpl in *; auto.
  destruct (Hh st' Hp) as [Ht' Hp']. split; [|done].
  by apply (appends_trans c 0 0 st st').
Qed.

Lemma keeps_when inv b (m : M unit) :
  (b = true → follows inv c m inv) → follows inv c (when b m) inv.
Proof. intros H. destruct b; simpl; [by apply H | apply follows_ret]. Qed.

Lemma keeps_for_each {X} inv (xs : list X) (body : X → M unit) :
  (∀ x, x ∈ xs → follows inv c (body x) inv) → follows inv c (for_each xs body) inv.
Proof.
  induction xs as [|x xs IH]; intros Hb; simpl; [apply follows_ret|].
  apply keeps_bind; [apply Hb; left|].
  intros _. apply IH. intros y Hy. apply Hb. by right.
Qed.

End Follows.

(** A call is left alone because its method is among the allowed ones. *)
Ltac in_methods :=
  repeat match goal with
  | H : _ ∈ [] |- _ => by apply elem_of_nil in H
  | H : _ ∈ _ :: _ |- _ =>
      apply elem_of_cons in H; destruct H as [->|H]
  end;
  solve [repeat first [apply list_elem_of_here | apply list_elem_of_further]].

Ltac call_leaf :=
  match goal with
  | H : ∀ ev, method ev ∈ _ → _ = false |- _ = false =>
      apply H; unfold prologue_methods, mode_methods, tagging_methods; simpl;
      repeat match goal with
      | |- context [if ?b then _ else _] => destruct b; simpl
      end;
      in_methods
  end.

(** The allowed methods of a callee are among those of its caller. *)
Ltac sub_methods :=
  let ev := fresh "ev" in
  let Hev := fresh "Hev" in
  intros ev Hev;
  match goal with
  | H : ∀ ev, method ev ∈ _ → _ = false |- _ = false =>
      apply H; revert Hev; generalize (method ev); intros ? Hev;
      unfold prologue_methods, mode_methods, tagging_methods in *; simpl in *;
      repeat match goal with
      | _ : context [if ?b then _ else _] |- _ => destruct b; simpl in *
      | |- context [if ?b then _ else _] => destruct b; simpl in *
      end;
      in_methods
  end.

Create HintDb footprint.

Ltac footprint_step :=
  first
    [ solve [auto with footprint]
    | apply follows_ret | apply follows_exit_json | apply follows_fail_json
    | apply follows_fail_json_aws | apply follows_raise
    | apply follows_raise_Sigv4Required | apply follows_warn
    | apply follows_get_permission
    | apply follows_path_exists | apply follows_getmtime
    | apply follows_s3; call_leaf | apply follows_util; call_leaf
    | apply follows_sleep; call_leaf
    | apply keeps_bind_exit_json
    | apply keeps_bind_get_permission
    | apply keeps_bind | apply keeps_try_except
    | apply keeps_for_each
    | apply keeps_except_Sigv4Required
    | apply keeps_when; intros _
    | exact I
    | progress intros
    | match goal with |- context [if ?b then _ else _] => destruct b end
    | match goal with |- context [match ?x with _ => _ end] => destruct x end ].

Ltac footprint := repeat footprint_step.

Section Calls.

Context {W : Type}.
Variable env : Env W.
Variable p : Params.
Variable c : Event → bool.
Variable inv : list string → Prop.

Abbreviation allows ms := (∀ ev, method ev ∈ ms → c ev = false).
Abbreviation keeps m := (follows inv c m inv).

Lemma key_check_calls b k v validate :
  allows [m_head_object] → keeps (key_check env b k v validate).
Proof. intros Hc. unfold key_check. footprint. Qed.

Lemma get_etag_calls b k v :
  allows [m_head_object] → keeps (get_etag env b k v).
Proof. intros Hc. unfold get_etag. footprint. Qed.

Hint Extern 1 (follows _ _ (key_check _ _ _ _ _) _) =>
  apply key_check_calls; sub_methods : footprint.
Hint Extern 1 (follows _ _ (get_etag _ _ _ _) _) =>
  apply get_etag_calls; sub_methods : footprint.

Lemma etag_compare_calls b k v local_file content :
  allows [m_head_object; m_calculate_etag; m_calculate_etag_content] →
  keeps (etag_compare env b k v local_file content).
Proof. intros Hc. unfold etag_compare. footprint. Qed.

Lemma get_s3_last_modified_timestamp_calls b k v :
  allows [m_head_object] → keeps (get_s3_last_modified_timestamp env b k v).
Proof. intros Hc. unfold get_s3_last_modified_timestamp. footprint. Qed.

Hint Extern 1 (follows _ _ (get_s3_last_modified_timestamp _ _ _ _) _) =>
  apply get_s3_last_modified_timestamp_calls; sub_methods : footprint.

Lemma is_local_object_latest_calls b k v local_file :
  allows [m_head_object] → keeps (is_local_object_latest env b k v local_file).
Proof. intros Hc. unfold is_local_object_latest. footprint. Qed.

Lemma bucket_check_calls b validate :
  allows [m_head_bucket] → keeps (bucket_check env b validate).
Proof. intros Hc. unfold bucket_check. footprint. Qed.

Lemma get_s3_connection_calls location rgw s3_url sig_4 :
  allows [m_boto3_conn] → keeps (get_s3_connection env location rgw s3_url sig_4).
Proof. intros Hc. unfold get_s3_connection. footprint. Qed.


Hint Extern 1 (follows _ _ (etag_compare _ _ _ _ _ _) _) =>
  apply etag_compare_calls; sub_methods : footprint.
Hint Extern 1 (follows _ _ (is_local_object_latest _ _ _ _ _) _) =>
  apply is_local_object_latest_calls; sub_methods : footprint.
Hint Extern 1 (follows _ _ (bucket_check _ _ _) _) =>
  apply bucket_check_calls; sub_methods : footprint.
Hint Extern 1 (follows _ _ (get_s3_connection _ _ _ _ _) _) =>
  apply get_s3_connection_calls; sub_methods : footprint.

Lemma paginate_calls {A} (r : S3Req (Paged A)) :
  c (EvS3 r) = false → keeps (paginate env r).
Proof.
  intros Hc. unfold paginate. apply keeps_try_except.
  - by apply follows_s3.
  - intros e. apply follows_ret.
Qed.

Lemma list_keys_calls b prefix marker max_keys :
  allows [m_list_objects_v2] → keeps (list_keys env b prefix marker max_keys).
Proof.
  intros Hc. unfold list_keys, paginated_list, raise_if_some.
  apply keeps_try_except; [|footprint].
  apply keeps_bind; [apply paginate_calls; call_leaf | footprint].
Qed.

Lemma delete_bucket_calls b :
  allows (if p_check_mode p then []
          else [m_head_bucket; m_list_object_versions; m_list_objects_v2;
                m_delete_objects; m_delete_bucket]) →
  keeps (delete_bucket env p b).
Proof.
  intros Hc. unfold delete_bucket, paginated_versioned_list_with_fallback,
    paginated_list, raise_if_some.
  destruct (p_check_mode p); [apply keeps_bind_exit_json|].
  apply keeps_bind; [footprint|]. intros _.
  apply keeps_try_except; [|footprint].
  apply keeps_bind; [footprint|]. intros exists_.
  destruct exists_; simpl; [|apply follows_ret].
  apply keeps_bind; [|footprint].
  apply keeps_bind; [apply paginate_calls; call_leaf|]. intros pg.
  apply keeps_bind; [footprint|]. intros _.
  destruct pg.2 as [e|]; [|apply follows_ret].
  destruct (code_in _ _ _); [|apply follows_raise].
  apply keeps_bind; [apply paginate_calls; call_leaf | footprint].
Qed.

Lemma delete_key_calls b k :
  allows (if p_check_mode p then [] else [m_delete_object]) →
  keeps (delete_key env p b k).
Proof.
  intros Hc. unfold delete_key.
  destruct (p_check_mode p); [apply keeps_bind_exit_json | footprint].
Qed.

Lemma get_current_object_tags_dict_calls b k v :
  allows [m_get_object_tagging] →
  keeps (get_current_object_tags_dict env b k v).
Proof. intros Hc. unfold get_current_object_tags_dict. footprint. Qed.

Hint Extern 1 (follows _ _ (get_current_object_tags_dict _ _ _ _) _) =>
  apply get_current_object_tags_dict_calls; sub_methods : footprint.

Lemma wait_tags_loop_calls dummies b k expected v live :
  allows [m_get_object_tagging; m_sleep] →
  keeps (wait_tags_loop env dummies b k expected v live).
Proof.
  intros Hc. revert live.
  induction dummies as [|d rest IH]; intros live; simpl.
  - apply follows_fail_json.
  - apply keeps_bind; [footprint|]. intros current.
    destruct (bool_decide _); [|apply follows_ret].
    apply keeps_bind; [footprint | intros _; apply IH].
Qed.

Lemma wait_tags_are_applied_calls b k expected v :
  allows [m_get_object_tagging; m_sleep] →
  keeps (wait_tags_are_applied env b k expected v).
Proof. intros Hc. by apply wait_tags_loop_calls. Qed.

Hint Extern 1 (follows _ _ (wait_tags_are_applied _ _ _ _ _) _) =>
  apply wait_tags_are_applied_calls; sub_methods : footprint.

Lemma ensure_tags_calls b k :
  allows tagging_methods → keeps (ensure_tags env p b k).
Proof.
  intros Hc. unfold tagging_methods in Hc.
  unfold ensure_tags, put_object_tagging, delete_object_tagging. footprint.
Qed.

Lemma put_download_url_calls b k expiry :
  allows [m_generate_presigned_url] → keeps (put_download_url env b k expiry).
Proof. intros Hc. unfold put_download_url. footprint. Qed.

Lemma get_download_url_calls b k expiry tags changed :
  allows [m_generate_presigned_url] →
  keeps (get_download_url env b k expiry tags changed).
Proof. intros Hc. unfold get_download_url. footprint. Qed.

Hint Extern 1 (follows _ _ (ensure_tags _ _ _ _) _) =>
  apply ensure_tags_calls; sub_methods : footprint.
Hint Extern 1 (follows _ _ (put_download_url _ _ _ _) _) =>
  apply put_download_url_calls; sub_methods : footprint.
Hint Extern 1 (follows _ _ (get_download_url _ _ _ _ _ _) _) =>
  apply get_download_url_calls; sub_methods : footprint.

Lemma download_s3str_calls b k v :
  allows (if p_check_mode p then [] else [m_get_object]) →
  keeps (download_s3str env p b k v).
Proof.
  intros Hc. unfold download_s3str.
  destruct (p_check_mode p); [apply keeps_bind_exit_json | footprint].
Qed.

Lemma download_s3file_calls b k dest retries v :
  allows (if p_check_mode p then [] else [m_get_object; m_download_file]) →
  keeps (download_s3file env p b k dest retries v).
Proof.
  intros Hc. unfold download_s3file, download_attempt.
  destruct (p_check_mode p); [apply keeps_bind_exit_json | footprint].
Qed.

(** *** The functions that set ACLs *)

(** One [put_bucket_acl], or one [put_object_acl], per entry of
    [permission]. *)
Lemma bucket_acls_calls b :
  (∀ l acl, inv l → acl ∈ l → c (EvS3 (PutBucketAcl acl b)) = false) →
  keeps (bind get_permission
           (λ permission,
              for_each permission (λ acl, s3 env (PutBucketAcl acl b)))).
Proof.
  intros Hacl. apply keeps_bind_get_permission. intros l Hl.
  apply keeps_for_each. intros acl Hin. apply follows_s3. by apply (Hacl l).
Qed.

Lemma object_acls_calls b k :
  (∀ l acl, inv l → acl ∈ l → c (EvS3 (PutObjectAcl acl b k)) = false) →
  keeps (bind get_permission
           (λ permission,
              for_each permission (λ acl, s3 env (PutObjectAcl acl b k)))).
Proof.
  intros Hacl. apply keeps_bind_get_permission. intros l Hl.
  apply keeps_for_each. intros acl Hin. apply follows_s3. by apply (Hacl l).
Qed.

Lemma create_bucket_calls b location :
  allows (if p_check_mode p then []
          else [m_create_bucket; m_wait_bucket_exists]) →
  (p_check_mode p = false →
   ∀ l acl, inv l → acl ∈ l → c (EvS3 (PutBucketAcl acl b)) = false) →
  keeps (create_bucket env p b location).
Proof.
  intros Hc Hacl. unfold create_bucket.
  destruct (p_check_mode p); [apply keeps_bind_exit_json|].
  specialize (Hacl eq_refl).
  apply keeps_bind; [footprint|]. intros _.
  apply keeps_bind; [|footprint].
  apply keeps_try_except; [|footprint].
  apply keeps_bind; [footprint|]. intros _.
  apply keeps_bind; [footprint|]. intros _.
  by apply bucket_acls_calls.
Qed.

Lemma create_dirkey_calls b k expiry :
  allows (if p_check_mode p then []
          else [m_put_object; m_generate_presigned_url] ++ tagging_methods) →
  (p_check_mode p = false →
   ∀ l acl, inv l → acl ∈ l → c (EvS3 (PutObjectAcl acl b k)) = false) →
  keeps (create_dirkey env p b k expiry).
Proof.
  intros Hc Hacl. unfold create_dirkey.
  destruct (p_check_mode p); [apply keeps_bind_exit_json|].
  specialize (Hacl eq_refl). unfold tagging_methods in Hc. simpl in Hc.
  apply keeps_bind; [footprint|]. intros _.
  apply keeps_bind; [|footprint].
  apply keeps_try_except; [|footprint].
  apply keeps_bind; [footprint|]. intros _.
  by apply object_acls_calls.
Qed.

Lemma upload_s3file_calls b k expiry src content :
  allows (if p_check_mode p then []
          else [m_upload_file; m_upload_fileobj; m_generate_presigned_url]
                 ++ tagging_methods) →
  (p_check_mode p = false →
   ∀ l acl, inv l → acl ∈ l → c (EvS3 (PutObjectAcl acl b k)) = false) →
  keeps (upload_s3file env p b k expiry src content).
Proof.
  intros Hc Hacl. unfold upload_s3file.
  destruct (p_check_mode p); [apply keeps_bind_exit_json|].
  specialize (Hacl eq_refl). unfold tagging_methods in Hc. simpl in Hc.
  apply keeps_bind; [footprint|]. intros _.
  apply keeps_bind; [footprint|]. intros _.
  apply keeps_bind; [|footprint].
  apply keeps_try_except; [|footprint].
  by apply object_acls_calls.
Qed.

Lemma copy_object_to_bucket_calls b k validate d_etag :
  allows (if p_check_mode p then []
          else [m_head_object; m_copy_object] ++ tagging_methods) →
  (p_check_mode p = false →
   ∀ l acl, inv l → acl ∈ l → c (EvS3 (PutObjectAcl acl b k)) = false) →
  keeps (copy_object_to_bucket env p b k validate d_etag).
Proof.
  intros Hc Hacl. unfold copy_object_to_bucket.
  destruct (p_check_mode p); [apply keeps_bind_exit_json|].
  specialize (Hacl eq_refl). unfold tagging_methods in Hc. simpl in Hc.
  apply keeps_bind; [footprint|]. intros _.
  apply keeps_try_except; [|footprint].
  destruct (p_copy_src p) as [cs|]; [|footprint].
  apply keeps_bind; [footprint|]. intros found.
  apply keeps_bind; [footprint|]. intros _.
  apply keeps_bind; [footprint|]. intros s_etag.
  destruct (bool_decide _); [footprint|].
  apply keeps_bind; [footprint|]. intros _.
  apply keeps_bind; [by apply object_acls_calls | footprint].
Qed.

End Calls.

(** ** The branches of [main] *)

Section Branches.

Context {W : Type}.
Variable env : Env W.
Variable p : Params.
Variable c : Event → bool.

Abbreviation M := (@M W).
Abbreviation allows ms := (∀ ev, method ev ∈ ms → c ev = false).
Abbreviation check_mode := (p_check_mode p).

Hint Extern 1 (follows _ _ (key_check _ _ _ _ _) _) =>
  apply key_check_calls; sub_methods : footprint.
Hint Extern 1 (follows _ _ (get_etag _ _ _ _) _) =>
  apply get_etag_calls; sub_methods : footprint.
Hint Extern 1 (follows _ _ (etag_compare _ _ _ _ _ _) _) =>
  apply etag_compare_calls; sub_methods : footprint.
Hint Extern 1 (follows _ _ (is_local_object_latest _ _ _ _ _) _) =>
  apply is_local_object_latest_calls; sub_methods : footprint.
Hint Extern 1 (follows _ _ (bucket_check _ _ _) _) =>
  apply bucket_check_calls; sub_methods : footprint.
Hint Extern 1 (follows _ _ (get_s3_connection _ _ _ _ _) _) =>
  apply get_s3_connection_calls; sub_methods : footprint.
Hint Extern 1 (follows _ _ (get_current_object_tags_dict _ _ _ _) _) =>
  apply get_current_object_tags_dict_calls; sub_methods : footprint.
Hint Extern 1 (follows _ _ (ensure_tags _ _ _ _) _) =>
  apply ensure_tags_calls; sub_methods : footprint.
Hint Extern 1 (follows _ _ (get_download_url _ _ _ _ _ _) _) =>
  apply get_download_url_calls; sub_methods : footprint.
Hint Extern 1 (follows _ _ (download_s3file _ _ _ _ _ _ _) _) =>
  apply download_s3file_calls; sub_methods : footprint.
Hint Extern 1 (follows _ _ (download_s3str _ _ _ _ _) _) =>
  apply download_s3str_calls; sub_methods : footprint.
Hint Extern 1 (follows _ _ (delete_key _ _ _ _) _) =>
  apply delete_key_calls; sub_methods : footprint.
Hint Extern 1 (follows _ _ (delete_bucket _ _ _) _) =>
  apply delete_bucket_calls; sub_methods : footprint.
Hint Extern 1 (follows _ _ (list_keys _ _ _ _ _) _) =>
  apply list_keys_calls; sub_methods : footprint.

Lemma mode_get_calls b k overwrite validate location s3_url :
  allows (mode_methods check_mode ModeGet) →
  bounded c 0 (mode_get env p b k overwrite validate location s3_url).
Proof.
  intros Hc. apply follows_bounded. unfold mode_get.
  apply keeps_bind; [footprint|]. intros keyrtn.
  apply keeps_bind; [footprint|]. intros _.
  destruct (p_dest p) as [d|]; [footprint|].
  simpl. apply follows_bind_ret. simpl. footprint.
Qed.

Lemma mode_delobj_calls b k :
  allows (mode_methods check_mode ModeDelObj) →
  bounded c 0 (mode_delobj env p b k).
Proof. intros Hc. apply follows_bounded. unfold mode_delobj. footprint. Qed.

Lemma mode_delete_calls b :
  allows (mode_methods check_mode ModeDelete) →
  bounded c 0 (mode_delete env p b).
Proof. intros Hc. apply follows_bounded. unfold mode_delete. footprint. Qed.

Lemma mode_list_calls b :
  allows (mode_methods check_mode ModeList) →
  bounded c 0 (mode_list env p b).
Proof. intros Hc. apply follows_bounded. unfold mode_list. footprint. Qed.

Lemma mode_geturl_calls b k validate :
  allows (mode_methods check_mode ModeGetUrl) →
  bounded c 0 (mode_geturl env p b k validate).
Proof. intros Hc. apply follows_bounded. unfold mode_geturl. footprint. Qed.

Lemma mode_getstr_calls b k validate location s3_url :
  allows (mode_methods check_mode ModeGetStr) →
  bounded c 0 (mode_getstr env p b k validate location s3_url).
Proof. intros Hc. apply follows_bounded. unfold mode_getstr. footprint. Qed.


(** The three branches that set ACLs: each sets [permission] to the
    bucket ACLs before it creates the bucket, and to the object ACLs
    before it writes the object. *)
Abbreviation bucket_acls_allowed b acls :=
  (check_mode = false →
   ∀ acl, acl ∈ acls → c (EvS3 (PutBucketAcl acl b)) = false).
Abbreviation object_acls_allowed b k acls :=
  (check_mode = false →
   ∀ acl, acl ∈ acls → c (EvS3 (PutObjectAcl acl b k)) = false).

Lemma create_bucket_after_set {B} b location bucket_acl
    (k : option bool → M B) post :
  allows (if check_mode then [] else [m_create_bucket; m_wait_bucket_exists]) →
  bucket_acls_allowed b bucket_acl →
  (∀ created, follows (λ l, l = bucket_acl) c (k created) post) →
  (∀ l, post l) →
  follows (λ _, True) c
    (bind (set_permission bucket_acl)
       (λ _, bind (create_bucket env p b location) k)) post.
Proof.
  intros Hc Hacl Hk Hpost. apply follows_after_set.
  apply (follows_bind c _ (λ l, l = bucket_acl)); [|done|done].
  apply create_bucket_calls; [done|].
  intros Hcm l acl -> Hin. by apply Hacl.
Qed.

Lemma follows_set_then {B} pre acls (m : M B) :
  follows (λ l, l = acls) c m (λ l, l = acls) →
  follows pre c (bind (set_permission acls) (λ _, m)) (λ _, True).
Proof.
  intros Hm. apply follows_after_set.
  eapply follows_weaken; [| |exact Hm]; done.
Qed.

Lemma mode_put_calls b k overwrite validate location bucketrtn bucket_acl
    object_acl :
  allows (mode_methods check_mode ModePut) →
  bucket_acls_allowed b bucket_acl → object_acls_allowed b k object_acl →
  bounded c 0 (mode_put env p b k overwrite validate location bucketrtn
                 bucket_acl object_acl).
Proof.
  intros Hc Hb Ho. apply follows_bounded. unfold mode_put.
  apply keeps_bind; [footprint|]. intros _.
  apply keeps_bind; [footprint|]. intros _.
  apply (follows_bind c _ (λ _, True)); [|intros keyrtn|done].
  { destruct bucketrtn; [footprint|].
    apply (create_bucket_after_set b location bucket_acl (λ _, ret None));
      [sub_methods|done| |done].
    intros _ st _. split; [apply appends_refl|done]. }
  apply keeps_bind; [footprint|]. intros bincontent.
  apply keeps_bind; [footprint|]. intros _.
  apply follows_set_then. apply upload_s3file_calls; [sub_methods|].
  intros Hcm l acl -> Hin. by apply Ho.
Qed.

Lemma mode_create_calls b k location bucketrtn bucket_acl object_acl :
  allows (mode_methods check_mode ModeCreate) →
  bucket_acls_allowed b bucket_acl →
  object_acls_allowed b (as_directory <$> k) object_acl →
  bounded c 0 (mode_create env p b k location bucketrtn bucket_acl object_acl).
Proof.
  intros Hc Hb Ho. apply follows_bounded. unfold mode_create.
  assert (Hdir : follows (λ l, l = object_acl) c
                   (create_dirkey env p b (as_directory <$> k) (p_expiry p))
                   (λ l, l = object_acl)).
  { apply create_dirkey_calls; [sub_methods|].
    intros Hcm l acl -> Hin. by apply Ho. }
  apply (follows_bind c _ (λ _, True)); [|intros _|done].
  { destruct (_ && _); simpl; [|apply follows_ret].
    destruct bucketrtn; [footprint|].
    apply (create_bucket_after_set b location bucket_acl
             (λ created, exit_json (ej "Bucket created successfully" created)));
      [sub_methods|done| |done].
    intros created st _. split; [apply appends_refl|done]. }
  destruct (_ && _); simpl; [|apply follows_ret].
  destruct bucketrtn.
  - apply (follows_bind c _ (λ _, True)); [footprint| |done].
    intros found. destruct found; [footprint|].
    by apply follows_set_then.
  - apply (create_bucket_after_set b location bucket_acl
             (λ _, bind (set_permission object_acl)
                     (λ _, create_dirkey env p b (as_directory <$> k)
                             (p_expiry p))));
      [sub_methods|done| |done].
    intros _. by apply follows_set_then.
Qed.

Lemma mode_copy_calls b k validate location bucketrtn bucket_acl object_acl :
  allows (mode_methods check_mode ModeCopy) →
  bucket_acls_allowed b bucket_acl → object_acls_allowed b k object_acl →
  bounded c 0 (mode_copy env p b k validate location bucketrtn bucket_acl
                 object_acl).
Proof.
  intros Hc Hb Ho. apply follows_bounded. unfold mode_copy.
  apply (follows_bind c _ (λ _, True)); [|intros d_etag|done].
  { destruct bucketrtn; [footprint|].
    apply (create_bucket_after_set b location bucket_acl (λ _, ret None));
      [sub_methods|done| |done].
    intros _ st _. split; [apply appends_refl|done]. }
  apply follows_set_then. apply copy_object_to_bucket_calls; [sub_methods|].
  intros Hcm l acl -> Hin. by apply Ho.
Qed.

(** [main]: the prologue, and the branch of the mode. *)
Lemma main_calls :
  allows (prologue_methods ++ mode_methods check_mode (p_mode p)) →
  (sets_acls check_mode (p_mode p) = true →
   ∀ acl b, acl ∈ bucket_canned_acl → c (EvS3 (PutBucketAcl acl b)) = false) →
  (sets_acls check_mode (p_mode p) = true →
   ∀ acl b k, acl ∈ object_canned_acl →
     c (EvS3 (PutObjectAcl acl b k)) = false) →
  bounded c 0 (main env p).
Proof.
  intros Hc Hb Ho. unfold main.
  assert (Hpro : allows prologue_methods).
  { intros ev Hev. apply Hc. apply elem_of_app. by left. }
  assert (Hmode : allows (mode_methods check_mode (p_mode p))).
  { intros ev Hev. apply Hc. apply elem_of_app. by right. }
  clear Hc. unfold prologue_methods in Hpro.
  apply bounded_bind0; [apply follows_bounded; footprint|]. intros _.
  apply bounded_bind0; [apply normalize_overwrite_quiet|]. intros overwrite.
  apply bounded_bind0; [apply follows_bounded; footprint|]. intros _.
  apply bounded_bind0; [apply follows_bounded; footprint|]. intros region.
  apply bounded_bind0; [apply follows_bounded; footprint|]. intros _.
  apply bounded_bind0; [apply follows_bounded; footprint|]. intros _.
  apply bounded_bind0; [apply follows_bounded; footprint|]. intros _.
  apply bounded_bind0; [apply follows_bounded; footprint|]. intros _.
  apply bounded_bind0; [apply follows_bounded; footprint|]. intros permission.
  apply bounded_bind0; [apply follows_bounded; footprint|]. intros _.
  apply bounded_bind0; [apply follows_bounded; footprint|]. intros bucketrtn.
  apply bounded_bind0; [apply follows_bounded; footprint|]. intros _.
  clear Hpro.
  assert (Hbucket : p_mode p ∈ [ModePut; ModeCreate; ModeCopy] → ∀ b,
    bucket_acls_allowed b (filter (λ acl, acl ∈ bucket_canned_acl) permission)).
  { intros Hm b Hcm acl [Hin _]%list_elem_of_filter. apply Hb; [|done].
    unfold sets_acls. rewrite Hcm. by apply bool_decide_eq_true. }
  assert (Hobject : p_mode p ∈ [ModePut; ModeCreate; ModeCopy] → ∀ b k,
    object_acls_allowed b k (filter (λ acl, acl ∈ object_canned_acl) permission)).
  { intros Hm b k Hcm acl [Hin _]%list_elem_of_filter. apply Ho; [|done].
    unfold sets_acls. rewrite Hcm. by apply bool_decide_eq_true. }
  apply bounded_bind0.
  { apply bounded_when. intros Hm%bool_decide_eq_true. rewrite Hm in Hmode.
    by apply mode_get_calls. }
  intros _. apply bounded_bind0.
  { apply bounded_when. intros Hm%bool_decide_eq_true. rewrite Hm in Hmode.
    apply mode_put_calls; [done|apply Hbucket|apply Hobject];
      rewrite Hm; set_solver. }
  intros _. apply bounded_bind0.
  { apply bounded_when. intros Hm%bool_decide_eq_true. rewrite Hm in Hmode.
    by apply mode_delobj_calls. }
  intros _. apply bounded_bind0.
  { apply bounded_when. intros Hm%bool_decide_eq_true. rewrite Hm in Hmode.
    by apply mode_delete_calls. }
  intros _. apply bounded_bind0.
  { apply bounded_when. intros Hm%bool_decide_eq_true. rewrite Hm in Hmode.
    by apply mode_list_calls. }
  intros _. apply bounded_bind0.
  { apply bounded_when. intros Hm%bool_decide_eq_true. rewrite Hm in Hmode.
    apply mode_create_calls; [done|apply Hbucket|apply Hobject];
      rewrite Hm; set_solver. }
  intros _. apply bounded_bind0.
  { apply bounded_when. intros Hm%bool_decide_eq_true. rewrite Hm in Hmode.
    by apply mode_geturl_calls. }
  intros _. apply bounded_bind0.
  { apply bounded_when. intros Hm%bool_decide_eq_true. rewrite Hm in Hmode.
    by apply mode_getstr_calls. }
  intros _. apply bounded_bind0.
  { apply bounded_when. intros Hm%bool_decide_eq_true. rewrite Hm in Hmode.
    apply mode_copy_calls; [done|apply Hbucket|apply Hobject];
      rewrite Hm; set_solver. }
  intros _. apply bounded_exit_json.
Qed.

End Branches.

(** ** The footprint of an invocation *)

Section Footprint.

Context {W : Type}.
Variable env : Env W.
Variable p : Params.

Abbreviation M := (@M W).

Lemma bounded_Forall {A} (P : Event → bool) (m : M A) st :
  bounded (λ ev, negb (P ev)) 0 m →
  ∃ l, trace (m st).2 = trace st ++ l ∧ Forall (λ ev, P ev = true) l.
Proof.
  intros H. destruct (H st) as (l & E & Hl). exists l. split; [done|].
  assert (Hz : count (λ ev, negb (P ev)) l = 0%nat) by lia.
  apply count_zero_Forall in Hz. eapply Forall_impl; [exact Hz|].
  intros ev Hev. simpl in Hev. by destruct (P ev).
Qed.

Lemma main_Forall (P : Event → bool) w :
  bounded (λ ev, negb (P ev)) 0 (main env p) →
  Forall (λ ev, P ev = true) (trace (run_main env p w).2).
Proof.
  intros H. destruct (bounded_Forall P (main env p) (initial p w) H)
    as (l & E & Hl).
  unfold run_main. by rewrite E.
Qed.

Lemma only_calls_intro {A} ms (m : M A) :
  (∀ c, (∀ ev, method ev ∈ ms → c ev = false) →
        follows (λ _, True) c m (λ _, True)) →
  only_calls ms m.
Proof.
  intros H st.
  destruct (bounded_Forall (λ ev, bool_decide (method ev ∈ ms)) m st)
    as (l & E & Hl).
  - apply follows_bounded, H. intros ev Hev. by rewrite bool_decide_eq_true_2.
  - exists l. split; [done|]. eapply Forall_impl; [exact Hl|].
    intros ev Hev. by apply bool_decide_eq_true in Hev.
Qed.

(** X1: the lookups only look.  [key_check], [get_etag] and
    [is_local_object_latest] call nothing but [head_object], [bucket_check]
    nothing but [head_bucket], [etag_compare] nothing but [head_object] and
    the fingerprint helpers, [get_current_object_tags_dict] nothing but
    [get_object_tagging], [list_keys] nothing but the [list_objects_v2]
    paginator, and [get_download_url] and [put_download_url] nothing but
    [generate_presigned_url]: on every path, whatever the store answers. *)
Theorem lookups_only_look b k v validate local_file content prefix marker
    max_keys expiry tags changed :
  only_calls [m_head_object] (key_check env b k v validate)
  ∧ only_calls [m_head_object] (get_etag env b k v)
  ∧ only_calls [m_head_object] (is_local_object_latest env b k v local_file)
  ∧ only_calls [m_head_bucket] (bucket_check env b validate)
  ∧ only_calls [m_head_object; m_calculate_etag; m_calculate_etag_content]
      (etag_compare env b k v local_file content)
  ∧ only_calls [m_get_object_tagging] (get_current_object_tags_dict env b k v)
  ∧ only_calls [m_list_objects_v2] (list_keys env b prefix marker max_keys)
  ∧ only_calls [m_generate_presigned_url]
      (get_download_url env b k expiry tags changed)
  ∧ only_calls [m_generate_presigned_url] (put_download_url env b k expiry).
Proof.
  repeat split; apply only_calls_intro; intros c Hc.
  - by apply key_check_calls.
  - by apply get_etag_calls.
  - by apply is_local_object_latest_calls.
  - by apply bucket_check_calls.
  - by apply etag_compare_calls.
  - by apply get_current_object_tags_dict_calls.
  - by apply list_keys_calls.
  - by apply get_download_url_calls.
  - by apply put_download_url_calls.
Qed.

(** X2: [ensure_tags] and [wait_tags_are_applied] touch nothing but the
    tags: the one calls only [get_object_tagging], [put_object_tagging],
    [delete_object_tagging] and [sleep], the other only
    [get_object_tagging] and [sleep]. *)
Theorem tagging_only_touches_tags b k expected v :
  only_calls tagging_methods (ensure_tags env p b k)
  ∧ only_calls [m_get_object_tagging; m_sleep]
      (wait_tags_are_applied env b k expected v).
Proof.
  split; apply only_calls_intro; intros c Hc.
  - by apply ensure_tags_calls.
  - by apply wait_tags_are_applied_calls.
Qed.

(** X3: the methods an invocation may call, by mode.  Every entry of the
    trace of [main] is a call of a method of [methods_of_mode]: the
    prologue ([get_aws_connection_info], [boto3_conn], [head_bucket]) and
    the methods of the branch of the mode.  So a GET, a GETSTR, a GETURL
    and a LIST never create, write, copy or delete anything, a DELOBJ
    calls nothing but [delete_object] after the prologue, and only PUT,
    CREATE and COPY set ACLs. *)
Theorem main_calls_by_mode w :
  Forall (λ ev, method ev ∈ methods_of_mode (p_check_mode p) (p_mode p))
    (trace (run_main env p w).2).
Proof.
  eapply Forall_impl.
  - apply (main_Forall (λ ev, bool_decide
             (method ev ∈ methods_of_mode (p_check_mode p) (p_mode p)))).
    apply main_calls.
    + intros ev Hev. rewrite bool_decide_eq_true_2; [done|].
      unfold methods_of_mode. rewrite app_assoc. apply elem_of_app. by left.
    + intros Hs acl b Hacl. rewrite bool_decide_eq_true_2; [done|].
      unfold methods_of_mode. rewrite Hs.
      apply elem_of_app. right. apply elem_of_app. right. repeat constructor.
    + intros Hs acl b k Hacl. rewrite bool_decide_eq_true_2; [done|].
      unfold methods_of_mode. rewrite Hs.
      apply elem_of_app. right. apply elem_of_app. right. repeat constructor.
  - intros ev Hev. by apply bool_decide_eq_true in Hev.
Qed.


Lemma is_tag_mutation_method ev :
  is_tag_mutation ev
  = bool_decide (method ev ∈ [m_put_object_tagging; m_delete_object_tagging]).
Proof. by destruct ev as [? []|? []|]. Qed.

(** X4: check mode.  In check mode an invocation downloads nothing,
    uploads nothing, and creates, copies or deletes nothing; the one
    change it can still make is to the tags of the object, in a PUT (the
    PUT branch runs [ensure_tags] before it reaches the check of
    [upload_s3file]). *)
Theorem check_mode_changes_nothing_but_tags w :
  p_check_mode p = true →
  Forall (λ ev, is_change ev = true →
                p_mode p = ModePut ∧ is_tag_mutation ev = true)
    (trace (run_main env p w).2).
Proof.
  intros Hcheck.
  set (P := λ ev, negb (is_change ev)
                  || (bool_decide (p_mode p = ModePut) && is_tag_mutation ev)).
  eapply Forall_impl.
  - apply (main_Forall P). apply main_calls; rewrite Hcheck.
    + intros ev Hev. subst P. simpl.
      rewrite is_tag_mutation_method. unfold is_change.
      revert Hev. generalize (method ev). intros m Hev.
      unfold prologue_methods, mode_methods, tagging_methods in Hev.
      destruct (p_mode p); simpl in Hev;
        repeat match goal with
        | H : _ ∈ [] |- _ => by apply elem_of_nil in H
        | H : _ ∈ _ :: _ |- _ =>
            apply elem_of_cons in H; destruct H as [->|H]
        end; reflexivity.
    + intros Hs. by destruct (p_mode p).
    + intros Hs. by destruct (p_mode p).
  - intros ev Hev Hch. subst P. simpl in Hev. rewrite Hch in Hev.
    simpl in Hev. apply andb_true_iff in Hev as [Hm Ht].
    by apply bool_decide_eq_true in Hm.
Qed.

Lemma acl_ok_other ev :
  method ev ∉ [m_put_bucket_acl; m_put_object_acl] → acl_ok ev = true.
Proof.
  destruct ev as [? []|? []|]; simpl; try done; intros H; exfalso; apply H;
    repeat constructor.
Qed.

(** X5: the ACLs that are sent.  Every [put_bucket_acl] of an invocation
    carries a canned ACL of buckets and every [put_object_acl] a canned
    ACL of objects, whatever the [permission] parameter holds: [main]
    sorts the entries, and sets [permission] to the bucket ACLs before
    each [create_bucket] and to the object ACLs before each write of an
    object. *)
Theorem acls_sent_are_canned w :
  Forall (λ ev, acl_ok ev = true) (trace (run_main env p w).2).
Proof.
  apply main_Forall. apply main_calls.
  - intros ev Hev. rewrite acl_ok_other; [done|].
    revert Hev. generalize (method ev). intros m Hev.
    unfold prologue_methods, mode_methods, tagging_methods in Hev.
    rewrite !elem_of_cons, elem_of_nil.
    destruct (p_check_mode p), (p_mode p); simpl in Hev;
      repeat match goal with
      | H : _ ∈ [] |- _ => by apply elem_of_nil in H
      | H : _ ∈ _ :: _ |- _ =>
          apply elem_of_cons in H; destruct H as [->|H]
      end; intros [?|[?|[]]]; discriminate.
  - intros _ acl b Hacl. simpl. unfold in_list.
    by rewrite bool_decide_eq_true_2.
  - intros _ acl b k Hacl. simpl. unfold in_list.
    by rewrite bool_decide_eq_true_2.
Qed.

End Footprint.

(** * More of what the branches do *)

Section Decisions.

Context {W : Type}.
Variable env : Env W.
Variable p : Params.

Abbreviation M := (@M W).
Abbreviation State := (@State W).

(** ** The decision of a GET *)

(** Where a GET goes when it has nothing to compare. *)
Lemma get_decision_without_comparison bucket obj validate location s3_url
    (st st1 : State) :
  key_check env bucket obj (p_version p) validate st = (Ret true, st1) →
  mode_get env p bucket obj "always" validate location s3_url st
  = download_stage env p bucket obj location s3_url st1
  ∧ (∀ overwrite,
       truthy (p_dest p) = false
       ∨ (∃ dest, p_dest p = Some dest
                  ∧ os_path_exists env dest (world st1) = false) →
       mode_get env p bucket obj overwrite validate location s3_url st
       = download_stage env p bucket obj location s3_url st1)
  ∧ (∀ dest,
       p_dest p = Some dest → nonempty dest = true →
       os_path_exists env dest (world st1) = true →
       mode_get env p bucket obj "never" validate location s3_url st
       = (Exit (ej "Local object already exists and overwrite is disabled."
                  (Some false)), st1)).
Proof.
  intros Hk. split; [|split].
  - unfold mode_get, download_stage. run. rewrite Hk. run.
    destruct (p_dest p) as [[|ch d]|]; simpl; by rewrite ?andb_false_r.
  - intros overwrite [Hd|(dest & Hd & Hex)];
      unfold mode_get, download_stage; run; rewrite Hk; run; rewrite Hd.
    + done.
    + destruct (truthy (Some dest)); run; [|done]. by rewrite Hex.
  - intros dest Hd Hne Hex. unfold mode_get. run. rewrite Hk. run. rewrite Hd.
    assert (Ht : truthy (Some dest) = true) by (by destruct dest).
    rewrite Ht. run. by rewrite Hex.
Qed.


(** ** The decision of a PUT *)

Lemma mode_put_decision bucket obj overwrite validate location bucket_acl
    object_acl st bincontent keyrtn st1 :
  put_ready env p st bincontent →
  key_check env bucket obj (p_version p) validate st = (Ret keyrtn, st1) →
  mode_put env p bucket obj overwrite validate location true bucket_acl
    object_acl st
  = bind
      (when (bool_decide (Some keyrtn = Some true)
             && negb (bool_decide (overwrite = "always")))
         (bind
            (if bool_decide (overwrite = "never") then ret true
             else etag_compare env bucket obj (p_version p) (p_src p)
                    bincontent)
            (λ skip, when skip (skip_upload_stage env p bucket obj))))
      (λ _, upload_stage env p bucket obj object_acl bincontent) st1.
Proof.
  intros (Hsome & Hsrc & Hb64 & Hcontent) Hk.
  assert (Hchk : bool_decide (p_content p = None)
                 && bool_decide (p_content_base64 p = None)
                 && bool_decide (p_src p = None) = false).
  { apply not_true_is_false. intros H. apply Hsome.
    apply andb_prop in H as [H H3]. apply andb_prop in H as [H1 H2].
    by repeat split; eapply bool_decide_eq_true_1. }
  unfold mode_put, upload_stage. unfold bind at 1. unfold when at 1. rewrite Hchk.
  unfold ret at 1. unfold bind at 1.
  destruct (p_src p) as [f|] eqn:Es.
  - unfold bind at 1, path_exists. rewrite (Hsrc f eq_refl). cbn [negb when ret].
    unfold bind at 1. unfold bind at 1. rewrite Hk. cbn [ret].
    unfold bind at 1.
    destruct (p_content_base64 p) as [c|] eqn:Ec.
    + destruct (Hb64 c eq_refl) as (b & Hb & ->). rewrite Hb. reflexivity.
    + rewrite (Hcontent eq_refl). reflexivity.
  - cbn [ret]. unfold bind at 1. unfold bind at 1. rewrite Hk. cbn [ret].
    unfold bind at 1.
    destruct (p_content_base64 p) as [c|] eqn:Ec.
    + destruct (Hb64 c eq_refl) as (b & Hb & ->). rewrite Hb. reflexivity.
    + rewrite (Hcontent eq_refl). reflexivity.
Qed.

Lemma skip_upload_stage_then {B} bucket obj (k : unit → M B) st :
  bind (skip_upload_stage env p bucket obj) k st
  = match skip_upload_stage env p bucket obj st with
    | (Ret _, st') => (Raise (PyError "unreachable"), st')
    | (Exit o, st') => (Exit o, st')
    | (Fail f, st') => (Fail f, st')
    | (Raise e, st') => (Raise e, st')
    | (RaiseSigv4Required, st') => (RaiseSigv4Required, st')
    end.
Proof.
  unfold bind at 1.
  destruct (skip_upload_stage env p bucket obj st) as [[a|o|f|e|] st'] eqn:E;
    try done.
  by apply skip_upload_stage_ends in E.
Qed.


(** Where a PUT goes when it has nothing to compare. *)
Lemma put_decision_without_comparison bucket obj validate location bucket_acl
    object_acl (st : State) bincontent :
  put_ready env p st bincontent →
  (∀ keyrtn st1,
     key_check env bucket obj (p_version p) validate st = (Ret keyrtn, st1) →
     mode_put env p bucket obj "always" validate location true bucket_acl
       object_acl st
     = upload_stage env p bucket obj object_acl bincontent st1
     ∧ (keyrtn = false → ∀ overwrite,
          mode_put env p bucket obj overwrite validate location true
            bucket_acl object_acl st
          = upload_stage env p bucket obj object_acl bincontent st1)
     ∧ (keyrtn = true →
        mode_put env p bucket obj "never" validate location true bucket_acl
          object_acl st
        = skip_upload_stage env p bucket obj st1))
  ∧ (∀ overwrite created st1,
       bind (set_permission bucket_acl)
         (λ _, create_bucket env p bucket location) st = (Ret created, st1) →
       mode_put env p bucket obj overwrite validate location false bucket_acl
         object_acl st
       = upload_stage env p bucket obj object_acl bincontent st1).
Proof.
  intros Hready. split.
  - intros keyrtn st1 Hk. split; [|split].
    + rewrite (mode_put_decision _ _ _ _ _ _ _ _ _ _ _ Hready Hk).
      run. by rewrite andb_false_r.
    + intros -> overwrite.
      rewrite (mode_put_decision _ _ _ _ _ _ _ _ _ _ _ Hready Hk).
      by run.
    + intros ->.
      rewrite (mode_put_decision _ _ _ _ _ _ _ _ _ _ _ Hready Hk).
      unfold when at 1. decide_literals. cbn [andb negb].
      unfold bind at 2. cbn [ret when].
      rewrite skip_upload_stage_then.
      destruct (skip_upload_stage env p bucket obj st1) as [[a|o|f|e|] st2]
        eqn:E; try done.
      by apply skip_upload_stage_ends in E.
  - intros overwrite created st1 Hc.
    destruct Hready as (Hsome & Hsrc & Hb64 & Hcontent).
    assert (Hchk : bool_decide (p_content p = None)
                   && bool_decide (p_content_base64 p = None)
                   && bool_decide (p_src p = None) = false).
    { apply not_true_is_false. intros H. apply Hsome.
      apply andb_prop in H as [H H3]. apply andb_prop in H as [H1 H2].
      by repeat split; eapply bool_decide_eq_true_1. }
    unfold bind, set_permission in Hc.
    unfold mode_put, upload_stage. unfold bind at 1. unfold when at 1.
    rewrite Hchk. unfold ret at 1. unfold bind at 1.
    destruct (p_src p) as [f|] eqn:Es.
    + unfold bind at 1, path_exists. rewrite (Hsrc f eq_refl).
      cbn [negb when ret].
      unfold bind at 1. unfold bind at 1. unfold set_permission at 1.
      unfold bind at 1. cbn [world]. rewrite Hc. cbn [ret].
      unfold bind at 1.
      destruct (p_content_base64 p) as [c|] eqn:Ec.
      * destruct (Hb64 c eq_refl) as (b & Hb & ->). rewrite Hb. reflexivity.
      * rewrite (Hcontent eq_refl). reflexivity.
    + cbn [ret]. unfold bind at 1. unfold bind at 1.
      unfold set_permission at 1. unfold bind at 1. rewrite Hc. cbn [ret].
      unfold bind at 1.
      destruct (p_content_base64 p) as [c|] eqn:Ec.
      * destruct (Hb64 c eq_refl) as (b & Hb & ->). rewrite Hb. reflexivity.
      * rewrite (Hcontent eq_refl). reflexivity.
Qed.


(** ** Check mode and the tags *)

(** The call that is made first is the first entry appended, and what
    comes after it is what the handler and the rest of the code send. *)
Lemma trace_after_first_call {A B} c (r : S3Req A) handler (k : A → M B) st :
  (∀ e, match handler e with
        | Some h => bounded c 0 h
        | None => True
        end) →
  (∀ a, bounded c 0 (k a)) →
  ∃ l, trace (bind (try_except (s3 env r) handler) k st).2
       = trace st ++ EvS3 r :: l
       ∧ count c l = 0%nat.
Proof.
  intros Hh Hk. unfold bind, try_except, s3.
  destruct (s3_call env r (world st)) as [[a|e] w'].
  - destruct (Hk a (log (EvS3 r) w' st)) as (l & E & Hl).
    exists l. rewrite E. simpl. rewrite <- app_assoc. split; [done|lia].
  - specialize (Hh e). destruct (handler e) as [h|].
    + destruct (bounded_bind0 c h k Hh Hk (log (EvS3 r) w' st))
        as (l & E & Hl).
      exists l. unfold bind in E. rewrite E. simpl. rewrite <- app_assoc.
      split; [done|lia].
    + by exists [].
Qed.

Lemma bind_bind {A B C} (m : M A) (k1 : A → M B) (k2 : B → M C) st :
  bind (bind m k1) k2 st = bind m (λ a, bind (k1 a) k2) st.
Proof. unfold bind. by destruct (m st) as [[a|o|f|e|] st']. Qed.

(** X8: a PUT reconciles the tags before it gets to the check-mode
    guard.  The guard sits in [upload_s3file], and a PUT that skips the
    upload (here with [overwrite=never] and an object that exists) runs
    [ensure_tags] and never gets there: when the tags asked for differ
    from the tags of the object, [put_object_tagging] is sent right
    after the tag lookup, whatever [check_mode] is, and a successful end
    is the one that reports the download URL, not the one that reports
    that the operation was skipped. *)
Theorem put_reconciles_tags_before_the_check_mode_guard bucket obj validate
    location bucket_acl object_acl (st : State) bincontent st1 desired current
    st2 :
  put_ready env p st bincontent →
  key_check env bucket obj (p_version p) validate st = (Ret true, st1) →
  p_tags p = Some desired →
  get_current_object_tags_dict env bucket obj None st1 = (Ret current, st2) →
  let target := if p_purge_tags p then desired else desired ∪ current in
  let run :=
    mode_put env p bucket obj "never" validate location true bucket_acl
      object_acl st in
  current ≠ target → target ≠ ∅ →
  (∃ l, trace run.2
        = trace st2
          ++ EvS3 (PutObjectTagging bucket obj
                     (ansible_dict_to_boto3_tag_list env target)) :: l)
  ∧ (∀ o, run.1 = Exit o → ej_msg o = Some "Download url:").
Proof.
  intros Hready Hk Htags Hl target run Hne Hnonempty.
  assert (Hrun : run = skip_upload_stage env p bucket obj st1).
  { subst run.
    rewrite (mode_put_decision _ _ _ _ _ _ _ _ _ _ _ Hready Hk).
    unfold when at 1. decide_literals. cbn [andb negb].
    unfold bind at 2. cbn [ret when].
    rewrite skip_upload_stage_then.
    destruct (skip_upload_stage env p bucket obj st1) as [[a|o|f|e|] st3]
      eqn:E; try done.
    by apply skip_upload_stage_ends in E. }
  rewrite Hrun. split.
  - unfold skip_upload_stage. unfold bind at 1.
    rewrite (ensure_tags_after_lookup _ _ _ _ _ _ _ Hl), Htags. cbv zeta.
    fold target. rewrite !bool_decide_eq_true_2 by done.
    change (∃ l, trace
      (bind (bind (bind
         (try_except (put_object_tagging env bucket obj target)
            (λ e, if is_boto_error e
                  then Some (fail_json_aws e "Failed to update object tags.")
                  else None))
         (λ _, wait_tags_are_applied env bucket obj target None))
         (λ live, ret (live, true)))
         (λ tc, get_download_url env bucket obj (p_expiry p) (Some tc.1) tc.2)
         st2).2
      = trace st2
        ++ EvS3 (PutObjectTagging bucket obj
                   (ansible_dict_to_boto3_tag_list env target)) :: l).
    rewrite !bind_bind. unfold put_object_tagging.
    match goal with
    | |- ∃ l, trace (bind (try_except (s3 env ?r) ?h) ?k ?st).2 = _ =>
        destruct (trace_after_first_call (λ _, false) r h k st)
          as (l & E & _)
    end.
    + intros e. destruct (is_boto_error e); [apply bounded_fail_json_aws|done].
    + intros _. apply bounded_bind0; [by apply wait_tags_are_applied_sends|].
      intros live. apply bounded_bind0; [apply bounded_ret|].
      intros tc. by apply (get_download_url_quiet env (λ _, false) bucket obj).
    + by exists l.
  - intros o Ho.
    destruct (skip_upload_stage env p bucket obj st1) as [r st3] eqn:Es.
    simpl in Ho. subst r.
    by destruct (skip_upload_stage_Exit _ _ _ _ _ _ _ Es)
      as (tags & changed & st5 & He & Hm & Hch & _).
Qed.

End Decisions.

Section Edges.

Context {W : Type}.
Variable env : Env W.
Variable p : Params.

Abbreviation M := (@M W).
Abbreviation State := (@State W).

(** ** A key that is not there *)

Lemma key_check_404 bucket obj version validate (st : State) e w' :
  s3_call env (HeadObject bucket obj (sent_version version)) (world st)
  = (Err e, w') →
  is_boto3_error_code env ["404"] e = true →
  key_check env bucket obj version validate st
  = (Ret false, log (EvS3 (HeadObject bucket obj (sent_version version))) w' st).
Proof.
  intros Hcall H404.
  unfold key_check, try_except, bind, s3, code_in. rewrite Hcall. simpl.
  by rewrite H404.
Qed.

(** X9: reading an object that is not there.  When [head_object]
    answers 404, a GET (whatever the overwrite policy and whatever is at
    [dest]), a GETSTR and a GETURL fail right after that call, which is
    the only one they make, with the message that the key does not
    exist.  A GET names the version in the message when [version] is
    truthy, a GETSTR when it is not [None]. *)
Theorem reading_a_missing_key_fails bucket obj validate location s3_url
    (st : State) e w' :
  s3_call env (HeadObject bucket obj (sent_version (p_version p))) (world st)
  = (Err e, w') →
  is_boto3_error_code env ["404"] e = true →
  let st1 :=
    log (EvS3 (HeadObject bucket obj (sent_version (p_version p)))) w' st in
  let plain := "Key " +:+ pystr obj +:+ " does not exist." in
  let versioned :=
    "Key " +:+ pystr obj +:+ " with version id " +:+ pystr (p_version p)
      +:+ " does not exist." in
  (∀ overwrite,
     mode_get env p bucket obj overwrite validate location s3_url st
     = (Fail (fj (if truthy (p_version p) then versioned else plain)), st1))
  ∧ (nonempty bucket = true → truthy obj = true →
     mode_getstr env p bucket obj validate location s3_url st
     = (Fail (fj (if bool_decide (p_version p ≠ None) then versioned
                  else plain)), st1))
  ∧ (nonempty bucket = true ∨ truthy obj = true →
     mode_geturl env p bucket obj validate st = (Fail (fj plain), st1)).
Proof.
  intros Hcall H404 st1 plain versioned.
  pose proof (key_check_404 bucket obj (p_version p) validate st e w'
                Hcall H404) as Hk.
  fold st1 in Hk. split; [|split].
  - intros overwrite. unfold mode_get. run. rewrite Hk. run.
    by destruct (truthy (p_version p)).
  - intros Hb Ho. unfold mode_getstr. rewrite Hb, Ho. run. rewrite Hk.
    by destruct (bool_decide (p_version p ≠ None)).
  - intros Hbo. unfold mode_geturl.
    assert (Hc : negb (nonempty bucket) && negb (truthy obj) = false).
    { destruct Hbo as [-> | ->]; [done|]. by rewrite andb_false_r. }
    rewrite Hc. run. by rewrite Hk.
Qed.


(** ** The tags *)

(** X10: tag reconciliation with purge.  With [purge_tags] the target is
    the desired tags alone.  When the object's tags differ from them, the
    first call after the lookup is [put_object_tagging] of the desired
    tags if there are any, and [delete_object_tagging] if the desired
    tags are empty; no other tag mutation follows; and when [ensure_tags]
    returns, it returns the desired tags and [changed = true]. *)
Theorem ensure_tags_purge_replaces bucket obj desired (st : State) current
    st1 :
  p_purge_tags p = true → p_tags p = Some desired →
  get_current_object_tags_dict env bucket obj None st = (Ret current, st1) →
  current ≠ desired →
  let mutation : S3Req unit :=
    if bool_decide (desired ≠ ∅)
    then PutObjectTagging bucket obj
           (ansible_dict_to_boto3_tag_list env desired)
    else DeleteObjectTagging bucket obj in
  let r := ensure_tags env p bucket obj st in
  (∃ l, trace r.2 = trace st1 ++ EvS3 mutation :: l
        ∧ count is_tag_mutation l = 0%nat)
  ∧ (∀ live changed, r.1 = Ret (live, changed) →
       live = desired ∧ changed = true).
Proof.
  intros Hpurge Htags Hl Hne mutation r. subst r.
  rewrite (ensure_tags_after_lookup _ _ _ _ _ _ _ Hl), Htags, Hpurge.
  cbv zeta. rewrite (bool_decide_eq_true_2 (current ≠ desired)) by done.
  split.
  - rewrite bind_bind. subst mutation.
    destruct (bool_decide (desired ≠ ∅)); cbn [when];
      unfold put_object_tagging, delete_object_tagging;
      apply trace_after_first_call;
      try (intros e; destruct (is_boto_error e);
           [apply bounded_fail_json_aws|done]);
      intros _;
      (apply bounded_bind0;
       [by apply wait_tags_are_applied_sends | intros; apply bounded_ret]).
  - intros live changed. unfold bind at 1.
    destruct (bind _ _ st1) as [[live'|?|?|?|] st2] eqn:Ew; try done.
    intros [= -> <-]. split; [|done]. unfold bind in Ew.
    match type of Ew with
    | context [let (_, _) := ?x in _] => destruct x as [[[]|?|?|?|] st3]
    end; try done.
    by apply wait_tags_are_applied_Ret in Ew.
Qed.

(** X11: no tags asked for, no tags changed.  When the [tags] parameter
    is absent, or is the empty dictionary without [purge_tags],
    [ensure_tags] makes one call, the lookup, whatever it answers; and
    when it returns it reports [changed = false]. *)
Theorem ensure_tags_without_tags_only_looks bucket obj (st : State) :
  p_tags p = None ∨ (p_tags p = Some ∅ ∧ p_purge_tags p = false) →
  let r := ensure_tags env p bucket obj st in
  trace r.2 = trace st ++ [EvS3 (GetObjectTagging bucket obj None)]
  ∧ (∀ live changed, r.1 = Ret (live, changed) → changed = false).
Proof.
  intros Htags r. subst r.
  pose proof (get_current_object_tags_dict_step env bucket obj None st)
    as [Htr Hres].
  destruct (get_current_object_tags_dict env bucket obj None st)
    as [res st1] eqn:El.
  simpl in Htr, Hres. destruct Hres as [[current ->]|[e ->]].
  - rewrite (ensure_tags_after_lookup _ _ _ _ _ _ _ El).
    destruct Htags as [->|[-> ->]].
    + split; [done|]. by intros live changed [= _ <-].
    + cbv zeta. rewrite (left_id_L ∅ (∪)).
      rewrite bool_decide_eq_false_2 by auto.
      split; [done|]. by intros live changed [= _ <-].
  - unfold ensure_tags, bind, try_except. rewrite El. cbn [ret].
    destruct (code_in env IGNORE_S3_DROP_IN_EXCEPTIONS e); [by split|].
    destruct (is_boto_error e); by split.
Qed.

(** X12: a store without tagging.  When the tag lookup of [ensure_tags]
    is answered by a "not implemented" error, the function warns and
    then raises [UnboundLocalError]: the [return] reads
    [current_tags_dict], which the failed lookup never bound.  This is
    so whatever the [tags] parameter holds, also when no tags were asked
    for. *)
Theorem ensure_tags_on_a_store_without_tagging bucket obj (st : State) e w' :
  s3_call env (GetObjectTagging bucket obj None) (world st) = (Err e, w') →
  is_boto3_error_code env ["NoSuchTagSet"] e = false →
  is_boto3_error_code env ["NoSuchTagSetError"] e = false →
  is_boto3_error_code env IGNORE_S3_DROP_IN_EXCEPTIONS e = true →
  ensure_tags env p bucket obj st
  = (Raise (PyError "UnboundLocalError"),
     {| world := w';
        trace := trace st ++ [EvS3 (GetObjectTagging bucket obj None)];
        warnings := warnings st ++ ["GetObjectTagging is not implemented by your storage provider. Set the permission parameters to the empty list to avoid this warning."];
        permission := permission st |}).
Proof.
  intros Hcall H1 H2 H3.
  unfold ensure_tags, get_current_object_tags_dict, bind, try_except, s3,
    code_in.
  change (sent_version None) with (@None string).
  rewrite Hcall. simpl. rewrite H1, H2. simpl. by rewrite H3.
Qed.


(** ** The bounds of the download *)

Lemma py_range_empty lo hi : (hi ≤ lo)%Z → py_range lo hi = [].
Proof.
  intros H. unfold py_range. by replace (Z.to_nat (hi - lo)) with 0%nat by lia.
Qed.

(** X13: a negative [retries].  With [retries < 0] the loop of
    [download_s3file] has no pass: after the [get_object] call the
    function returns, having attempted no download and reported no
    failure, and so does the download stage of a GET. *)
Theorem negative_retries_download_nothing bucket obj location s3_url
    (st : State) body w' :
  p_check_mode p = false → (p_retries p < 0)%Z →
  s3_call env (GetObject bucket obj (sent_version (p_version p))) (world st)
  = (Ok body, w') →
  let st1 :=
    log (EvS3 (GetObject bucket obj (sent_version (p_version p)))) w' st in
  download_s3file env p bucket obj (p_dest p) (p_retries p) (p_version p) st
  = (Ret tt, st1)
  ∧ download_stage env p bucket obj location s3_url st = (Ret tt, st1).
Proof.
  intros Hcheck Hretries Hcall st1.
  assert (H : download_s3file env p bucket obj (p_dest p) (p_retries p)
                (p_version p) st = (Ret tt, st1)).
  { rewrite download_s3file_step, Hcheck, Hcall.
    by rewrite py_range_empty by lia. }
  split; [done|]. unfold download_stage, except_Sigv4Required. by rewrite H.
Qed.

(** ** Deleting a bucket whose versions cannot be listed *)

Lemma fallback_pages_raise (bucket : string) pages (st : State) :
  (∃ page, page ∈ pages ∧ page ≠ []) →
  for_each pages
    (λ page : list string,
       match page with
       | [] =>
           when (bool_decide (([] : list (string * option string)) ≠ []))
             (s3 env (DeleteObjects bucket []))
       | _ :: _ => raise (PyError "TypeError")
       end) st
  = (Raise (PyError "TypeError"), st).
Proof.
  induction pages as [|page pages IH]; intros (pg & Hin & Hne).
  - by apply elem_of_nil in Hin.
  - simpl. destruct page as [|key page]; [|done].
    apply elem_of_cons in Hin as [->|Hin]; [done|].
    unfold bind. simpl. apply IH. by exists pg.
Qed.

(** X14: [delete_bucket] when the versions cannot be listed.  When
    [list_object_versions] is refused (access denied) or not implemented,
    the keys are listed with [list_objects_v2] instead; but the fallback
    reads [data['Key']] from pages that hold the keys themselves, so as
    soon as one page is not empty [delete_bucket] raises [TypeError]
    right after the listing: no object and no bucket is deleted. *)
Theorem delete_bucket_fallback_raises bucket (st st1 : State) e w2 pages err
    w3 :
  p_check_mode p = false →
  bucket_check env bucket true st = (Ret true, st1) →
  s3_call env (ListObjectVersions bucket) (world st1) = (Err e, w2) →
  is_boto3_error_code env (IGNORE_S3_DROP_IN_EXCEPTIONS ++ ["AccessDenied"]) e
  = true →
  s3_call env (ListObjectsV2 bucket None None None) w2 = (Ok (pages, err), w3) →
  (∃ page, page ∈ pages ∧ page ≠ []) →
  is_boto3_error_code env ["NoSuchBucket"] (PyError "TypeError") = false →
  delete_bucket env p bucket st
  = (Raise (PyError "TypeError"),
     log (EvS3 (ListObjectsV2 bucket None None None)) w3
       (log (EvS3 (ListObjectVersions bucket)) w2 st1)).
Proof.
  intros Hcheck Hb Hversions Hcode Hlist Hpage Hno.
  unfold delete_bucket, paginated_versioned_list_with_fallback,
    paginated_list, paginate.
  rewrite Hcheck. unfold when at 1. unfold bind at 1. unfold ret at 1.
  unfold try_except at 1. unfold bind at 1. rewrite Hb. cbn [negb].
  unfold bind at 1. unfold bind at 1. unfold bind at 1.
  unfold try_except at 1. unfold s3 at 1. rewrite Hversions. cbn [ret fst snd].
  unfold bind at 1. cbn [for_each ret]. unfold code_in at 1. rewrite Hcode.
  unfold bind at 1. unfold bind at 1. unfold try_except at 1. unfold s3 at 1.
  cbn [world log]. rewrite Hlist. cbn [fst snd].
  rewrite (fallback_pages_raise bucket pages _ Hpage).
  unfold code_in. by rewrite Hno.
Qed.

End Edges.

(** * Failing before anything is sent *)

Section Prologue.

Context {W : Type}.
Variable env : Env W.
Variable p : Params.

Abbreviation M := (@M W).
Abbreviation State := (@State W).

Implicit Types (P : State → Prop) (R : Ending → State → Prop).

Lemma hoare_bind {A B} P (m : M A) (k : A → M B) Q Q' R :
  hoare P m Q R → (∀ a, hoare (Q a) (k a) Q' R) → hoare P (bind m k) Q' R.
Proof.
  intros Hm Hk st Hst. specialize (Hm st Hst). unfold bind.
  destruct (m st) as [[a|o|f|e|] st']; try done. by apply Hk.
Qed.

(** The code after a step that does not return is not run. *)
Lemma hoare_bind_stop {A B} P (m : M A) (k : A → M B) Q' R :
  hoare P m (λ _ _, False) R → hoare P (bind m k) Q' R.
Proof.
  intros Hm st Hst. specialize (Hm st Hst). unfold bind.
  by destruct (m st) as [[a|o|f|e|] st'].
Qed.

Lemma hoare_ret {A} P (a : A) (Q : A → State → Prop) R :
  (∀ st, P st → Q a st) → hoare P (ret a) Q R.
Proof. intros H st Hst. by apply H. Qed.

Lemma hoare_fail_json {A} P f (Q : A → State → Prop) R :
  (∀ st, P st → R (EFail f) st) → hoare P (fail_json f) Q R.
Proof. intros H st Hst. by apply H. Qed.

Lemma hoare_when P b (m : M unit) (Q : unit → State → Prop) R :
  (b = true → hoare P m Q R) → (∀ st, P st → Q tt st) →
  hoare P (when b m) Q R.
Proof. intros Hm Hq. destruct b; simpl; [by apply Hm | by apply hoare_ret]. Qed.

Lemma hoare_util {A} P (r : UtilReq A) (Q : A → State → Prop) R :
  (∀ st w' a, P st → Q a (log (EvUtil r) w' st)) →
  (∀ st w' x, P st → fails x → R x (log (EvUtil r) w' st)) →
  hoare P (util env r) Q R.
Proof.
  intros Hq Hr st Hst. unfold util.
  destruct (util_call env r (world st)) as [[a|e|f] w']; [by apply Hq|..];
    by apply Hr.
Qed.

Lemma hoare_get_permission P (Q : list string → State → Prop) R :
  (∀ st, P st → Q (permission st) st) → hoare P get_permission Q R.
Proof. intros H st Hst. by apply H. Qed.

Lemma hoare_normalize_overwrite P overwrite R :
  (∀ st f, P st → R (EFail f) st) →
  hoare P (normalize_overwrite env overwrite) (λ _, P) R.
Proof.
  intros Hr st Hst. unfold normalize_overwrite.
  destruct (negb _); [|done].
  destruct (module_boolean env overwrite) as [[|]|msg]; try done.
  by apply Hr.
Qed.

(** The steps of [main] up to the call of [get_aws_connection_info]:
    they keep [P], which does not depend on the trace, or fail. *)
Lemma hoare_before_the_connection {B} (k : string → option string → M B) w
    (Q : B → State → Prop) R :
  (∀ f, R (EFail f) (initial p w)) →
  (∀ w' x, fails x → R x (log (EvUtil GetAwsConnectionInfo) w' (initial p w))) →
  (∀ overwrite region w',
     hoare (λ st, st = log (EvUtil GetAwsConnectionInfo) w' (initial p w))
       (k overwrite region) Q R) →
  hoare (λ st, st = initial p w)
    (bind (match validate_bucket_name env (p_bucket p) with
           | Accept _ => ret tt
           | Reject msg => fail_json (fj msg)
           end)
       (λ _, bind (normalize_overwrite env (p_overwrite p))
          (λ overwrite,
             bind (when (bool_decide (overwrite = "different")
                         && negb (HAS_MD5 env))
                     (fail_json (fj "overwrite=different is unavailable: ETag calculation requires MD5 support")))
               (λ _, bind (util env GetAwsConnectionInfo) (k overwrite)))))
    Q R.
Proof.
  intros Hfail Hconn Hk.
  apply (hoare_bind _ _ _ (λ _ st, st = initial p w)).
  { destruct (validate_bucket_name _ _) as [[]|msg].
    - by apply hoare_ret.
    - apply hoare_fail_json. by intros st ->. }
  intros _. eapply hoare_bind.
  { apply hoare_normalize_overwrite. by intros st f ->. }
  intros overwrite. apply (hoare_bind _ _ _ (λ _ st, st = initial p w)).
  { apply hoare_when; [|done]. intros _. apply hoare_fail_json. by intros st ->. }
  intros _. intros st ->. unfold bind, util. cbn [world initial].
  destruct (util_call env GetAwsConnectionInfo w) as [[region|e|f] w'].
  - by apply (Hk overwrite region w').
  - by apply Hconn.
  - by apply Hconn.
Qed.


Lemma hoare_run_main w (Q : unit → State → Prop) R :
  hoare (λ st, st = initial p w) (main env p) Q R →
  match (run_main env p w).1 with
  | Ret a => Q a (run_main env p w).2
  | Exit o => R (EExit o) (run_main env p w).2
  | Fail f => R (EFail f) (run_main env p w).2
  | Raise e => R (ERaise e) (run_main env p w).2
  | RaiseSigv4Required => R ERaiseSigv4Required (run_main env p w).2
  end.
Proof.
  intros H. specialize (H (initial p w) eq_refl). unfold run_main.
  by destruct (main env p (initial p w)) as [[a|o|f|e|] st'].
Qed.

(** X15: the configurations that are refused before the connection is
    opened.  An object given together with [mode=delete], [dualstack]
    with an endpoint that is not of AWS, and [rgw] without an endpoint:
    each makes the invocation fail (or end in the exception of
    [get_aws_connection_info]) with no call on the trace but the one of
    [get_aws_connection_info]; no connection is opened and nothing is
    asked of the store. *)
Theorem misconfigurations_fail_before_connecting (w : W) :
  (truthy (normalize_object (p_object p)) = true ∧ p_mode p = ModeDelete)
  ∨ (p_dualstack p = true
     ∧ ∃ url, endpoint p = Some url ∧ str_contains "amazonaws.com" url = false)
  ∨ (p_rgw p = true ∧ truthy (endpoint p) = false) →
  let r := run_main env p w in
  Forall (λ ev, ev = EvUtil GetAwsConnectionInfo) (trace r.2)
  ∧ ((∃ f, r.1 = Fail f) ∨ (∃ e, r.1 = Raise e)).
Proof.
  intros Hbad r.
  set (R := λ (x : Ending) (st : State),
         Forall (λ ev, ev = EvUtil GetAwsConnectionInfo) (trace st)
         ∧ fails x).
  assert (H : hoare (λ st, st = initial p w) (main env p) (λ _ _, False) R).
  { unfold main. fold (endpoint p).
    apply hoare_before_the_connection.
    - intros f. by split; [constructor|].
    - intros w' x Hx. by split; [repeat constructor|].
    - intros overwrite region w'.
      set (st1 := log (EvUtil GetAwsConnectionInfo) w' (initial p w)).
      assert (Hstop : ∀ f, hoare (λ st, st = st1) (fail_json f)
                             (λ (_ : unit) _, False) R).
      { intros f. apply hoare_fail_json. intros st Hst. rewrite Hst.
        by split; [repeat constructor|]. }
      assert (Hpass : ∀ b f, hoare (λ st, st = st1) (when b (fail_json f))
                               (λ _ st, st = st1) R).
      { intros b f. apply hoare_when; [|done]. intros _.
        apply hoare_fail_json. intros st Hst. rewrite Hst.
        by split; [repeat constructor|]. }
      destruct Hbad as [[Ho Hm]|[(Hd & url & Hu & Hs)|[Hr Hu]]].
      + rewrite Ho, Hm. apply hoare_bind_stop, Hstop.
      + eapply hoare_bind; [apply Hpass|]. intros [].
        rewrite Hd, Hu, Hs. apply hoare_bind_stop, Hstop.
      + eapply hoare_bind; [apply Hpass|]. intros [].
        eapply hoare_bind; [apply Hpass|]. intros [].
        rewrite Hr, Hu. apply hoare_bind_stop, Hstop. }
  pose proof (hoare_run_main w _ _ H) as Hrun. fold r in Hrun.
  destruct r.1 as [a|o|f|e|]; try done; destruct Hrun as [Htr Hx]; try done;
    (split; [done|]); eauto.
Qed.


(** X16: an unknown permission.  When [permission] holds an entry that
    is neither a canned ACL of buckets nor one of objects, the invocation
    fails (or ends in an exception of the two connection helpers) before
    anything is asked of the store: the trace holds no call but those of
    [get_aws_connection_info] and [boto3_conn]. *)
Theorem unknown_permission_fails_before_any_request (w : W) :
  (∃ acl, acl ∈ p_permission p
          ∧ (acl ∉ bucket_canned_acl) ∧ (acl ∉ object_canned_acl)) →
  let r := run_main env p w in
  Forall (λ ev, method ev ∈ [m_get_aws_connection_info; m_boto3_conn])
    (trace r.2)
  ∧ ((∃ f, r.1 = Fail f) ∨ (∃ e, r.1 = Raise e)).
Proof.
  intros (acl & Hin & Hacl) r.
  set (ok := λ st : State,
         Forall (λ ev, method ev ∈ [m_get_aws_connection_info; m_boto3_conn])
           (trace st)).
  set (R := λ (x : Ending) (st : State), ok st ∧ fails x).
  set (P := λ st : State, ok st ∧ permission st = p_permission p).
  assert (H : hoare (λ st, st = initial p w) (main env p) (λ _ _, False) R).
  { unfold main. fold (endpoint p).
    apply hoare_before_the_connection.
    - intros f. by split; [constructor|].
    - intros w' x Hx. split; [|done]. repeat constructor.
    - intros overwrite region w'.
      assert (Hpass : ∀ b f, hoare P (when b (fail_json f)) (λ _, P) R).
      { intros b f. apply hoare_when; [|done]. intros _.
        apply hoare_fail_json. by intros st [Hok _]. }
      apply (hoare_bind _ _ _ (λ _, P)).
      { eapply hoare_when.
        - intros _. apply hoare_fail_json. intros st ->. split; [|done].
          repeat constructor.
        - intros st ->. split; [|done]. repeat constructor. }
      intros []. eapply hoare_bind; [apply Hpass|]. intros [].
      eapply hoare_bind; [apply Hpass|]. intros [].
      apply (hoare_bind _ _ _ (λ _, P)).
      { unfold get_s3_connection. apply hoare_util.
        - intros st w'' [] [Hok Hperm]. split; [|done].
          subst ok. simpl. apply Forall_app. split; [done|].
          repeat constructor.
        - intros st w'' x [Hok Hperm] Hx. split; [|done].
          subst ok. simpl. apply Forall_app. split; [done|].
          repeat constructor. }
      intros []. eapply hoare_bind.
      { apply (hoare_get_permission _
                 (λ l st, P st ∧ l = p_permission p)).
        by intros st [Hok Hperm]. }
      intros l. apply hoare_bind_stop.
      intros st [[Hok Hperm] ->].
      rewrite bool_decide_eq_true_2; [by split|].
      intros Hnil.
      assert (Hf : acl ∈ filter (λ acl, (acl ∉ bucket_canned_acl)
                                        ∧ acl ∉ object_canned_acl)
                         (p_permission p))
        by (by apply list_elem_of_filter).
      rewrite Hnil in Hf. by apply elem_of_nil in Hf. }
  pose proof (hoare_run_main w _ _ H) as Hrun. fold r in Hrun.
  destruct r.1 as [a|o|f|e|]; try done; destruct Hrun as [Htr Hx]; try done;
    (split; [done|]); eauto.
Qed.


(** ** A bucket that is not there *)

Lemma bucket_check_missing bucket validate (st : State) :
  (∀ w0, ∃ e w', s3_call env (HeadBucket bucket) w0 = (Err e, w')
                 ∧ is_boto3_error_code env ["404"] e = true) →
  ∃ w', bucket_check env bucket validate st
        = (Ret false, log (EvS3 (HeadBucket bucket)) w' st).
Proof.
  intros Hmissing. destruct (Hmissing (world st)) as (e & w' & Hcall & Hcode).
  exists w'. unfold bucket_check, bind, try_except, s3, code_in.
  rewrite Hcall. simpl. by rewrite Hcode.
Qed.

(** The steps of [main] from the connection to the check of the bucket,
    when the bucket is not there: they only call [boto3_conn] and
    [head_bucket], and [bucket_check] returns [False]. *)
Lemma hoare_up_to_the_bucket_check {B} (k : list string → bool → M B)
    location b1 f1 b2 f2
    b3 f3 (error_acl : list string → list string) (msg : list string → string)
    w w' (Q : B → State → Prop) R :
  let ok := λ st : State,
    Forall (λ ev, method ev ∈ prologue_methods) (trace st) in
  (∀ w0, ∃ e w1, s3_call env (HeadBucket (p_bucket p)) w0 = (Err e, w1)
                 ∧ is_boto3_error_code env ["404"] e = true) →
  (∀ st x, Forall (λ ev, method ev ∈ [m_get_aws_connection_info; m_boto3_conn])
             (trace st) → fails x → R x st) →
  (∀ permission, hoare ok (k permission false) Q R) →
  hoare (λ st, st = log (EvUtil GetAwsConnectionInfo) w' (initial p w))
    (bind (when b1 (fail_json f1))
       (λ _, bind (when b2 (fail_json f2))
          (λ _, bind (when b3 (fail_json f3))
             (λ _, bind (get_s3_connection env location (p_rgw p)
                           (endpoint p) false)
                (λ _, bind get_permission
                   (λ permission,
                      bind (when (bool_decide (error_acl permission ≠ []))
                              (fail_json (fj (msg permission))))
                        (λ _, bind (bucket_check env (p_bucket p)
                                      (negb (p_ignore_nonexistent_bucket p)))
                                (k permission)))))))) Q R.
Proof.
  intros ok Hmissing HR Hk.
  set (P := λ st : State,
         Forall (λ ev, method ev ∈ [m_get_aws_connection_info; m_boto3_conn])
           (trace st)).
  assert (Hpass : ∀ b f, hoare P (when b (fail_json f)) (λ _, P) R).
  { intros b f. apply hoare_when; [|done]. intros _.
    apply hoare_fail_json. intros st HP. by apply HR. }
  apply (hoare_bind _ _ _ (λ _, P)).
  { eapply hoare_when.
    - intros _. apply hoare_fail_json. intros st ->. apply HR; [|done].
      repeat constructor.
    - intros st ->. repeat constructor. }
  intros []. eapply hoare_bind; [apply Hpass|]. intros [].
  eapply hoare_bind; [apply Hpass|]. intros [].
  apply (hoare_bind _ _ _ (λ _, P)).
  { unfold get_s3_connection. apply hoare_util.
    - intros st w'' [] HP. subst P. simpl. apply Forall_app. split; [done|].
      repeat constructor.
    - intros st w'' x HP Hx. apply HR; [|done].
      simpl. apply Forall_app. split; [done|]. repeat constructor. }
  intros []. eapply hoare_bind.
  { apply (hoare_get_permission _ (λ _, P)). by intros st HP. }
  intros permission. eapply hoare_bind; [apply Hpass|]. intros [].
  intros st HP. unfold bind.
  destruct (bucket_check_missing (p_bucket p)
              (negb (p_ignore_nonexistent_bucket p)) st Hmissing) as [w1 ->].
  apply Hk. subst ok. simpl. apply Forall_app. split.
  - eapply Forall_impl; [exact HP|]. intros ev Hev. unfold prologue_methods.
    apply elem_of_cons in Hev as [->|Hev]; [repeat constructor|].
    apply elem_of_cons in Hev as [->|Hev]; [repeat constructor|].
    by apply elem_of_nil in Hev.
  - repeat constructor.
Qed.

(** X24: reading from a bucket that is not there.  When [head_bucket]
    answers 404 and the bucket checks are on, a GET, a GETURL, a GETSTR,
    a LIST and a DELOBJ fail with no call on the trace but those of the
    prologue; and once [head_bucket] has been called, the failure is
    "Source bucket cannot be found.": nothing is asked about the
    object. *)
Theorem reading_from_a_missing_bucket_fails (w : W) :
  (∀ w0, ∃ e w', s3_call env (HeadBucket (p_bucket p)) w0 = (Err e, w')
                 ∧ is_boto3_error_code env ["404"] e = true) →
  p_ignore_nonexistent_bucket p = false →
  p_mode p ∈ [ModeGet; ModeGetUrl; ModeGetStr; ModeList; ModeDelObj] →
  let r := run_main env p w in
  Forall (λ ev, method ev ∈ prologue_methods) (trace r.2)
  ∧ ((∃ f, r.1 = Fail f) ∨ (∃ e, r.1 = Raise e))
  ∧ (EvS3 (HeadBucket (p_bucket p)) ∈ trace r.2 →
     r.1 = Fail (fj "Source bucket cannot be found.")).
Proof.
  intros Hmissing Hvalidate Hmode r.
  set (head := EvS3 (HeadBucket (p_bucket p))).
  set (R := λ (x : Ending) (st : State),
         Forall (λ ev, method ev ∈ prologue_methods) (trace st)
         ∧ fails x
         ∧ (head ∈ trace st → x = EFail (fj "Source bucket cannot be found."))).
  assert (Hearly : ∀ (st : State) x,
    Forall (λ ev, method ev ∈ [m_get_aws_connection_info; m_boto3_conn])
      (trace st) → fails x → R x st).
  { intros st x Htr Hx. split; [|split; [done|]].
    - eapply Forall_impl; [exact Htr|]. intros ev Hev. unfold prologue_methods.
      apply elem_of_cons in Hev as [->|Hev]; [repeat constructor|].
      apply elem_of_cons in Hev as [->|Hev]; [repeat constructor|].
      by apply elem_of_nil in Hev.
    - intros Hin. rewrite Forall_forall in Htr. apply Htr in Hin.
      simpl in Hin. apply elem_of_cons in Hin as [Hin|Hin]; [done|].
      apply elem_of_cons in Hin as [Hin|Hin]; [done|].
      by apply elem_of_nil in Hin. }
  assert (H : hoare (λ st, st = initial p w) (main env p) (λ _ _, False) R).
  { unfold main. fold (endpoint p).
    apply hoare_before_the_connection.
    - intros f. apply Hearly; [constructor|done].
    - intros w' x Hx. apply Hearly; [repeat constructor|done].
    - intros overwrite region w'.
      apply (hoare_up_to_the_bucket_check _ _ _ _ _ _ _ _
               (filter (λ acl, (acl ∉ bucket_canned_acl)
                               ∧ (acl ∉ object_canned_acl)))
               (λ permission,
                  "Unknown permission specified: "
                    +:+ pyrepr_list
                          (filter (λ acl, (acl ∉ bucket_canned_acl)
                                          ∧ (acl ∉ object_canned_acl))
                             permission)));
        [exact Hmissing | exact Hearly |].
      intros permission. apply hoare_bind_stop. rewrite Hvalidate.
      assert (Hm : bool_decide (p_mode p ∈ [ModeCreate; ModePut; ModeDelete;
                                            ModeCopy]) = false).
      { apply bool_decide_eq_false. intros Hin.
        destruct (p_mode p); apply list_elem_of_In in Hmode, Hin;
          simpl in Hmode, Hin; intuition discriminate. }
      rewrite Hm. cbn [negb andb when]. apply hoare_fail_json.
      intros st Hst. by split. }
  pose proof (hoare_run_main w _ _ H) as Hrun. fold r in Hrun.
  destruct r.1 as [a|o|f|e|]; try done;
    destruct Hrun as (Htr & Hx & Hmsg); try done;
    (split; [done|]); (split; [eauto|]).
  - intros Hin. by injection (Hmsg Hin) as ->.
  - intros Hin. by specialize (Hmsg Hin).
Qed.


Lemma hoare_exit_json {A} P o (Q : A → State → Prop) R :
  (∀ st, P st → R (EExit o) st) → hoare P (exit_json o) Q R.
Proof. intros H st Hst. by apply H. Qed.

(** X25: deleting a bucket that is not there.  Outside check mode, when
    [head_bucket] answers 404, a DELETE lists nothing and deletes
    nothing: the trace holds no call but those of the prologue (the
    second look at the bucket is a [head_bucket] too), and when the
    invocation ends in [exit_json], it is the one at the end of [main],
    [exit_json(failed=False)], which reports no change. *)
Theorem deleting_a_missing_bucket_changes_nothing (w : W) :
  (∀ w0, ∃ e w', s3_call env (HeadBucket (p_bucket p)) w0 = (Err e, w')
                 ∧ is_boto3_error_code env ["404"] e = true) →
  p_check_mode p = false → p_mode p = ModeDelete →
  let r := run_main env p w in
  Forall (λ ev, method ev ∈ prologue_methods) (trace r.2)
  ∧ (∀ o, r.1 = Exit o →
       o = {| ej_msg := None; ej_changed := None; ej_url := None;
              ej_tags := None; ej_expiry := None; ej_contents := None;
              ej_s3_keys := None; ej_failed := Some false |})
  ∧ (∀ a, r.1 ≠ Ret a).
Proof.
  intros Hmissing Hcheck Hmode r.
  set (final := {| ej_msg := None; ej_changed := None; ej_url := None;
                   ej_tags := None; ej_expiry := None; ej_contents := None;
                   ej_s3_keys := None; ej_failed := Some false |}).
  set (ok := λ st : State,
         Forall (λ ev, method ev ∈ prologue_methods) (trace st)).
  set (R := λ (x : Ending) (st : State),
         ok st ∧ match x with
                 | EExit o => o = final
                 | EFail _ | ERaise _ => True
                 | ERaiseSigv4Required => False
                 end).
  assert (Hearly : ∀ (st : State) x,
    Forall (λ ev, method ev ∈ [m_get_aws_connection_info; m_boto3_conn])
      (trace st) → fails x → R x st).
  { intros st x Htr Hx. split; [|by destruct x].
    eapply Forall_impl; [exact Htr|]. intros ev Hev. unfold prologue_methods.
    apply elem_of_cons in Hev as [->|Hev]; [repeat constructor|].
    apply elem_of_cons in Hev as [->|Hev]; [repeat constructor|].
    by apply elem_of_nil in Hev. }
  assert (Hdelete : hoare ok (mode_delete env p (p_bucket p)) (λ _, ok) R).
  { intros st Hok. unfold mode_delete.
    destruct (nonempty (p_bucket p)); [|by split].
    unfold bind at 1. unfold delete_bucket. rewrite Hcheck.
    unfold when at 1. unfold bind at 1. unfold ret at 1.
    unfold try_except. unfold bind at 1.
    destruct (bucket_check_missing (p_bucket p) true st Hmissing) as [w1 ->].
    cbn [negb ret when]. subst ok. simpl. apply Forall_app. split; [done|].
    repeat constructor. }
  assert (H : hoare (λ st, st = initial p w) (main env p) (λ _ _, False) R).
  { unfold main. fold (endpoint p). rewrite Hmode.
    apply hoare_before_the_connection.
    - intros f. apply Hearly; [constructor|done].
    - intros w' x Hx. apply Hearly; [repeat constructor|done].
    - intros overwrite region w'.
      apply (hoare_up_to_the_bucket_check _ _ _ _ _ _ _ _
               (filter (λ acl, (acl ∉ bucket_canned_acl)
                               ∧ (acl ∉ object_canned_acl)))
               (λ permission,
                  "Unknown permission specified: "
                    +:+ pyrepr_list
                          (filter (λ acl, (acl ∉ bucket_canned_acl)
                                          ∧ (acl ∉ object_canned_acl))
                             permission)));
        [exact Hmissing | exact Hearly |].
      intros permission. apply (hoare_bind _ _ _ (λ _, ok)).
      { apply hoare_when; [|done]. intros _. apply hoare_fail_json.
        by intros st Hst. }
      intros []. decide_literals. cbn [when].
      repeat (apply (hoare_bind _ _ _ (λ _, ok));
              [first [by apply hoare_ret | exact Hdelete]|]; intros []).
      apply hoare_exit_json. by intros st Hst. }
  pose proof (hoare_run_main w _ _ H) as Hrun. fold r in Hrun.
  destruct r.1 as [a|o|f|e|]; try done; destruct Hrun as [Htr Hx];
    (split; [done|]); split; try done.
  by intros o' [= <-].
Qed.

End Prologue.

(** * Copies and directories *)

Section Copies.

Context {W : Type}.
Variable env : Env W.
Variable p : Params.

Abbreviation M := (@M W).
Abbreviation State := (@State W).

(** What [copy_object_to_bucket] does once the source object has been
    looked up. *)
Lemma copy_object_to_bucket_after_lookup bucket obj validate d_etag cs
    (st st1 : State) s_etag st2 :
  p_check_mode p = false → p_copy_src p = Some cs →
  key_check env (cs_bucket cs) (Some (cs_object cs)) (cs_version_id cs)
    validate st = (Ret true, st1) →
  get_etag env (cs_bucket cs) (Some (cs_object cs)) (cs_version_id cs) st1
  = (Ret s_etag, st2) →
  copy_object_to_bucket env p bucket obj validate d_etag st
  = try_except
      (if bool_decide (s_etag = d_etag) then
         bind (ensure_tags env p bucket obj)
           (λ tc,
              if negb tc.2 then
                exit_json (ej "ETag from source and destination are the same"
                             (Some false))
              else
                exit_json {| ej_msg := Some "tags successfully updated.";
                             ej_changed := Some tc.2; ej_url := None;
                             ej_tags := Some tc.1; ej_expiry := None;
                             ej_contents := None; ej_s3_keys := None;
                             ej_failed := None |})
       else
         bind (s3 env (CopyObject bucket obj (cs_bucket cs) (cs_object cs)
                         (cs_version_id cs)))
           (λ _,
              bind (bind get_permission
                      (λ permission,
                         for_each permission
                           (λ acl, s3 env (PutObjectAcl acl bucket obj))))
                (λ _,
                   bind (ensure_tags env p bucket obj)
                     (λ tc,
                        exit_json
                          {| ej_msg := Some ("Object copied from bucket "
                                               +:+ cs_bucket cs
                                               +:+ " to bucket "
                                               +:+ bucket +:+ ".");
                             ej_changed := Some true; ej_url := None;
                             ej_tags := Some tc.1; ej_expiry := None;
                             ej_contents := None; ej_s3_keys := None;
                             ej_failed := None |}))))
      (λ e,
         if code_in env IGNORE_S3_DROP_IN_EXCEPTIONS e then
           Some (warn "PutObjectAcl is not implemented by your storage provider. Set the permissions parameters to the empty list to avoid this warning")
         else if is_boto_error e then
           Some (fail_json_aws e
                   ("Failed while copying object " +:+ pystr obj
                      +:+ " from bucket " +:+ pystr None +:+ "."))
         else None) st2.
Proof.
  intros Hcheck Hcs Hk He. unfold copy_object_to_bucket.
  rewrite Hcheck, Hcs. unfold when at 1. unfold bind at 1. unfold ret at 1.
  unfold try_except. unfold bind at 1. rewrite Hk.
  unfold bind at 1. cbn [negb when ret]. unfold bind at 1. rewrite He.
  reflexivity.
Qed.


Lemma trace_after_call_in_try {A B} (r : S3Req A) (k : A → M B) handler st :
  (∀ a, bounded (λ _, false) 0 (k a)) →
  (∀ e, match handler e with
        | Some h => bounded (λ _, false) 0 h
        | None => True
        end) →
  ∃ l, trace (try_except (bind (s3 env r) k) handler st).2
       = trace st ++ EvS3 r :: l.
Proof.
  intros Hk Hh. unfold try_except at 1. unfold bind at 1. unfold s3 at 1.
  destruct (s3_call env r (world st)) as [[a|e] w'].
  - destruct (bounded_try_except0 (λ _, false) (k a) handler (Hk a) Hh
                (log (EvS3 r) w' st)) as (l & E & _).
    exists l. unfold try_except in E. rewrite E. simpl.
    by rewrite <- app_assoc.
  - specialize (Hh e). destruct (handler e) as [h|].
    + destruct (Hh (log (EvS3 r) w' st)) as (l & E & _).
      exists l. rewrite E. simpl. by rewrite <- app_assoc.
    + by exists [].
Qed.

Lemma footprint_extends {A} (ms : list Method) (m : M A) :
  (∀ c, (∀ ev, method ev ∈ ms → c ev = false) →
        follows (λ _, True) c m (λ _, True)) →
  bounded (λ _, false) 0 m.
Proof. intros H. apply follows_bounded, H. done. Qed.

(** X17: what decides a copy.  When the source object does not exist
    the invocation ends with [changed = false] right after the lookup:
    it is not a failure.  When the ETag of the source equals the ETag of
    the destination, no [copy_object] is sent: all that follows the two
    lookups of the source are tagging calls.  When the ETags differ,
    [copy_object] is the next call. *)
Theorem copy_is_decided_by_the_etags bucket obj validate d_etag cs
    (st : State) :
  p_check_mode p = false → p_copy_src p = Some cs →
  let src_bucket := cs_bucket cs in
  let src_key := cs_object cs in
  let version := cs_version_id cs in
  let r := copy_object_to_bucket env p bucket obj validate d_etag st in
  (∀ st1,
     key_check env src_bucket (Some src_key) version validate st
     = (Ret false, st1) →
     r = (Exit (ej ("Key " +:+ src_key +:+ " does not exist in bucket "
                      +:+ src_bucket +:+ ".") (Some false)), st1))
  ∧ (∀ st1 s_etag st2,
       key_check env src_bucket (Some src_key) version validate st
       = (Ret true, st1) →
       get_etag env src_bucket (Some src_key) version st1 = (Ret s_etag, st2) →
       (s_etag = d_etag →
        ∃ l, trace r.2 = trace st2 ++ l
             ∧ Forall (λ ev, method ev ∈ tagging_methods) l)
       ∧ (s_etag ≠ d_etag →
          ∃ l, trace r.2
               = trace st2
                 ++ EvS3 (CopyObject bucket obj src_bucket src_key version)
                    :: l)).
Proof.
  intros Hcheck Hcs src_bucket src_key version r. split.
  - intros st1 Hk. subst r. unfold copy_object_to_bucket.
    rewrite Hcheck, Hcs. unfold when at 1. unfold bind at 1. unfold ret at 1.
    unfold try_except. unfold bind at 1.
    fold src_bucket src_key version. by rewrite Hk.
  - intros st1 s_etag st2 Hk He. subst r.
    rewrite (copy_object_to_bucket_after_lookup _ _ _ _ _ _ _ _ _
               Hcheck Hcs Hk He).
    split; intros Hetag.
    + rewrite bool_decide_eq_true_2 by done.
      apply (only_calls_intro tagging_methods). intros c Hc.
      unfold tagging_methods in Hc.
      apply keeps_try_except; [|footprint].
      apply keeps_bind; [by apply ensure_tags_calls | footprint].
    + rewrite bool_decide_eq_false_2 by done.
      apply trace_after_call_in_try.
      * intros _.
        apply (footprint_extends (m_put_object_acl :: tagging_methods)).
        intros c Hc. unfold tagging_methods in Hc.
        apply keeps_bind; [footprint|]. intros ?.
        apply keeps_bind; [apply ensure_tags_calls; sub_methods | footprint].
      * intros e. destruct (code_in _ _ _); [apply bounded_warn|].
        destruct (is_boto_error e); [apply bounded_fail_json_aws|done].
Qed.

(** ** The keys of a CREATE *)

Lemma endswith_slash_app s : endswith_slash (s +:+ "/") = true.
Proof.
  induction s as [|ch s IH]; [done|].
  simpl. destruct s as [|ch' s]; [done|]. exact IH.
Qed.

Lemma endswith_slash_as_directory s : endswith_slash (as_directory s) = true.
Proof.
  unfold as_directory. destruct (endswith_slash s) eqn:E; [done|].
  apply endswith_slash_app.
Qed.

(** X18: the keys of a CREATE.  In create mode every call that names a
    key names one that ends in [/]: the directory made of the object
    key.  A key that already ends in [/] is left as it is, so that making
    a directory of a directory changes nothing. *)
Theorem create_names_a_directory (w : W) :
  p_mode p = ModeCreate →
  Forall (λ ev, ∀ key, event_key ev = Some (Some key) →
                       endswith_slash key = true)
    (trace (run_main env p w).2)
  ∧ (∀ key, as_directory (as_directory key) = as_directory key).
Proof.
  intros Hm. split.
  - set (ok := λ ev, match event_key ev with
                     | Some (Some key) => endswith_slash key
                     | _ => true
                     end).
    set (dirobj := as_directory <$> normalize_object (p_object p)).
    assert (Hc : ∀ ev, on_key dirobj ev = true → negb (ok ev) = false).
    { intros ev H. unfold on_key, keyed, ok in *.
      destruct (event_key ev) as [[key|]|]; try done.
      apply andb_prop in H as [H _]. apply andb_prop in H as [H _].
      apply bool_decide_eq_true in H. subst dirobj.
      destruct (normalize_object (p_object p)) as [o|]; [|done].
      injection H as ->. by rewrite endswith_slash_as_directory. }
    destruct (main_bounded env p (λ ev, negb (ok ev)) 0 0)
      with (st := initial p w) as (l & Htr & Hl);
      try (intros H; rewrite Hm in H; try done;
           apply list_elem_of_In in H; simpl in H; intuition discriminate).
    + by exists dirobj.
    + unfold run_main. rewrite Htr. simpl.
      assert (Hz : count (λ ev, negb (ok ev)) l = 0%nat) by lia.
      apply count_zero_Forall in Hz.
      eapply Forall_impl; [exact Hz|]. intros ev Hev key Hkey.
      simpl in Hev. unfold ok in Hev. rewrite Hkey in Hev.
      by apply negb_false_iff in Hev.
  - intros key. unfold as_directory at 1.
    by rewrite endswith_slash_as_directory.
Qed.

End Copies.

(** * The names of the extra arguments *)

Lemma lower_ascii_idemp c :
  Scenario.lower_ascii (Scenario.lower_ascii c) = Scenario.lower_ascii c.
Proof. by destruct c as [[] [] [] [] [] [] [] []]. Qed.

Lemma lower_ascii_dash c :
  bool_decide (Scenario.lower_ascii c = "-"%char) = bool_decide (c = "-"%char).
Proof. by destruct c as [[] [] [] [] [] [] [] []]. Qed.

Lemma lower_idemp s : Scenario.lower (Scenario.lower s) = Scenario.lower s.
Proof.
  induction s as [|c s IH]; [done|]. simpl. by rewrite lower_ascii_idemp, IH.
Qed.

Lemma remove_dashes_lower s :
  remove_dashes (Scenario.lower s) = Scenario.lower (remove_dashes s).
Proof.
  induction s as [|c s IH]; [done|]. simpl. rewrite lower_ascii_dash.
  destruct (bool_decide (c = "-"%char)); [done|]. simpl. by rewrite IH.
Qed.

Lemma remove_dashes_app s1 s2 :
  remove_dashes (s1 +:+ s2) = remove_dashes s1 +:+ remove_dashes s2.
Proof.
  induction s1 as [|c s1 IH]; [done|]. simpl.
  destruct (bool_decide (c = "-"%char)); [done|]. simpl. by rewrite IH.
Qed.

Lemma assoc_elem_of {B} k (l : list (string * B)) v :
  Scenario.assoc k l = Some v → v ∈ l.*2.
Proof.
  induction l as [|[k' v'] l IH]; [done|]. simpl.
  destruct (bool_decide (k = k')).
  - intros [= ->]. left.
  - intros H. right. by apply IH.
Qed.

(** X19: the names of the extra arguments.  [option_in_extra_args]
    looks at the name of a metadata entry without its dashes and without
    regard to case: a name, the name in lower case and the name with a
    dash put anywhere in it are recognised alike.  What it answers is
    one of the twenty argument names of boto3, and each of these names
    is recognised as itself. *)
Theorem option_in_extra_args_normalises :
  (∀ option, ascii_only option = true →
     option_in_extra_args (Scenario.lower option) = option_in_extra_args option)
  ∧ (∀ s1 s2, ascii_only (s1 +:+ s2) = true →
       option_in_extra_args (s1 +:+ "-" +:+ s2)
       = option_in_extra_args (s1 +:+ s2))
  ∧ (∀ option name,
       option_in_extra_args option = Some name →
       name ∈ allowed_extra_args.*2
       ∧ option_in_extra_args name = Some name).
Proof.
  split; [|split].
  - intros option _. unfold option_in_extra_args.
    by rewrite remove_dashes_lower, lower_idemp.
  - intros s1 s2 _. unfold option_in_extra_args.
    by rewrite !remove_dashes_app.
  - intros option name H. apply assoc_elem_of in H. split; [done|].
    simpl in H.
    repeat (apply elem_of_cons in H as [->|H]; [reflexivity|]).
    by apply elem_of_nil in H.
Qed.

(** * Answers that say "not implemented" *)

Section NotImplemented.

Context {W : Type}.
Variable env : Env W.
Variable p : Params.

Abbreviation State := (@State W).

(** X20: "not implemented" is only warned about, also for the call that
    does the work.  The [try] blocks of [create_bucket] and
    [copy_object_to_bucket] hold the call that creates the bucket, or
    copies the object, together with the ACL calls, and their handler
    for the "not implemented" codes only warns about the ACLs.  So when
    the store answers [create_bucket] itself with such a code,
    [create_bucket] returns as if the bucket had been made, and a CREATE
    of a bucket reports "Bucket created successfully" with
    [changed = true]; and when it answers [copy_object] with such a
    code, [copy_object_to_bucket] returns without a failure. *)
Theorem not_implemented_is_only_warned_about bucket location :
  p_check_mode p = false →
  let configuration :=
    if bool_decide (location = "us-east-1") then None else Some location in
  let create := EvS3 (CreateBucket bucket configuration) in
  let acl_warning :=
    "PutBucketAcl is not implemented by your storage provider. Set the permission parameters to the empty list to avoid this warning" in
  (∀ (st : State) e w',
     s3_call env (CreateBucket bucket configuration) (world st) = (Err e, w') →
     is_boto3_error_code env IGNORE_S3_DROP_IN_EXCEPTIONS e = true →
     create_bucket env p bucket location st
     = (Ret (if nonempty bucket then Some true else None),
        warned create w' acl_warning st)
     ∧ (∀ obj bucket_acl object_acl,
          nonempty bucket = true → truthy obj = false →
          mode_create env p bucket obj location false bucket_acl object_acl st
          = (Exit (ej "Bucket created successfully" (Some true)),
             warned create w' acl_warning
               (set_permission bucket_acl st).2)))
  ∧ (∀ obj validate d_etag cs (st st1 : State) s_etag st2 e w',
       p_copy_src p = Some cs →
       key_check env (cs_bucket cs) (Some (cs_object cs)) (cs_version_id cs)
         validate st = (Ret true, st1) →
       get_etag env (cs_bucket cs) (Some (cs_object cs)) (cs_version_id cs) st1
       = (Ret s_etag, st2) →
       s_etag ≠ d_etag →
       s3_call env (CopyObject bucket obj (cs_bucket cs) (cs_object cs)
                      (cs_version_id cs)) (world st2) = (Err e, w') →
       is_boto3_error_code env IGNORE_S3_DROP_IN_EXCEPTIONS e = true →
       copy_object_to_bucket env p bucket obj validate d_etag st
       = (Ret tt,
          warned (EvS3 (CopyObject bucket obj (cs_bucket cs) (cs_object cs)
                          (cs_version_id cs))) w'
            "PutObjectAcl is not implemented by your storage provider. Set the permissions parameters to the empty list to avoid this warning"
            st2)).
Proof.
  intros Hcheck configuration create acl_warning. split.
  - intros st e w' Hcall Hcode.
    assert (Hcreate : ∀ st0 : State, world st0 = world st →
      create_bucket env p bucket location st0
      = (Ret (if nonempty bucket then Some true else None),
         warned create w' acl_warning st0)).
    { intros st0 Hw. unfold create_bucket. rewrite Hcheck.
      unfold when at 1. unfold bind at 1. unfold ret at 1.
      unfold bind at 1. unfold try_except at 1. unfold bind at 1.
      unfold s3 at 1. fold configuration. rewrite Hw, Hcall.
      unfold code_in. rewrite Hcode. unfold warn.
      by destruct (nonempty bucket). }
    split; [by apply Hcreate|].
    intros obj bucket_acl object_acl Hb Ho. unfold mode_create.
    rewrite Hb, Ho. cbn [negb andb when]. unfold bind at 1. unfold bind at 1.
    unfold set_permission at 1. unfold bind at 1.
    rewrite Hcreate by done. by rewrite Hb.
  - intros obj validate d_etag cs st st1 s_etag st2 e w' Hcs Hk He Hne Hcall
      Hcode.
    rewrite (copy_object_to_bucket_after_lookup _ _ _ _ _ _ _ _ _ _ _
               Hcheck Hcs Hk He).
    rewrite bool_decide_eq_false_2 by done.
    unfold try_except, bind, s3. rewrite Hcall.
    unfold code_in. by rewrite Hcode.
Qed.

End NotImplemented.

(** * What a successful end reports *)

Section Exits.

Context {W : Type}.
Variable env : Env W.
Variable p : Params.
Variable φ : ExitJson → Prop.

Abbreviation M := (@M W).

Lemma exits_with_ret {A} (a : A) : exits_with φ (@ret W A a).
Proof. by intros st o st'. Qed.

Lemma exits_with_fail_json {A} f : exits_with φ (@fail_json W A f).
Proof. by intros st o st'. Qed.

Lemma exits_with_fail_json_aws {A} e msg :
  exits_with φ (@fail_json_aws W A e msg).
Proof. by intros st o st'. Qed.

Lemma exits_with_raise {A} e : exits_with φ (@raise W A e).
Proof. by intros st o st'. Qed.

Lemma exits_with_raise_Sigv4Required {A} :
  exits_with φ (@raise_Sigv4Required W A).
Proof. by intros st o st'. Qed.

Lemma exits_with_exit_json {A} o : φ o → exits_with φ (@exit_json W A o).
Proof. intros H st o' st' [= <- _]. exact H. Qed.

Lemma exits_with_s3 {A} (r : S3Req A) : exits_with φ (s3 env r).
Proof.
  intros st o st'. unfold s3. by destruct (s3_call _ _ _) as [[a|e] w'].
Qed.

Lemma exits_with_util {A} (r : UtilReq A) : exits_with φ (util env r).
Proof.
  intros st o st'. unfold util. by destruct (util_call _ _ _) as [[a|e|f] w'].
Qed.

Lemma exits_with_bind {A B} (m : M A) (k : A → M B) :
  exits_with φ m → (∀ a, exits_with φ (k a)) → exits_with φ (bind m k).
Proof.
  intros Hm Hk st o st'. unfold bind.
  destruct (m st) as [[a|o'|f|e|] st1] eqn:E; try done.
  - apply Hk.
  - intros [= <- <-]. by eapply Hm.
Qed.

Lemma exits_with_try_except {A} (m : M A) handler :
  exits_with φ m →
  (∀ e, match handler e with Some h => exits_with φ h | None => True end) →
  exits_with φ (try_except m handler).
Proof.
  intros Hm Hh st o st'. unfold try_except.
  destruct (m st) as [[a|o'|f|e|] st1] eqn:E; try done.
  - intros [= <- <-]. by eapply Hm.
  - specialize (Hh e). destruct (handler e); [apply Hh | done].
Qed.

Lemma exits_with_except_Sigv4Required {A} (m h : M A) :
  exits_with φ m → exits_with φ h → exits_with φ (except_Sigv4Required m h).
Proof.
  intros Hm Hh st o st'. unfold except_Sigv4Required.
  destruct (m st) as [[a|o'|f|e|] st1] eqn:E; try done.
  - intros [= <- <-]. by eapply Hm.
  - apply Hh.
Qed.

Lemma exits_with_when b (m : M unit) :
  (b = true → exits_with φ m) → exits_with φ (when b m).
Proof. intros H. destruct b; [by apply H | apply exits_with_ret]. Qed.

End Exits.

Ltac exits_step :=
  first
    [ apply exits_with_ret | apply exits_with_fail_json
    | apply exits_with_fail_json_aws | apply exits_with_raise
    | apply exits_with_raise_Sigv4Required
    | apply exits_with_s3 | apply exits_with_util
    | apply exits_with_exit_json; solve [repeat split]
    | apply exits_with_bind | apply exits_with_try_except
    | apply exits_with_except_Sigv4Required
    | apply exits_with_when; intros _
    | exact I
    | progress intros
    | match goal with |- context [if ?b then _ else _] => destruct b end
    | match goal with |- context [match ?x with _ => _ end] => destruct x end ].

Ltac exits := repeat exits_step.

Section Reports.

Context {W : Type}.
Variable env : Env W.
Variable p : Params.

(** X21: what the branches that read or delete report.  A GETSTR, a
    GETURL and a DELOBJ that end in [exit_json] report [changed = true],
    whatever they found (a GETURL with the message of the download URL);
    a LIST reports no [changed] at all. *)
Theorem what_reads_and_deletes_report bucket obj validate location s3_url :
  exits_with (λ o, ej_changed o = Some true)
    (mode_getstr env p bucket obj validate location s3_url)
  ∧ exits_with (λ o, ej_changed o = Some true
                     ∧ ej_msg o = Some "Download url:")
      (mode_geturl env p bucket obj validate)
  ∧ exits_with (λ o, ej_changed o = Some true) (mode_delobj env p bucket obj)
  ∧ exits_with (λ o, ej_changed o = None
                     ∧ ej_msg o = Some "LIST operation complete")
      (mode_list env p bucket).
Proof.
  split; [|split; [|split]].
  - unfold mode_getstr, key_check, download_s3str, get_s3_connection. exits.
  - unfold mode_geturl, key_check, get_current_object_tags_dict,
      get_download_url. exits.
  - unfold mode_delobj, delete_key. exits.
  - unfold mode_list, bucket_check, list_keys, paginated_list, paginate,
      raise_if_some. exits.
Qed.

End Reports.

(** * Transfers that fail, and transfers that are tried again *)

Section Transfers.

Context {W : Type}.
Variable env : Env W.
Variable p : Params.

Abbreviation State := (@State W).

(** X22: a failed upload is the last call.  When the upload of
    [upload_s3file] is answered by an error, the function ends there: in
    [fail_json] for an error of boto3, in the exception itself
    otherwise.  No ACL is set and no tag written for an object that was
    not uploaded. *)
Theorem failed_upload_is_the_last_call bucket obj expiry src content
    (st : State) e w' :
  p_check_mode p = false →
  let upload : S3Req unit :=
    match src with
    | Some filename => UploadFile filename bucket obj
    | None => UploadFileobj content bucket obj
    end in
  s3_call env upload (world st) = (Err e, w') →
  upload_s3file env p bucket obj expiry src content st
  = (if is_boto_error e
     then Fail (fj_aws e "Unable to complete PUT operation.")
     else Raise e,
     log (EvS3 upload) w' st).
Proof.
  intros Hcheck upload Hcall. unfold upload_s3file. rewrite Hcheck.
  unfold when at 1. unfold bind at 1. unfold ret at 1. unfold bind at 1.
  unfold try_except at 1. subst upload.
  destruct src as [filename|]; unfold s3 at 1; rewrite Hcall;
    by destruct (is_boto_error e).
Qed.

Lemma py_range_cons lo hi :
  (lo < hi)%Z → py_range lo hi = lo :: py_range (lo + 1) hi.
Proof.
  intros H. unfold py_range.
  replace (Z.to_nat (hi - lo)) with (S (Z.to_nat (hi - (lo + 1)))) by lia.
  simpl. rewrite Z.add_0_r. f_equal.
  rewrite <- fmap_S_seq, <- list_fmap_compose. apply list_fmap_ext.
  intros i x _. simpl. lia.
Qed.

(** The retry loop from the pass [lo] on, when the download fails
    [length errors] more times and then succeeds. *)
Lemma download_loop_succeeds bucket obj dest retries version errors :
  let download := DownloadFile bucket obj dest (sent_version version) in
  ∀ lo (st : State) w1 w2,
    Forall (λ e, is_boto_error e = true ∨ is_SSLError e = true) errors →
    (lo + Z.of_nat (length errors) ≤ retries)%Z →
    failed_attempts env download (world st) errors w1 →
    s3_call env download w1 = (Ok tt, w2) →
    let r := for_each (py_range lo (retries + 1))
               (download_attempt env bucket obj dest retries version) st in
    r.1 = Exit (ej "GET operation complete" (Some true))
    ∧ trace r.2 = trace st ++ replicate (S (length errors)) (EvS3 download)
    ∧ world r.2 = w2.
Proof.
  intros download.
  induction errors as [|e errors IH]; intros lo st w1 w2 Herr Hlo Hfail Hok r;
    subst r; rewrite py_range_cons by (simpl in Hlo; lia);
    simpl; unfold bind; rewrite download_attempt_step; fold download.
  - simpl in Hfail. subst w1. rewrite Hok. by simpl.
  - destruct Hfail as (w' & Hcall & Hrest). rewrite Hcall.
    apply Forall_cons in Herr as [He Herr].
    assert (Hx : (lo >=? retries) = false).
    { rewrite Z.geb_leb. apply Z.leb_gt. simpl in Hlo. lia. }
    rewrite Hx.
    set (st1 := log (EvS3 download) w' st).
    assert (Hgo : (if is_boto_error e then (Ret tt, st1)
                   else if is_SSLError e then (Ret tt, st1)
                   else (Raise e, st1)) = (Ret tt, st1)).
    { destruct He as [-> | He]; [done|].
      rewrite He. by destruct (is_boto_error e). }
    rewrite Hgo.
    destruct (IH (lo + 1)%Z st1 w1 w2 Herr) as (Hres & Htr & Hw);
      [simpl in Hlo; lia | exact Hrest | exact Hok |].
    split; [exact Hres|]. split; [|exact Hw].
    rewrite Htr. subst st1. simpl. by rewrite <- app_assoc.
Qed.

(** X23: transient failures of the download are tried again.  When
    [get_object] succeeds, the download fails with errors of boto3 or of
    SSL no more than [retries] times and then succeeds, [download_s3file]
    ends the invocation with "GET operation complete" and
    [changed = true], having sent one [download_file] per attempt. *)
Theorem transient_download_failures_are_retried bucket obj dest retries
    version (st : State) body w0 errors w1 w2 :
  let get := GetObject bucket obj (sent_version version) in
  let download := DownloadFile bucket obj dest (sent_version version) in
  p_check_mode p = false →
  s3_call env get (world st) = (Ok body, w0) →
  Forall (λ e, is_boto_error e = true ∨ is_SSLError e = true) errors →
  (Z.of_nat (length errors) ≤ retries)%Z →
  failed_attempts env download w0 errors w1 →
  s3_call env download w1 = (Ok tt, w2) →
  let r := download_s3file env p bucket obj dest retries version st in
  r.1 = Exit (ej "GET operation complete" (Some true))
  ∧ trace r.2
    = trace st ++ [EvS3 get] ++ replicate (S (length errors)) (EvS3 download)
  ∧ world r.2 = w2.
Proof.
  intros get download Hcheck Hget Herr Hn Hfail Hok r. subst r.
  rewrite download_s3file_step, Hcheck. fold get. rewrite Hget.
  destruct (download_loop_succeeds bucket obj dest retries version errors 0
              (log (EvS3 get) w0 st) w1 w2 Herr)
    as (Hres & Htr & Hw); [lia | exact Hfail | exact Hok |].
  split; [exact Hres|]. split; [|exact Hw].
  rewrite Htr. simpl. by rewrite <- app_assoc.
Qed.

End Transfers.

(** * The further properties on examples *)

(** X4 on an example: a PUT in check mode, of a file to an object that
    exists and whose tags differ from the tags asked for. *)
Lemma check_mode_witness :
  let env := Scenario.env true in
  let p := Cases.check_mode_put in
  let w := Scenario.store
             [Scenario.AOk; Scenario.object_head "abc" 100;
              Scenario.ATags (Some [("c", "d")]); Scenario.AOk;
              Scenario.ATags (Some [("a", "b"); ("c", "d")])] in
  Forall (λ ev, is_change ev = true →
                p_mode p = ModePut ∧ is_tag_mutation ev = true)
    (trace (run_main env p w).2).
Proof.
  intros env p w.
  apply (check_mode_changes_nothing_but_tags env p w). reflexivity.
Defined.


(** X8 on an example: the PUT of [check_mode_witness].  The object has
    the tag [c=d], the request asks for [a=b] without purge, and the
    merged tags are written although the run is in check mode. *)
Lemma check_mode_tags_witness :
  let env := Scenario.env true in
  let p := Cases.check_mode_put in
  let st := initial p (Scenario.store
              [Scenario.object_head "abc" 100;
               Scenario.ATags (Some [("c", "d")]); Scenario.AOk;
               Scenario.ATags (Some [("a", "b"); ("c", "d")])]) in
  let run := mode_put env p "mybucket" (Some "k") "never" true "us-east-1"
               true ["private"] ["private"] st in
  p_check_mode p = true
  ∧ ∃ (st2 : @State Scenario.World) l,
      trace run.2
      = trace st2
        ++ EvS3 (PutObjectTagging "mybucket" (Some "k")
                   (ansible_dict_to_boto3_tag_list env
                      (Scenario.tags_ab ∪ Scenario.tags_cd))) :: l.
Proof.
  intros env p st run. split; [reflexivity|].
  set (st1 := (key_check env "mybucket" (Some "k") None true st).2).
  set (st2 := (get_current_object_tags_dict env "mybucket" (Some "k") None
                 st1).2).
  exists st2.
  refine (proj1 (put_reconciles_tags_before_the_check_mode_guard env p
                   "mybucket" (Some "k") true "us-east-1" ["private"]
                   ["private"] st None st1 Scenario.tags_ab Scenario.tags_cd
                   st2 _ _ _ _ _ _)).
  - split; [by intros (_ & _ & H)|]. split; [intros f [= <-]; reflexivity|].
    split; [by intros c H|reflexivity].
  - reflexivity.
  - reflexivity.
  - reflexivity.
  - intros H. apply (f_equal (λ m : Tags, m !! "a")) in H. discriminate H.
  - intros H. apply (f_equal (λ m : Tags, m !! "a")) in H. discriminate H.
Defined.

(** X9 on an example: a GET of a key that [head_object] does not
    find. *)
Lemma missing_key_witness :
  let env := Scenario.env true in
  let p := Scenario.get_request "always" 0 in
  let st := initial p (Scenario.store [Scenario.AErr Cases.not_found]) in
  mode_get env p "mybucket" (Some "k") "always" true "us-east-1" None st
  = (Fail (fj "Key k does not exist."),
     log (EvS3 (HeadObject "mybucket" (Some "k") None)) (Scenario.store []) st).
Proof.
  intros env p st.
  exact (proj1 (reading_a_missing_key_fails env p "mybucket" (Some "k") true
                  "us-east-1" None st Cases.not_found (Scenario.store [])
                  eq_refl eq_refl) "always").
Defined.

(** X10 on an example: the request asks for no tags, with purge, of an
    object that has the tag [c=d]; the tags are deleted. *)
Lemma purge_witness :
  let env := Scenario.env true in
  let p := Scenario.tag_request ∅ true in
  let st := initial p (Scenario.store
              [Scenario.ATags (Some [("c", "d")]); Scenario.AOk;
               Scenario.ATags (Some [])]) in
  let r := ensure_tags env p "mybucket" (Some "k") st in
  (∃ l, trace r.2
        = [EvS3 (GetObjectTagging "mybucket" (Some "k") None)]
          ++ EvS3 (DeleteObjectTagging "mybucket" (Some "k")) :: l
        ∧ count is_tag_mutation l = 0%nat)
  ∧ (∀ live changed, r.1 = Ret (live, changed) → live = ∅ ∧ changed = true).
Proof.
  intros env p st r.
  refine (ensure_tags_purge_replaces env p "mybucket" (Some "k") ∅ st
            Scenario.tags_cd
            (get_current_object_tags_dict env "mybucket" (Some "k") None st).2
            _ _ _ _); try reflexivity.
  intros H. apply (f_equal (λ m : Tags, m !! "c")) in H. discriminate H.
Defined.

(** X11 on an example: a request without [tags]. *)
Lemma without_tags_witness :
  let env := Scenario.env true in
  let p := Scenario.put_request "always" in
  let st := initial p (Scenario.store [Scenario.ATags (Some [("c", "d")])]) in
  let r := ensure_tags env p "mybucket" (Some "k") st in
  trace r.2 = trace st ++ [EvS3 (GetObjectTagging "mybucket" (Some "k") None)]
  ∧ (∀ live changed, r.1 = Ret (live, changed) → changed = false).
Proof.
  intros env p st r.
  apply (ensure_tags_without_tags_only_looks env p "mybucket" (Some "k") st).
  left. reflexivity.
Defined.

(** X12 on an example: the store answers the tag lookup with
    [NotImplemented]. *)
Lemma store_without_tagging_witness :
  let env := Scenario.env true in
  let p := Scenario.put_request "always" in
  let st := initial p (Scenario.store [Scenario.AErr Cases.not_implemented]) in
  (ensure_tags env p "mybucket" (Some "k") st).1
  = Raise (PyError "UnboundLocalError").
Proof.
  intros env p st.
  exact (f_equal fst
           (ensure_tags_on_a_store_without_tagging env p "mybucket" (Some "k")
              st Cases.not_implemented (Scenario.store [])
              eq_refl eq_refl eq_refl eq_refl)).
Defined.

(** X13 on an example: a GET with [retries = -1]. *)
Lemma negative_retries_witness :
  let env := Scenario.env true in
  let p := Scenario.get_request "always" (-1) in
  let st := initial p (Scenario.store [Scenario.AOk]) in
  download_s3file env p "mybucket" (Some "k") (p_dest p) (p_retries p)
    (p_version p) st
  = (Ret tt,
     log (EvS3 (GetObject "mybucket" (Some "k") None)) (Scenario.store []) st).
Proof.
  intros env p st.
  exact (proj1 (negative_retries_download_nothing env p "mybucket" (Some "k")
                  "us-east-1" None st "" (Scenario.store [])
                  eq_refl eq_refl eq_refl)).
Defined.

(** X14 on an example: the listing of the versions is denied, and the
    bucket holds the key [k1]. *)
Lemma delete_bucket_fallback_witness :
  let env := Scenario.env true in
  let p := Cases.delete_request None in
  let st := initial p (Scenario.store
              [Scenario.AOk; Scenario.AErr Cases.access_denied;
               Scenario.AKeys ([["k1"]], None)]) in
  (delete_bucket env p "mybucket" st).1 = Raise (PyError "TypeError")
  ∧ trace (delete_bucket env p "mybucket" st).2
    = [EvS3 (HeadBucket "mybucket"); EvS3 (ListObjectVersions "mybucket");
       EvS3 (ListObjectsV2 "mybucket" None None None)].
Proof.
  intros env p st.
  pose proof (delete_bucket_fallback_raises env p "mybucket" st
                (bucket_check env "mybucket" true st).2
                Cases.access_denied
                (Scenario.store [Scenario.AKeys ([["k1"]], None)])
                [["k1"]] None (Scenario.store [])
                eq_refl eq_refl eq_refl eq_refl eq_refl
                (ex_intro _ ["k1"] (conj (list_elem_of_here _ _)
                                      (λ H, eq_ind [] (λ l, match l with
                                                           | [] => True
                                                           | _ :: _ => False
                                                           end) I _ (eq_sym H))))
                eq_refl) as H.
  rewrite H. split; reflexivity.
Defined.

(** X15 on an example: [mode=delete] with an object. *)
Lemma misconfiguration_witness :
  let env := Scenario.env true in
  let p := Cases.delete_request (Some "/k") in
  let r := run_main env p (Scenario.store []) in
  Forall (λ ev, ev = EvUtil GetAwsConnectionInfo) (trace r.2)
  ∧ ((∃ f, r.1 = Fail f) ∨ (∃ e, r.1 = Raise e)).
Proof.
  intros env p r.
  apply (misconfigurations_fail_before_connecting env p (Scenario.store [])).
  left. split; reflexivity.
Defined.

(** X16 on an example: the permission [bogus]. *)
Lemma unknown_permission_witness :
  let env := Scenario.env true in
  let p := Cases.adjust (Scenario.get_request "always" 0) false None
             ["bogus"] false in
  let r := run_main env p (Scenario.store []) in
  Forall (λ ev, method ev ∈ [m_get_aws_connection_info; m_boto3_conn])
    (trace r.2)
  ∧ ((∃ f, r.1 = Fail f) ∨ (∃ e, r.1 = Raise e)).
Proof.
  intros env p r.
  apply (unknown_permission_fails_before_any_request env p (Scenario.store [])).
  exists "bogus". split; [apply list_elem_of_here|].
  split; apply (bool_decide_eq_false_1 _); reflexivity.
Defined.

(** X17 on an example: source and destination have the ETag [abc]. *)
Lemma copy_witness :
  let env := Scenario.env true in
  let p := Cases.copy_request in
  let st := initial p (Scenario.store
              [Scenario.object_head "abc" 1; Scenario.object_head "abc" 1]) in
  let r := copy_object_to_bucket env p "mybucket" (Some "k") true (Some "abc")
             st in
  ∃ (st2 : @State Scenario.World) l,
    trace r.2 = trace st2 ++ l
    ∧ Forall (λ ev, method ev ∈ tagging_methods) l.
Proof.
  intros env p st r.
  set (st1 := (key_check env "src" (Some "s") None true st).2).
  set (st2 := (get_etag env "src" (Some "s") None st1).2).
  exists st2.
  refine (proj1 (proj2 (copy_is_decided_by_the_etags env p "mybucket"
                          (Some "k") true (Some "abc")
                          {| cs_bucket := "src"; cs_object := "s";
                             cs_version_id := None |} st eq_refl eq_refl)
                   st1 (Some "abc") st2 _ _) eq_refl); reflexivity.
Defined.

(** X18 on an example: the directory [d]. *)
Lemma create_witness :
  let env := Scenario.env true in
  let p := Cases.create_request in
  Forall (λ ev, ∀ key, event_key ev = Some (Some key) →
                       endswith_slash key = true)
    (trace (run_main env p (Scenario.store [])).2).
Proof.
  intros env p.
  apply (proj1 (create_names_a_directory env p (Scenario.store []) eq_refl)).
Defined.

(** X19 on an example: the header name [Content-Type]. *)
Lemma option_in_extra_args_witness :
  option_in_extra_args (Scenario.lower "Content-Type")
  = option_in_extra_args "Content-Type"
  ∧ option_in_extra_args ("Content" +:+ "-" +:+ "Type")
    = option_in_extra_args ("Content" +:+ "Type")
  ∧ option_in_extra_args "ContentType" = Some "ContentType".
Proof.
  destruct option_in_extra_args_normalises as (H1 & H2 & H3).
  split; [apply H1; reflexivity|]. split; [apply H2; reflexivity|].
  apply (H3 "content-type"). reflexivity.
Defined.

(** X20 on an example: the store answers [create_bucket] with
    [NotImplemented], and the CREATE reports success. *)
Lemma not_implemented_witness :
  let env := Scenario.env true in
  let p := Cases.delete_request None in
  let st := initial p (Scenario.store [Scenario.AErr Cases.not_implemented]) in
  (mode_create env p "mybucket" None "us-east-1" false ["private"]
     ["private"] st).1
  = Exit (ej "Bucket created successfully" (Some true)).
Proof.
  intros env p st.
  exact (f_equal fst
           (proj2 (proj1 (not_implemented_is_only_warned_about env p "mybucket"
                            "us-east-1" eq_refl)
                     st Cases.not_implemented (Scenario.store [])
                     eq_refl eq_refl)
              None ["private"] ["private"] eq_refl eq_refl)).
Defined.

(** X22 on an example: the upload of [/tmp/f] is answered by 503. *)
Lemma failed_upload_witness :
  let env := Scenario.env true in
  let p := Scenario.put_request "always" in
  let st := initial p (Scenario.store [Scenario.AErr Scenario.unavailable]) in
  upload_s3file env p "mybucket" (Some "k") 600 (Some "/tmp/f") None st
  = (Fail (fj_aws Scenario.unavailable "Unable to complete PUT operation."),
     log (EvS3 (UploadFile "/tmp/f" "mybucket" (Some "k")))
       (Scenario.store []) st).
Proof.
  intros env p st.
  apply (failed_upload_is_the_last_call env p "mybucket" (Some "k") 600
           (Some "/tmp/f") None st Scenario.unavailable (Scenario.store []));
    reflexivity.
Defined.

(** X23 on an example: a GET with [retries=1] whose first download is
    answered by 503 and whose second succeeds. *)
Lemma retried_download_witness :
  let env := Scenario.env true in
  let p := Scenario.get_request "always" 1 in
  let st := initial p (Scenario.store
              [Scenario.AOk; Scenario.AErr Scenario.unavailable;
               Scenario.AOk]) in
  let r := download_s3file env p "mybucket" (Some "k") (Some "/tmp/f") 1 None
             st in
  r.1 = Exit (ej "GET operation complete" (Some true))
  ∧ trace r.2
    = trace st ++ [EvS3 (GetObject "mybucket" (Some "k") None)]
      ++ replicate 2 (EvS3 (DownloadFile "mybucket" (Some "k") (Some "/tmp/f")
                              None))
  ∧ world r.2 = Scenario.store [].
Proof.
  intros env p st.
  apply (transient_download_failures_are_retried env p "mybucket" (Some "k")
           (Some "/tmp/f") 1 None st ""
           (Scenario.store [Scenario.AErr Scenario.unavailable; Scenario.AOk])
           [Scenario.unavailable] (Scenario.store [Scenario.AOk])
           (Scenario.store [])).
  - reflexivity.
  - reflexivity.
  - repeat constructor.
  - simpl. lia.
  - eexists. split; reflexivity.
  - reflexivity.
Defined.

(** X24 on an example: a listing of a bucket that the store does not
    have. *)
Lemma missing_bucket_witness :
  let env := Cases.without_buckets in
  let p := Cases.list_request in
  let r := run_main env p (Scenario.store []) in
  Forall (λ ev, method ev ∈ prologue_methods) (trace r.2)
  ∧ ((∃ f, r.1 = Fail f) ∨ (∃ e, r.1 = Raise e))
  ∧ (EvS3 (HeadBucket "mybucket") ∈ trace r.2 →
     r.1 = Fail (fj "Source bucket cannot be found.")).
Proof.
  intros env p r.
  apply (reading_from_a_missing_bucket_fails env p (Scenario.store [])).
  - intros w0. exists Cases.not_found, w0. split; reflexivity.
  - reflexivity.
  - repeat constructor.
Defined.

(** X25 on an example: the deletion of a bucket that the store does not
    have. *)
Lemma missing_bucket_delete_witness :
  let env := Cases.without_buckets in
  let p := Cases.delete_request None in
  let r := run_main env p (Scenario.store []) in
  Forall (λ ev, method ev ∈ prologue_methods) (trace r.2)
  ∧ (∀ o, r.1 = Exit o →
       o = {| ej_msg := None; ej_changed := None; ej_url := None;
              ej_tags := None; ej_expiry := None; ej_contents := None;
              ej_s3_keys := None; ej_failed := Some false |})
  ∧ (∀ a, r.1 ≠ Ret a).
Proof.
  intros env p r.
  apply (deleting_a_missing_bucket_changes_nothing env p (Scenario.store [])).
  - intros w0. exists Cases.not_found, w0. split; reflexivity.
  - reflexivity.
  - reflexivity.
Defined.

(** * The transfers, once decided *)

Section Ahead.

Context {W : Type}.
Variable env : Env W.
Variable p : Params.

Abbreviation M := (@M W).
Abbreviation State := (@State W).

Lemma except_Sigv4Required_other {A} (m h : M A) st :
  (m st).1 ≠ RaiseSigv4Required → except_Sigv4Required m h st = m st.
Proof.
  unfold except_Sigv4Required. by destruct (m st) as [[a|o|f|e|] st'].
Qed.

Lemma trace_tail_unique (l0 : list Event) ev l l' :
  l0 ++ ev :: l = l0 ++ ev :: l' → l = l'.
Proof. intros H. apply app_inv_head in H. by injection H. Qed.

(** The retry loop sends one [download_file] per pass it makes. *)
Lemma download_loop_extends bucket obj dest retries version xs (st : State) :
  ∃ n, trace (for_each xs (download_attempt env bucket obj dest retries
                             version) st).2
       = trace st
         ++ replicate n
              (EvS3 (DownloadFile bucket obj dest (sent_version version))).
Proof.
  destruct (download_loop_spec env bucket obj dest retries version xs st)
    as (n & _ & H & _).
  by exists n.
Qed.

(** The download step, from the state it is entered in. *)
Lemma download_stage_goes_ahead bucket obj location s3_url (st : State) :
  download_goes_ahead env p bucket obj st
    (download_stage env p bucket obj location s3_url st).
Proof.
  unfold download_goes_ahead, download_stage.
  set (get := GetObject bucket obj (sent_version (p_version p))).
  set (download := DownloadFile bucket obj (p_dest p)
                     (sent_version (p_version p))).
  destruct (p_check_mode p) eqn:Hcheck.
  { unfold except_Sigv4Required. rewrite download_s3file_step, Hcheck. done. }
  assert (Hfirst : ∃ l,
    trace (except_Sigv4Required
             (download_s3file env p bucket obj (p_dest p) (p_retries p)
                (p_version p))
             (bind (get_s3_connection env location (p_rgw p) s3_url true)
                (λ _, download_s3file env p bucket obj (p_dest p)
                        (p_retries p) (p_version p))) st).2
    = trace st ++ EvS3 get :: l).
  { unfold except_Sigv4Required. rewrite download_s3file_step, Hcheck.
    fold get. destruct (s3_call env get (world st)) as [[body|e] w1].
    - set (st1 := log (EvS3 get) w1 st).
      pose proof (download_loop_not_Sigv4Required env bucket obj (p_dest p)
                    (p_retries p) (p_version p)
                    (py_range 0 (p_retries p + 1)) st1) as Hno.
      destruct (download_loop_extends bucket obj (p_dest p) (p_retries p)
                  (p_version p) (py_range 0 (p_retries p + 1)) st1)
        as (n & Htr).
      destruct (for_each _ _ st1) as [[a|o|f|e|] st2]; simpl in *;
        try done; eexists; rewrite Htr, <- app_assoc; reflexivity.
    - set (st1 := log (EvS3 get) w1 st).
      assert (Hagain : ∃ l,
        trace (bind (get_s3_connection env location (p_rgw p) s3_url true)
                 (λ _, download_s3file env p bucket obj (p_dest p)
                         (p_retries p) (p_version p)) st1).2
        = trace st ++ EvS3 get :: l).
      { assert (Hb : bounded (λ _, false) 0
                  (bind (get_s3_connection env location (p_rgw p) s3_url true)
                     (λ _, download_s3file env p bucket obj (p_dest p)
                             (p_retries p) (p_version p)))).
        { apply bounded_bind0.
          - by apply (get_s3_connection_quiet env (λ _, false) None).
          - intros _. by apply (download_s3file_quiet env p (λ _, false)). }
        destruct (Hb st1) as (l & Htr & _).
        exists l. rewrite Htr. simpl. by rewrite <- app_assoc. }
      assert (Hhere : trace st1 = trace st ++ EvS3 get :: [])
        by reflexivity.
      destruct (code_in env ["404"; "403"] e); [by exists []|].
      destruct (is_boto3_error_message env _ e); [exact Hagain|].
      destruct (code_in env ["InvalidArgument"] e); [by exists []|].
      destruct (is_boto_error e); by exists []. }
  destruct Hfirst as (l & Hl). exists l. split; [exact Hl|].
  intros body w1 Hget Hretries. revert Hl.
  rewrite except_Sigv4Required_other;
    rewrite download_s3file_step, Hcheck; fold get; rewrite Hget;
    [|apply download_loop_not_Sigv4Required].
  rewrite py_range_cons by lia. simpl. unfold bind.
  rewrite download_attempt_step. fold download.
  set (st1 := log (EvS3 get) w1 st).
  assert (Hst1 : ∀ w2, trace (log (EvS3 download) w2 st1)
                       = trace st ++ EvS3 get :: [EvS3 download]).
  { intros w2. simpl. by rewrite <- app_assoc. }
  destruct (s3_call env download (world st1)) as [[[]|e] w2] eqn:Hdl.
  - intros Hl. cbn [snd] in Hl. rewrite Hst1 in Hl.
    apply trace_tail_unique in Hl as <-.
    exists []. split; [done|]. intros w2' Hok.
    change (world st1) with w1 in Hdl. rewrite Hok in Hdl.
    by simplify_eq.
  - assert (Hnot : ∀ w2', s3_call env download w1 ≠ (Ok (), w2')).
    { intros w2' Hok. change (world st1) with w1 in Hdl.
      by rewrite Hok in Hdl. }
    assert (Hloop : ∃ l',
      trace (for_each (py_range (0 + 1) (p_retries p + 1))
               (download_attempt env bucket obj (p_dest p) (p_retries p)
                  (p_version p)) (log (EvS3 download) w2 st1)).2
      = trace st ++ EvS3 get :: EvS3 download :: l').
    { destruct (download_loop_extends bucket obj (p_dest p) (p_retries p)
                  (p_version p) (py_range (0 + 1) (p_retries p + 1))
                  (log (EvS3 download) w2 st1)) as (n & Htr).
      eexists. rewrite Htr, Hst1, <- app_assoc. reflexivity. }
    assert (Hend : ∀ l0,
      trace (log (EvS3 download) w2 st1) = trace st ++ EvS3 get :: l0 →
      ∃ l', l0 = EvS3 download :: l'
            ∧ ∀ w2', s3_call env download w1 = (Ok (), w2') → False).
    { intros l0 H0. rewrite Hst1 in H0. apply trace_tail_unique in H0 as <-.
      exists []. split; [done|]. intros w2' Hok. by apply Hnot in Hok. }
    assert (Hgo : ∀ l0,
      trace (for_each (py_range (0 + 1) (p_retries p + 1))
               (download_attempt env bucket obj (p_dest p) (p_retries p)
                  (p_version p)) (log (EvS3 download) w2 st1)).2
      = trace st ++ EvS3 get :: l0 →
      ∃ l', l0 = EvS3 download :: l'
            ∧ ∀ w2', s3_call env download w1 = (Ok (), w2') → False).
    { intros l0 H0. destruct Hloop as (l' & Hl'). rewrite Hl' in H0.
      apply trace_tail_unique in H0 as <-.
      exists l'. split; [done|]. intros w2' Hok. by apply Hnot in Hok. }
    destruct (is_boto_error e); [|destruct (is_SSLError e)];
      try destruct (0 >=? p_retries p); cbn [snd]; intros Hl;
      first [destruct (Hend _ Hl) as (l' & -> & Hn)
            |destruct (Hgo _ Hl) as (l' & -> & Hn)];
      exists l'; (split; [done|]); intros w2' Hok; by apply Hn in Hok.
Qed.


Lemma never_exits_exits_with {A} φ (m : M A) : never_exits m → exits_with φ m.
Proof. intros H st o st' E. by apply H in E. Qed.

Lemma exits_with_for_each {X} φ (xs : list X) (body : X → M unit) :
  (∀ x, exits_with φ (body x)) → exits_with φ (for_each xs body).
Proof.
  intros Hb. induction xs as [|x xs IH]; simpl; [apply exits_with_ret|].
  apply exits_with_bind; [apply Hb | intros _; exact IH].
Qed.

(** The upload step, from the state it is entered in. *)
Lemma upload_stage_goes_ahead bucket obj object_acl bincontent (st : State) :
  upload_goes_ahead env p bucket obj bincontent st
    (upload_stage env p bucket obj object_acl bincontent st).
Proof.
  unfold upload_goes_ahead, upload_stage.
  set (st' := {| world := world st; trace := trace st;
                 warnings := warnings st; permission := object_acl |}).
  rewrite (bind_Ret (set_permission object_acl) _ st () st' eq_refl).
  set (upload := match p_src p with
                 | Some filename => UploadFile filename bucket obj
                 | None => UploadFileobj bincontent bucket obj
                 end).
  unfold upload_s3file. destruct (p_check_mode p); [done|].
  cbn [when]. rewrite (bind_Ret (ret ()) _ st' () st' eq_refl). cbv beta.
  assert (Hsrc : match p_src p with
                 | Some filename => s3 env (UploadFile filename bucket obj)
                 | None => s3 env (UploadFileobj bincontent bucket obj)
                 end = s3 env upload).
  { subst upload. by destruct (p_src p). }
  rewrite Hsrc. clear Hsrc. generalize upload. clear upload. intros upload.
  split; [|split].
  - match goal with
    | |- ∃ l, trace (bind (try_except (s3 env ?r) ?h) ?k ?s).2 = _ =>
        destruct (trace_after_first_call env (λ _, false) r h k s)
          as (l & Htr & _)
    end.
    + intros e. destruct (is_boto_error e); [apply bounded_fail_json_aws|done].
    + intros _. apply bounded_bind0.
      * apply bounded_try_except0.
        -- apply bounded_bind0; [apply bounded_get_permission|].
           intros permission.
           apply bounded_for_each0. intros acl. by apply bounded_s3.
        -- intros e. destruct (code_in _ _ _); [apply bounded_warn|].
           destruct (is_boto_error e); [apply bounded_fail_json_aws|done].
      * intros _. apply bounded_bind0; [by apply ensure_tags_quiet|].
        intros tc.
        apply bounded_bind0; [by apply put_download_url_quiet|]. intros url.
        apply bounded_exit_json.
    + exists l. exact Htr.
  - intros e w1 Hcall.
    match goal with
    | |- (bind (try_except (s3 env upload) ?h) ?k st').1 = _ ∧ _ =>
        assert (Hr : bind (try_except (s3 env upload) h) k st'
                     = (if is_boto_error e
                        then Fail (fj_aws e "Unable to complete PUT operation.")
                        else Raise e, log (EvS3 upload) w1 st'))
    end.
    { unfold bind at 1. unfold try_except at 1. unfold s3 at 1.
      change (world st') with (world st). rewrite Hcall.
      by destruct (is_boto_error e). }
    rewrite Hr. by destruct (is_boto_error e).
  - intros o Ho.
    match type of Ho with
    | (?m st').1 = _ =>
        assert (Hex : exits_with
                        (λ o, ej_msg o = Some "PUT operation complete"
                              ∧ ej_changed o = Some true) m)
    end.
    { apply exits_with_bind; [exits|]. intros _.
      apply exits_with_bind.
      - apply exits_with_try_except.
        + apply exits_with_bind; [by intros ? ? ?|]. intros permission.
          apply exits_with_for_each. intros acl. apply exits_with_s3.
        + intros e. destruct (code_in _ _ _); [by intros ? ? ?|]. exits.
      - intros _. apply exits_with_bind.
        + apply never_exits_exits_with, ensure_tags_never_exits.
        + intros tc. unfold put_download_url. exits. }
    destruct (bind _ _ st') as [r st2] eqn:E. simpl in Ho. subst r.
    by apply (Hex _ _ _ E).
Qed.

End Ahead.

(** * What a skipped upload reports *)

Section Skipped.

Context {W : Type}.
Variable env : Env W.
Variable p : Params.

Abbreviation M := (@M W).
Abbreviation State := (@State W).

(** [ensure_tags] reports [changed] exactly when it sent a tag
    mutation, and then it sent one. *)
Lemma ensure_tags_changed bucket obj (st : State) tags changed st' :
  ensure_tags env p bucket obj st = (Ret (tags, changed), st') →
  ∃ l, trace st' = trace st ++ l
       ∧ count is_tag_mutation l = (if changed then 1 else 0)%nat.
Proof.
  intros E.
  pose proof (get_current_object_tags_dict_step env bucket obj None st)
    as [Htr _].
  destruct (get_current_object_tags_dict env bucket obj None st)
    as [[current|o|f|e|] st1] eqn:El.
  - simpl in Htr.
    rewrite (ensure_tags_after_lookup _ _ _ _ _ _ _ El) in E.
    assert (Hquiet : ∀ st2, (tags, changed) = (current, false) → st2 = st1 →
              ∃ l, trace st2 = trace st ++ l
                   ∧ count is_tag_mutation l = (if false then 1 else 0)%nat).
    { intros st2 _ ->. eexists. split; [exact Htr|done]. }
    destruct (p_tags p) as [desired|];
      [|injection E as <- <- <-; by apply Hquiet].
    cbv zeta in E.
    set (target := if p_purge_tags p then desired else desired ∪ current)
      in E.
    destruct (bool_decide (current ≠ target)) eqn:Ene;
      [|injection E as <- <- <-; by apply Hquiet].
    apply bool_decide_eq_true in Ene.
    unfold bind at 1 in E.
    destruct (bind _ _ st1) as [[live|?|?|?|] st2] eqn:Ew; try done.
    injection E as <- <- <-.
    unfold bind at 1 in Ew.
    match type of Ew with
    | context [let (_, _) := ?m st1 in _] =>
        assert (Hm : ∀ st3, m st1 = (Ret (), st3) →
                  ∃ ev, is_tag_mutation ev = true
                        ∧ trace st3 = trace st1 ++ [ev]);
        [|destruct (m st1) as [[[]|?|?|?|] st3] eqn:Em; try done]
    end.
    { intros st3.
      destruct (bool_decide (target ≠ ∅)) eqn:Eempty.
      - unfold try_except, put_object_tagging, s3.
        destruct (s3_call _ _ _) as [[[]|e] w'].
        + intros [= <-]. eexists. split; [|reflexivity]. reflexivity.
        + by destruct (is_boto_error e).
      - apply bool_decide_eq_false in Eempty. apply dec_stable in Eempty.
        destruct (p_purge_tags p) eqn:Hpurge; cbn [when].
        + unfold try_except, delete_object_tagging, s3.
          destruct (s3_call _ _ _) as [[[]|e] w'].
          * intros [= <-]. eexists. split; [|reflexivity]. reflexivity.
          * by destruct (is_boto_error e).
        + exfalso. apply Ene. rewrite Eempty. subst target.
          pose proof (map_positive_l _ _ Eempty) as Hd. rewrite Hd in Eempty.
          by rewrite (left_id_L ∅ (∪)) in Eempty. }
    destruct (Hm st3 eq_refl) as (ev & Hev & Htr3).
    destruct (wait_tags_are_applied_sends env is_tag_mutation bucket obj
                target None eq_refl eq_refl st3) as (l & Htr4 & Hl).
    rewrite Ew in Htr4. simpl in Htr4.
    exists ([EvS3 (GetObjectTagging bucket obj (sent_version None))]
            ++ [ev] ++ l).
    split.
    + rewrite Htr4, Htr3, Htr. by rewrite <- !app_assoc.
    + rewrite !count_app. simpl. rewrite Hev. lia.
  - revert E. unfold ensure_tags, bind, try_except. rewrite El. done.
  - revert E. unfold ensure_tags, bind, try_except. rewrite El. done.
  - revert E. unfold ensure_tags, bind, try_except. rewrite El. simpl.
    destruct (code_in _ _ _); [done|]. by destruct (is_boto_error e).
  - revert E. unfold ensure_tags, bind, try_except. rewrite El. done.
Qed.

(** A run that skips the upload and ends in [exit_json] reports the
    download URL, and [changed] exactly when it changed the tags. *)
Lemma skip_upload_stage_reports bucket obj (st : State) o st' :
  skip_upload_stage env p bucket obj st = (Exit o, st') →
  ∃ changed l,
    ej_msg o = Some "Download url:" ∧ ej_changed o = Some changed
    ∧ trace st' = trace st ++ l
    ∧ count is_tag_mutation l = (if changed then 1 else 0)%nat.
Proof.
  intros E.
  destruct (skip_upload_stage_Exit _ _ _ _ _ _ _ E)
    as (tags & changed & st1 & He & Hmsg & Hch & _).
  destruct (ensure_tags_changed _ _ _ _ _ _ He) as (l & Htr & Hl).
  revert E. unfold skip_upload_stage. rewrite (bind_Ret _ _ _ _ _ He).
  unfold get_download_url, try_except, bind, s3, exit_json.
  destruct (s3_call _ _ _) as [[url|e] w']; simpl.
  - intros [= _ <-]. exists changed. eexists. split; [done|]. split; [done|].
    split.
    + simpl. rewrite Htr, <- app_assoc. reflexivity.
    + rewrite count_app. simpl. lia.
  - by destruct (is_boto_error e).
Qed.

End Skipped.

(** * The decisions of a GET and of a PUT, and what follows them *)

Section Decided.

Context {W : Type}.
Variable env : Env W.
Variable p : Params.

Abbreviation M := (@M W).
Abbreviation State := (@State W).


(** C2, as amended.  With [overwrite=different], a remote object that
    exists and a local reference that exists, the comparison of the two
    fingerprints decides.  When they are equal the transfer is skipped:
    a GET ends with [changed = false] right after the comparison, with
    no download sent; a PUT sends no upload, never gets to the upload
    step, and when it ends in [exit_json] it is with the download URL,
    reporting [changed] exactly when it sent a tag mutation.  When they
    differ the transfer goes ahead: outside check mode [get_object] and
    then [download_file] are sent in a GET and the upload in a PUT; in
    check mode the invocation ends there and nothing is transferred. *)
Theorem different_compares_fingerprints bucket obj validate location s3_url :
  (∀ st st1 dest remote local_ st2 st3,
     key_check env bucket obj (p_version p) validate st = (Ret true, st1) →
     p_dest p = Some dest → nonempty dest = true →
     os_path_exists env dest (world st1) = true →
     get_etag env bucket obj (p_version p) st1 = (Ret remote, st2) →
     util env (CalculateEtag dest remote bucket obj (p_version p)) st2
     = (Ret local_, st3) →
     let run :=
       mode_get env p bucket obj "different" validate location s3_url st in
     (remote = local_ →
      run = (Exit (ej "Local and remote object are identical, ignoring. Use overwrite=always parameter to force."
                     (Some false)), st3)
      ∧ appends is_download 0 st st3)
     ∧ (remote ≠ local_ → download_goes_ahead env p bucket obj st3 run))
  ∧ (∀ bucket_acl object_acl st st1 bincontent remote local_ st2 st3,
       ¬ (p_content p = None ∧ p_content_base64 p = None ∧ p_src p = None) →
       (∀ f, p_src p = Some f → os_path_exists env f (world st) = true) →
       key_check env bucket obj (p_version p) validate st = (Ret true, st1) →
       (∀ c, p_content_base64 p = Some c →
          ∃ b, standard_b64decode env c = Ok b ∧ bincontent = Some b) →
       (p_content_base64 p = None → bincontent = p_content p) →
       get_etag env bucket obj (p_version p) st1 = (Ret remote, st2) →
       match p_src p with
       | Some f => util env (CalculateEtag f remote bucket obj (p_version p))
       | None =>
           util env (CalculateEtagContent bincontent remote bucket obj
                       (p_version p))
       end st2 = (Ret local_, st3) →
       let run :=
         mode_put env p bucket obj "different" validate location true
           bucket_acl object_acl st in
       (remote = local_ →
        appends is_upload 0 st run.2
        ∧ (∀ a, run.1 ≠ Ret a)
        ∧ (∀ o, run.1 = Exit o →
             ∃ changed l,
               ej_msg o = Some "Download url:"
               ∧ ej_changed o = Some changed
               ∧ trace run.2 = trace st3 ++ l
               ∧ count is_tag_mutation l = (if changed then 1 else 0)%nat))
       ∧ (remote ≠ local_ →
          upload_goes_ahead env p bucket obj bincontent st3 run)).
Proof.
  destruct (different_decision env p bucket obj validate location s3_url)
    as [Hget Hput].
  split.
  - intros st st1 dest remote local_ st2 st3 Hk Hd Hne Hex Hr Hl run.
    destruct (Hget st st1 dest remote local_ st2 st3 Hk Hd Hne Hex Hr Hl)
      as [Hsame Hdiff].
    split; [exact Hsame|]. intros Hrl. subst run. rewrite (Hdiff Hrl).
    apply download_stage_goes_ahead.
  - intros bucket_acl object_acl st st1 bincontent remote local_ st2 st3
      Hsome Hsrc Hk Hb64 Hcontent Hr Hl run.
    destruct (Hput bucket_acl object_acl st st1 bincontent remote local_ st2
                st3 Hsome Hsrc Hk Hb64 Hcontent Hr Hl) as [Hsame Hdiff].
    split; intros Hrl.
    + destruct (Hsame Hrl) as (Hrun & Hup & _).
      split; [exact Hup|]. subst run. rewrite Hrun. split.
      * intros a.
        destruct (skip_upload_stage env p bucket obj st3) as [r st4] eqn:Es.
        simpl. intros ->. by apply skip_upload_stage_ends in Es.
      * intros o Ho.
        destruct (skip_upload_stage env p bucket obj st3) as [r st4] eqn:Es.
        simpl in Ho. subst r.
        destruct (skip_upload_stage_reports env p _ _ _ _ _ Es)
          as (changed & l & Hm & Hc & Htr & Hl').
        by exists changed, l.
    + subst run. rewrite (Hdiff Hrl). apply upload_stage_goes_ahead.
Qed.


(** C3, as amended.  In a GET with [overwrite=latest] and a local file
    at [dest], the time stamps decide: when the remote object was last
    modified no later than the local file, the invocation ends with
    [changed = false] right after the [head_object] call that fetched
    the time stamp, and no download was sent; when the local file is
    strictly older the download goes ahead: outside check mode
    [get_object] and then [download_file] are sent, in check mode the
    invocation ends there and nothing is downloaded. *)
Theorem latest_compares_timestamps bucket obj validate location s3_url
    st st1 dest h w2 mtime :
  key_check env bucket obj (p_version p) validate st = (Ret true, st1) →
  p_dest p = Some dest → nonempty dest = true →
  os_path_exists env dest (world st1) = true →
  s3_call env (HeadObject bucket obj (sent_version (p_version p))) (world st1)
  = (Ok (Some h), w2) →
  os_path_exists env dest w2 = true →
  os_path_getmtime env dest w2 = Ok mtime →
  let st2 :=
    log (EvS3 (HeadObject bucket obj (sent_version (p_version p)))) w2 st1 in
  let run := mode_get env p bucket obj "latest" validate location s3_url st in
  ((LastModified h ≤ mtime)%Z →
   run = (Exit (ej "Local object is latest, ignoreing. Use overwrite=always parameter to force."
                  (Some false)), st2)
   ∧ appends is_download 0 st st2)
  ∧ ((mtime < LastModified h)%Z →
     download_goes_ahead env p bucket obj st2 run).
Proof.
  intros Hk Hd Hne Hex Hhead Hex2 Hmtime st2 run.
  destruct (latest_decision env p bucket obj validate location s3_url st st1 dest h
              w2 mtime Hk Hd Hne Hex Hhead Hex2 Hmtime) as [Hskip Hgo].
  split; [exact Hskip|]. intros Hlt. subst run. rewrite (Hgo Hlt).
  apply download_stage_goes_ahead.
Qed.


(** X6: the decisions of a GET that need no comparison.  Once the key is
    known to exist: with [overwrite=always], and with no file at [dest]
    whatever the policy, the download step is entered in the state
    right after the key check, so that no fingerprint and no time stamp
    was looked at: outside check mode [get_object] is the next call
    and [download_file] the one after it, in check mode the invocation
    ends there.  With [overwrite=never] and a file at [dest] the
    invocation ends unchanged in the state right after the key check:
    nothing was compared, and nothing downloaded. *)
Theorem get_decides_without_comparing bucket obj validate location s3_url
    (st st1 : State) :
  key_check env bucket obj (p_version p) validate st = (Ret true, st1) →
  download_goes_ahead env p bucket obj st1
    (mode_get env p bucket obj "always" validate location s3_url st)
  ∧ (∀ overwrite,
       truthy (p_dest p) = false
       ∨ (∃ dest, p_dest p = Some dest
                  ∧ os_path_exists env dest (world st1) = false) →
       download_goes_ahead env p bucket obj st1
         (mode_get env p bucket obj overwrite validate location s3_url st))
  ∧ (∀ dest,
       p_dest p = Some dest → nonempty dest = true →
       os_path_exists env dest (world st1) = true →
       mode_get env p bucket obj "never" validate location s3_url st
       = (Exit (ej "Local object already exists and overwrite is disabled."
                  (Some false)), st1)).
Proof.
  intros Hk.
  destruct (get_decision_without_comparison env p bucket obj validate location
              s3_url st st1 Hk) as (Halways & Hnofile & Hnever).
  split; [|split].
  - rewrite Halways. apply download_stage_goes_ahead.
  - intros overwrite Hd. rewrite (Hnofile overwrite Hd).
    apply download_stage_goes_ahead.
  - exact Hnever.
Qed.


(** X7: the decisions of a PUT that need no comparison.  With
    [overwrite=always], with a remote object that does not exist
    whatever the policy, and when the bucket had to be created, the
    upload step is entered right after the key check or the creation of
    the bucket: outside check mode the upload is the next call, in check
    mode the invocation ends there.  With [overwrite=never] and a remote
    object that exists no upload is sent: the run never gets to the
    upload step, and when it ends in [exit_json] it is with the download
    URL, reporting [changed] exactly when it sent a tag mutation. *)
Theorem put_decides_without_comparing bucket obj validate location bucket_acl
    object_acl (st : State) bincontent :
  put_ready env p st bincontent →
  (∀ keyrtn st1,
     key_check env bucket obj (p_version p) validate st = (Ret keyrtn, st1) →
     upload_goes_ahead env p bucket obj bincontent st1
       (mode_put env p bucket obj "always" validate location true bucket_acl
          object_acl st)
     ∧ (keyrtn = false → ∀ overwrite,
          upload_goes_ahead env p bucket obj bincontent st1
            (mode_put env p bucket obj overwrite validate location true
               bucket_acl object_acl st))
     ∧ (keyrtn = true →
        let run :=
          mode_put env p bucket obj "never" validate location true bucket_acl
            object_acl st in
        (∃ l, trace run.2 = trace st1 ++ l ∧ count is_upload l = 0%nat)
        ∧ (∀ a, run.1 ≠ Ret a)
        ∧ (∀ o, run.1 = Exit o →
             ∃ changed l,
               ej_msg o = Some "Download url:"
               ∧ ej_changed o = Some changed
               ∧ trace run.2 = trace st1 ++ l
               ∧ count is_tag_mutation l = (if changed then 1 else 0)%nat)))
  ∧ (∀ overwrite created st1,
       bind (set_permission bucket_acl)
         (λ _, create_bucket env p bucket location) st = (Ret created, st1) →
       upload_goes_ahead env p bucket obj bincontent st1
         (mode_put env p bucket obj overwrite validate location false
            bucket_acl object_acl st)).
Proof.
  intros Hready.
  destruct (put_decision_without_comparison env p bucket obj validate location
              bucket_acl object_acl st bincontent Hready) as [Hkey Hnew].
  split.
  - intros keyrtn st1 Hk.
    destruct (Hkey keyrtn st1 Hk) as (Halways & Hmissing & Hnever).
    split; [|split].
    + rewrite Halways. apply upload_stage_goes_ahead.
    + intros Hf overwrite. rewrite (Hmissing Hf overwrite).
      apply upload_stage_goes_ahead.
    + intros Ht run. subst run. rewrite (Hnever Ht).
      destruct (skip_upload_stage env p bucket obj st1) as [r st4] eqn:Es.
      split; [|split].
      * destruct (skip_upload_stage_quiet env p bucket obj st1)
          as (l & Htr & Hl).
        rewrite Es in Htr. exists l. split; [exact Htr | lia].
      * simpl. intros a ->. by apply skip_upload_stage_ends in Es.
      * simpl. intros o ->.
        destruct (skip_upload_stage_reports env p _ _ _ _ _ Es)
          as (changed & l & Hm & Hc & Htr & Hl').
        by exists changed, l.
  - intros overwrite created st1 Hc. rewrite (Hnew overwrite created st1 Hc).
    apply upload_stage_goes_ahead.
Qed.

End Decided.

(** * The tags that are written, and the wait for them *)

Section Written.

Context {W : Type}.
Variable env : Env W.
Variable p : Params.

Abbreviation M := (@M W).
Abbreviation State := (@State W).

(** C5. Without purge, the target of tag reconciliation is the desired
    tags merged over the current ones: every key of the current tags is
    a key of the target, a key of the desired tags has the desired
    value, and any other key keeps its current value.  That target is
    what is written: when it differs from the current tags,
    [put_object_tagging] of the target is the call right after the
    lookup, and no other tag mutation is sent; when it equals them,
    nothing is written.  The tags that [ensure_tags] returns are the
    target, and [changed] tells whether it was written. *)
Theorem ensure_tags_merges_over_current bucket obj desired (st : State)
    current st1 :
  p_purge_tags p = false → p_tags p = Some desired →
  get_current_object_tags_dict env bucket obj None st = (Ret current, st1) →
  let target := desired ∪ current in
  let write :=
    EvS3 (PutObjectTagging bucket obj
            (ansible_dict_to_boto3_tag_list env target)) in
  let r := ensure_tags env p bucket obj st in
  (∀ key, is_Some (current !! key) → is_Some (target !! key))
  ∧ (∀ key value, desired !! key = Some value → target !! key = Some value)
  ∧ (∀ key, desired !! key = None → target !! key = current !! key)
  ∧ (current ≠ target →
     ∃ l, trace r.2 = trace st1 ++ write :: l
          ∧ count is_tag_mutation l = 0%nat)
  ∧ (current = target → r = (Ret (current, false), st1))
  ∧ appends
      (other_tag_mutation bucket obj
         (ansible_dict_to_boto3_tag_list env target)) 0 st r.2
  ∧ (∀ live changed,
       r.1 = Ret (live, changed) →
       live = target ∧ changed = bool_decide (current ≠ target)).
Proof.
  intros Hpurge Htags Hl target write r.
  destruct (ensure_tags_merge_target env p bucket obj desired st current st1
              Hpurge Htags Hl) as (Hkeys & Hdesired & Hother & Honly & Hret).
  split; [exact Hkeys|]. split; [exact Hdesired|]. split; [exact Hother|].
  assert (Hrun : r
    = if bool_decide (current ≠ target) then
        bind
          (bind
             (try_except (put_object_tagging env bucket obj target)
                (λ e, if is_boto_error e
                      then Some (fail_json_aws e
                                   "Failed to update object tags.")
                      else None))
             (λ _, wait_tags_are_applied env bucket obj target None))
          (λ live, ret (live, true)) st1
      else (Ret (current, false), st1)).
  { subst r. rewrite (ensure_tags_after_lookup _ _ _ _ _ _ _ Hl), Htags, Hpurge.
    cbv zeta. fold target.
    destruct (bool_decide (current ≠ target)) eqn:Ene; [|done].
    apply bool_decide_eq_true in Ene.
    rewrite (bool_decide_eq_true_2 (target ≠ ∅)); [done|].
    intros Hempty. apply Ene. rewrite Hempty. subst target.
    pose proof (map_positive_l _ _ Hempty) as Hd. rewrite Hd in Hempty.
    by rewrite (left_id_L ∅ (∪)) in Hempty. }
  split; [|split; [|split; [exact Honly|]]].
  - intros Hne. rewrite Hrun, bool_decide_eq_true_2 by done.
    rewrite bind_bind. unfold put_object_tagging. subst write.
    apply trace_after_first_call.
    + intros e. destruct (is_boto_error e); [apply bounded_fail_json_aws|done].
    + intros _. apply bounded_bind0; [by apply wait_tags_are_applied_sends|].
      intros live. apply bounded_ret.
  - intros Heq. rewrite Hrun. by rewrite bool_decide_eq_false_2 by auto.
  - intros live changed Hr. split; [by apply (Hret live changed)|].
    revert Hr. rewrite Hrun.
    destruct (bool_decide (current ≠ target)); [|simpl; by intros [= _ <-]].
    unfold bind at 1.
    match goal with
    | |- context [let (_, _) := ?x in _] =>
        destruct x as [[live'|?|?|?|] st2]
    end; simpl; try done.
    by intros [= _ <-].
Qed.

(** *** The polls of the tag wait *)





End Written.

(** * The keys that the calls name *)

Section Keys.

Context {W : Type}.
Variable env : Env W.
Variable p : Params.
Variable c : Event → bool.

Abbreviation M := (@M W).
Abbreviation State := (@State W).

(** The two lookups send [head_object] on the key they are given, and
    nothing else. *)
Lemma key_check_sends b k v validate :
  c (EvS3 (HeadObject b k (sent_version v))) = false →
  bounded c 0 (key_check env b k v validate).
Proof.
  intros Hhead. unfold key_check.
  repeat first [apply bounded_s3; exact Hhead | quiet_step].
Qed.

Lemma get_etag_sends b k v :
  c (EvS3 (HeadObject b k (sent_version v))) = false →
  bounded c 0 (get_etag env b k v).
Proof.
  intros Hhead. unfold get_etag.
  repeat first [apply bounded_s3; exact Hhead | quiet_step].
Qed.

(** A copy looks the source object up, and all its other calls are on
    the key of the destination. *)
Lemma copy_object_to_bucket_lookups b k validate d_etag :
  (∀ ev, on_key k ev = true → c ev = false) →
  (∀ cs, p_copy_src p = Some cs →
     c (EvS3 (HeadObject (cs_bucket cs) (Some (cs_object cs))
                (sent_version (cs_version_id cs)))) = false) →
  bounded c 0 (copy_object_to_bucket env p b k validate d_etag).
Proof.
  intros Hc Hsrc. unfold copy_object_to_bucket.
  pose proof (ensure_tags_quiet env p c b k Hc) as Htags.
  destruct (p_copy_src p) as [cs|]; [|quiet].
  specialize (Hsrc cs eq_refl).
  apply bounded_bind0; [quiet|]. intros _.
  apply bounded_try_except0; [|quiet].
  apply bounded_bind0; [by apply key_check_sends|]. intros found.
  apply bounded_bind0; [quiet|]. intros _.
  apply bounded_bind0; [by apply get_etag_sends|]. intros s_etag.
  clear Hsrc. quiet.
Qed.

Lemma mode_copy_lookups b k validate location bucketrtn bucket_acl
    object_acl :
  (∀ ev, on_key k ev = true → c ev = false) →
  (∀ cs, p_copy_src p = Some cs →
     c (EvS3 (HeadObject (cs_bucket cs) (Some (cs_object cs))
                (sent_version (cs_version_id cs)))) = false) →
  bounded c 0 (mode_copy env p b k validate location bucketrtn bucket_acl
                 object_acl).
Proof.
  intros Hc Hsrc. unfold mode_copy.
  pose proof (create_bucket_quiet env p c b k location Hc).
  pose proof (get_etag_quiet env c b k None Hc).
  apply bounded_bind0; [quiet|]. intros d_etag.
  apply bounded_bind0; [quiet|]. intros _.
  by apply copy_object_to_bucket_lookups.
Qed.

(** [main], when every branch leaves [c] alone. *)
Lemma main_quiet :
  let obj := normalize_object (p_object p) in
  (∃ k0, ∀ ev, on_key k0 ev = true → c ev = false) →
  (p_mode p ∈ [ModeGet; ModePut; ModeDelObj; ModeGetUrl; ModeGetStr;
               ModeCopy] →
     ∀ ev, keyed obj ev = true → c ev = false) →
  (p_mode p = ModeCreate →
     ∀ ev, on_key (as_directory <$> obj) ev = true → c ev = false) →
  (p_mode p = ModeCopy → ∀ cs, p_copy_src p = Some cs →
     c (EvS3 (HeadObject (cs_bucket cs) (Some (cs_object cs))
                (sent_version (cs_version_id cs)))) = false) →
  bounded c 0 (main env p).
Proof.
  intros obj [k0 Hk0] Hobj Hdir Hsrc.
  assert (Hon : p_mode p ∈ [ModeGet; ModePut; ModeDelObj; ModeGetUrl;
                            ModeGetStr; ModeCopy] →
                ∀ ev, on_key obj ev = true → c ev = false).
  { intros Hm ev Hev. apply (Hobj Hm). unfold on_key in Hev.
    by destruct (keyed obj ev). }
  unfold main. fold obj.
  pose proof (get_s3_connection_quiet env c k0) as Hconn.
  pose proof (bucket_check_quiet env c (p_bucket p) k0) as Hbucket.
  pose proof (normalize_overwrite_quiet env c (p_overwrite p)) as Hov.
  apply bounded_bind0; [quiet|]. intros _.
  apply bounded_bind0; [exact Hov|]. intros overwrite.
  apply bounded_bind0; [quiet|]. intros _.
  apply bounded_bind0; [quiet|]. intros region.
  apply bounded_bind0; [quiet|]. intros _.
  apply bounded_bind0; [quiet|]. intros _.
  apply bounded_bind0; [quiet|]. intros _.
  apply bounded_bind0; [by apply Hconn|]. intros _.
  apply bounded_bind0; [quiet|]. intros permission.
  apply bounded_bind0; [quiet|]. intros _.
  apply bounded_bind0; [by apply Hbucket|]. intros bucketrtn.
  apply bounded_bind0; [quiet|]. intros _.
  apply bounded_bind0.
  { apply bounded_when. intros Hm%bool_decide_eq_true.
    apply mode_get_quiet.
    - apply Hon. rewrite Hm. repeat constructor.
    - intros ev Hev _. apply Hobj; [|done]. rewrite Hm. repeat constructor. }
  intros _. apply bounded_bind0.
  { apply bounded_when. intros Hm%bool_decide_eq_true.
    apply mode_put_quiet.
    - apply Hon. rewrite Hm. repeat constructor.
    - intros ev Hev _. apply Hobj; [|done]. rewrite Hm. repeat constructor. }
  intros _. apply bounded_bind0.
  { apply bounded_when. intros Hm%bool_decide_eq_true.
    apply mode_delobj_quiet, Hon. rewrite Hm. repeat constructor. }
  intros _. apply bounded_bind0.
  { apply bounded_when. intros _. by apply (mode_delete_quiet _ _ _ _ k0). }
  intros _. apply bounded_bind0.
  { apply bounded_when. intros _. by apply (mode_list_quiet _ _ _ _ k0). }
  intros _. apply bounded_bind0.
  { apply bounded_when. intros Hm%bool_decide_eq_true.
    by apply mode_create_quiet, Hdir. }
  intros _. apply bounded_bind0.
  { apply bounded_when. intros Hm%bool_decide_eq_true.
    apply mode_geturl_quiet, Hon. rewrite Hm. repeat constructor. }
  intros _. apply bounded_bind0.
  { apply bounded_when. intros Hm%bool_decide_eq_true.
    apply mode_getstr_quiet, Hon. rewrite Hm. repeat constructor. }
  intros _. apply bounded_bind0.
  { apply bounded_when. intros Hm%bool_decide_eq_true.
    apply mode_copy_lookups; [|by apply Hsrc].
    apply Hon. rewrite Hm. repeat constructor. }
  intros _. apply bounded_exit_json.
Qed.

End Keys.

Section Named.

Context {W : Type}.
Variable env : Env W.
Variable p : Params.

(** C9, as amended.  Every call of an invocation that names a key names
    the target key: the object key without its leading [/], if it had
    one, and in create mode that key as a directory, which ends in [/].
    The one exception is copy mode, where the lookups of the source
    object, which are [head_object] calls, name the bucket, the key and
    the version of [copy_src]. *)
Theorem calls_name_the_stripped_key (w : W) :
  Forall (λ ev, key_ok p ev = true) (trace (run_main env p w).2).
Proof.
  set (c := λ ev, negb (key_ok p ev)).
  assert (Hkeyed : ∀ ev, keyed (target_key p) ev = true → c ev = false).
  { intros ev H. unfold c, key_ok. by rewrite H. }
  assert (Htarget : ∀ ev, on_key (target_key p) ev = true → c ev = false).
  { intros ev H. apply Hkeyed. unfold on_key in H.
    by destruct (keyed (target_key p) ev). }
  assert (Hobj : p_mode p ≠ ModeCreate →
                 normalize_object (p_object p) = target_key p).
  { intros Hm. rewrite normalize_object_stripped. unfold target_key.
    by rewrite bool_decide_eq_false_2. }
  destruct (main_quiet env p c) with (st := initial p w) as (l & Htr & Hl).
  - by exists (target_key p).
  - intros Hm. rewrite Hobj; [done|]. intros Heq. rewrite Heq in Hm.
    apply list_elem_of_In in Hm. simpl in Hm. intuition discriminate.
  - intros Hm. rewrite normalize_object_stripped.
    replace (as_directory <$> (stripped <$> p_object p)) with (target_key p);
      [done|].
    unfold target_key. by rewrite bool_decide_eq_true_2.
  - intros Hm cs Hcs. unfold c, key_ok, source_lookup.
    rewrite Hm, Hcs. rewrite bool_decide_eq_true_2 by done.
    rewrite (bool_decide_eq_true_2 (_ ∧ _)) by done.
    simpl. by rewrite orb_true_r.
  - unfold run_main. rewrite Htr. simpl.
    assert (Hz : count c l = 0%nat) by lia.
    apply count_zero_Forall in Hz.
    eapply Forall_impl; [exact Hz|]. intros ev Hev. unfold c in Hev.
    by apply negb_false_iff in Hev.
Qed.

End Named.

(** * What the retry budget governs *)

Section Budget.

Context {W : Type}.
Variable d : Event.
Variable n : nat.

Abbreviation M := (@M W).
Abbreviation State := (@State W).



End Budget.

Section Governs.

Context {W : Type}.
Variable env : Env W.
Variable p : Params.

Abbreviation M := (@M W).
Abbreviation State := (@State W).








Lemma with_retries_same : with_retries (p_retries p) p = p.
Proof. by destruct p. Qed.






End Governs.

(** * The amended claims on examples *)

(** C2 as amended, on examples: a GET whose local file has the
    fingerprint of the remote object, a GET whose local file has another
    one, and a PUT whose file has another one. *)
Lemma different_compares_fingerprints_witness :
  let env := Scenario.env true in
  (let p := Scenario.get_request "different" 0 in
   let st := initial p (Scenario.store
               [Scenario.AOk; Scenario.object_head "abc" 100]) in
   ∃ st3, mode_get env p "mybucket" (Some "k") "different" true "us-east-1"
            None st
          = (Exit (ej "Local and remote object are identical, ignoring. Use overwrite=always parameter to force."
                     (Some false)), st3)
          ∧ appends is_download 0 st st3)
  ∧ (let p := Scenario.get_request "different" 0 in
     let st := initial p (Scenario.store
                 [Scenario.AOk; Scenario.object_head "xyz" 100]) in
     let run := mode_get env p "mybucket" (Some "k") "different" true
                  "us-east-1" None st in
     (∃ st3, download_goes_ahead env p "mybucket" (Some "k") st3 run)
     ∧ run.1 = Exit (ej "GET operation complete" (Some true)))
  ∧ (let p := Scenario.put_request "different" in
     let st := initial p (Scenario.store
                 [Scenario.AOk; Scenario.object_head "xyz" 100]) in
     let run := mode_put env p "mybucket" (Some "k") "different" true
                  "us-east-1" true ["private"] ["private"] st in
     (∃ st3, upload_goes_ahead env p "mybucket" (Some "k") None st3 run)
     ∧ count is_upload (trace run.2) = 1%nat).
Proof.
  split; [|split].
  - eexists.
    eapply (proj1 (different_compares_fingerprints (Scenario.env true)
                     (Scenario.get_request "different" 0) "mybucket"
                     (Some "k") true "us-east-1" None)); reflexivity.
  - split; [|reflexivity]. eexists.
    eapply (proj1 (different_compares_fingerprints (Scenario.env true)
                     (Scenario.get_request "different" 0) "mybucket"
                     (Some "k") true "us-east-1" None));
      [reflexivity.. | done].
  - split; [|reflexivity]. eexists.
    eapply (proj2 (different_compares_fingerprints (Scenario.env true)
                     (Scenario.put_request "different") "mybucket" (Some "k")
                     true "us-east-1" None)).
    + by intros (_ & _ & H).
    + intros f [= <-]. reflexivity.
    + reflexivity.
    + by intros c H.
    + reflexivity.
    + reflexivity.
    + reflexivity.
    + done.
Defined.

(** C2 fails as stated, in two ways.  In check mode a PUT with
    [overwrite=different] whose file has another fingerprint ("abc")
    than the remote object ("xyz") transfers nothing: the invocation
    ends at the guard of the upload.  And a PUT whose file has the
    fingerprint of the remote object, and which asks for a tag that the
    object does not have, skips the upload and reports
    [changed = true]. *)
Lemma different_does_not_always_transfer :
  let env := Scenario.env true in
  (let p := Cases.adjust (Scenario.put_request "different") true None
              ["private"] false in
   let w := Scenario.store
              [Scenario.AOk; Scenario.AOk; Scenario.object_head "xyz" 100] in
   let r := run_main env p w in
   p_mode p = ModePut ∧ p_overwrite p = "different"
   ∧ Scenario.assoc "/tmp/f" (Scenario.fingerprints w) = Some "abc"
   ∧ trace r.2
     = [EvUtil GetAwsConnectionInfo;
        EvUtil (Boto3Conn "us-east-1" false None false);
        EvS3 (HeadBucket "mybucket");
        EvS3 (HeadObject "mybucket" (Some "k") None);
        EvS3 (HeadObject "mybucket" (Some "k") None);
        EvUtil (CalculateEtag "/tmp/f" (Some "xyz") "mybucket" (Some "k")
                  None)]
   ∧ r.1 = Exit (ej "PUT operation skipped - running in check mode"
                   (Some true)))
  ∧ (let p := with_overwrite "different"
                (Scenario.tag_request Scenario.tags_ab false) in
     let w := Scenario.store
                [Scenario.AOk; Scenario.AOk; Scenario.object_head "abc" 100;
                 Scenario.ATags (Some [("c", "d")]); Scenario.AOk;
                 Scenario.ATags (Some [("a", "b"); ("c", "d")])] in
     let r := run_main env p w in
     p_mode p = ModePut ∧ p_overwrite p = "different"
     ∧ Scenario.assoc "/tmp/f" (Scenario.fingerprints w) = Some "abc"
     ∧ count is_upload (trace r.2) = 0%nat
     ∧ ∃ o, r.1 = Exit o ∧ ej_msg o = Some "Download url:"
            ∧ ej_changed o = Some true).
Proof.
  split.
  - repeat split.
  - split; [reflexivity|]. split; [reflexivity|]. split; [reflexivity|].
    split; [reflexivity|]. eexists. split; [reflexivity|]. by split.
Qed.

(** C3 as amended, on examples: the local file was last modified at
    200; a remote object of 100 is not downloaded, and the download of a
    remote object of 300 goes ahead. *)
Lemma latest_compares_timestamps_witness :
  let env := Scenario.env true in
  let p := Scenario.get_request "latest" 0 in
  (let st := initial p (Scenario.store
               [Scenario.AOk; Scenario.object_head "abc" 100]) in
   ∃ st2, mode_get env p "mybucket" (Some "k") "latest" true "us-east-1" None
            st
          = (Exit (ej "Local object is latest, ignoreing. Use overwrite=always parameter to force."
                     (Some false)), st2)
          ∧ appends is_download 0 st st2)
  ∧ (let st := initial p (Scenario.store
                 [Scenario.AOk; Scenario.object_head "abc" 300]) in
     let run := mode_get env p "mybucket" (Some "k") "latest" true
                  "us-east-1" None st in
     (∃ st2, download_goes_ahead env p "mybucket" (Some "k") st2 run)
     ∧ run.1 = Exit (ej "GET operation complete" (Some true))).
Proof.
  split.
  - eexists.
    eapply (proj1 (latest_compares_timestamps (Scenario.env true)
                     (Scenario.get_request "latest" 0) "mybucket" (Some "k")
                     true "us-east-1" None _ _ "/tmp/f"
                     {| ETag := "abc"; LastModified := 100 |} _ 200
                     _ _ _ _ _ _ _)).
    Unshelve. all: try reflexivity. vm_compute. discriminate.
  - split; [|reflexivity]. eexists.
    eapply (proj2 (latest_compares_timestamps (Scenario.env true)
                     (Scenario.get_request "latest" 0) "mybucket" (Some "k")
                     true "us-east-1" None _ _ "/tmp/f"
                     {| ETag := "abc"; LastModified := 300 |} _ 200
                     _ _ _ _ _ _ _)).
    Unshelve. all: try reflexivity.
Defined.

(** C3 fails as stated: in check mode a GET with [overwrite=latest]
    whose local file (of 200) is older than the remote object (of 300)
    downloads nothing.  The invocation ends at the guard of the
    download, before [get_object]. *)
Lemma latest_in_check_mode_downloads_nothing :
  let env := Scenario.env true in
  let p := Cases.adjust (Scenario.get_request "latest" 0) true None
             ["private"] false in
  let w := Scenario.store
             [Scenario.AOk; Scenario.AOk; Scenario.object_head "abc" 300] in
  let r := run_main env p w in
  p_mode p = ModeGet ∧ p_overwrite p = "latest"
  ∧ Scenario.assoc "/tmp/f" (Scenario.files w) = Some 200
  ∧ trace r.2
    = [EvUtil GetAwsConnectionInfo;
       EvUtil (Boto3Conn "us-east-1" false None false);
       EvS3 (HeadBucket "mybucket");
       EvS3 (HeadObject "mybucket" (Some "k") None);
       EvS3 (HeadObject "mybucket" (Some "k") None)]
  ∧ r.1 = Exit (ej "GET operation skipped - running in check mode"
                  (Some true)).
Proof. repeat split. Qed.

(** C5 on an example: the tag [a=b] is merged over the current tag
    [c=d], and the two tags are written. *)
Lemma ensure_tags_merges_witness :
  let env := Scenario.env true in
  let p := Scenario.tag_request Scenario.tags_ab false in
  let st := initial p (Scenario.store
              [Scenario.ATags (Some [("c", "d")]); Scenario.AOk;
               Scenario.ATags (Some [("a", "b"); ("c", "d")])]) in
  let st1 :=
    (get_current_object_tags_dict env "mybucket" (Some "k") None st).2 in
  let r := ensure_tags env p "mybucket" (Some "k") st in
  let desired := Scenario.tags_ab in
  let current := Scenario.tags_cd in
  let write :=
    EvS3 (PutObjectTagging "mybucket" (Some "k")
            (ansible_dict_to_boto3_tag_list env (desired ∪ current))) in
  (∃ l, trace r.2 = trace st1 ++ write :: l
        ∧ count is_tag_mutation l = 0%nat)
  ∧ (∀ live changed,
       r.1 = Ret (live, changed) →
       live = desired ∪ current ∧ changed = true).
Proof.
  intros env p st st1 r desired current write.
  destruct (ensure_tags_merges_over_current env p "mybucket" (Some "k")
              desired st current st1 eq_refl eq_refl eq_refl)
    as (_ & _ & _ & Hwrite & _ & _ & Hret).
  assert (Hne : current ≠ desired ∪ current).
  { intros H. apply (f_equal (λ m : Tags, m !! "a")) in H. discriminate H. }
  split; [exact (Hwrite Hne)|].
  intros live changed Hr. destruct (Hret live changed Hr) as [-> ->].
  split; [done|]. by apply bool_decide_eq_true_2.
Defined.




(** C9 fails as stated: in create mode the calls do not name the
    stripped key.  For the object [/d] the stripped key is [d], and the
    lookup names [d/]. *)
Lemma create_appends_a_slash :
  let env := Scenario.env true in
  let p := Scenario.params ModeCreate (Some "/d") "always" None None 0 None
             true false in
  stripped "/d" = "d"
  ∧ trace (run_main env p (Scenario.store [])).2
    = [EvUtil GetAwsConnectionInfo;
       EvUtil (Boto3Conn "us-east-1" false None false);
       EvS3 (HeadBucket "mybucket");
       EvS3 (HeadObject "mybucket" (Some "d/") None)]
  ∧ ¬ Forall (λ ev, keyed (Some (stripped "/d")) ev = true)
        (trace (run_main env p (Scenario.store [])).2).
Proof.
  split; [reflexivity|]. split; [reflexivity|].
  intros H. apply Forall_forall with (x := EvS3 (HeadObject "mybucket" (Some "d/") None)) in H.
  - discriminate H.
  - vm_compute. repeat constructor.
Qed.

(** C1: a PUT with [overwrite=latest] is not rejected.  The object
    exists, the fingerprints differ, and the file is uploaded: the PUT
    branch only tests [overwrite] against [always] and [never], so that
    [latest], which the documentation of the module gives as "GET mode
    only", falls through to the comparison of the ETags.  It does so
    where MD5 is missing too: the guard of lines 976-977 is for
    [overwrite=different] alone, and the fingerprint of the file is
    asked for all the same. *)
Lemma put_latest_is_not_rejected :
  let p := Scenario.put_request "latest" in
  let w :=
    Scenario.store
      [Scenario.AOk; Scenario.AOk; Scenario.object_head "xyz" 100] in
  let r := run_main (Scenario.env true) p w in
  let r' := run_main (Scenario.env false) p w in
  p_mode p = ModePut ∧ p_overwrite p = "latest"
  ∧ r.1 = Exit {| ej_msg := Some "PUT operation complete";
                  ej_changed := Some true;
                  ej_url := Some "https://example.invalid/";
                  ej_tags := Some ∅; ej_expiry := None; ej_contents := None;
                  ej_s3_keys := None; ej_failed := None |}
  ∧ count is_upload (trace r.2) = 1%nat
  ∧ HAS_MD5 (Scenario.env false) = false
  ∧ trace r'.2
    = [EvUtil GetAwsConnectionInfo;
       EvUtil (Boto3Conn "us-east-1" false None false);
       EvS3 (HeadBucket "mybucket");
       EvS3 (HeadObject "mybucket" (Some "k") None);
       EvS3 (HeadObject "mybucket" (Some "k") None);
       EvUtil (CalculateEtag "/tmp/f" (Some "xyz") "mybucket" (Some "k")
                 None);
       EvS3 (UploadFile "/tmp/f" "mybucket" (Some "k"));
       EvS3 (PutObjectAcl "private" "mybucket" (Some "k"));
       EvS3 (GetObjectTagging "mybucket" (Some "k") None);
       EvS3 (GeneratePresignedUrl "put_object" "mybucket" (Some "k") 600)].
Proof. repeat split. Qed.

(** X6 on an example: a GET with [overwrite=always] to a file that
    exists. *)
Lemma get_always_witness :
  let env := Scenario.env true in
  let p := Scenario.get_request "always" 0 in
  let st := initial p (Scenario.store [Scenario.AOk]) in
  let run := mode_get env p "mybucket" (Some "k") "always" true "us-east-1"
               None st in
  (∃ st1, download_goes_ahead env p "mybucket" (Some "k") st1 run)
  ∧ run.1 = Exit (ej "GET operation complete" (Some true)).
Proof.
  intros env p st run. split; [|reflexivity]. eexists.
  refine (proj1 (get_decides_without_comparing env p "mybucket" (Some "k")
                   true "us-east-1" None st _ _)).
  reflexivity.
Defined.

(** X7 on an example: a PUT of a file with [overwrite=always]. *)
Lemma put_always_witness :
  let env := Scenario.env true in
  let p := Scenario.put_request "always" in
  let st := initial p (Scenario.store [Scenario.AOk]) in
  let run := mode_put env p "mybucket" (Some "k") "always" true "us-east-1"
               true ["private"] ["private"] st in
  (∃ st1, upload_goes_ahead env p "mybucket" (Some "k") None st1 run)
  ∧ count is_upload (trace run.2) = 1%nat.
Proof.
  intros env p st run. split; [|reflexivity]. eexists.
  refine (proj1 (proj1 (put_decides_without_comparing env p "mybucket"
                          (Some "k") true "us-east-1" ["private"] ["private"]
                          st None _) true _ _)).
  - split; [by intros (_ & _ & H)|]. split; [intros f [= <-]; reflexivity|].
    split; [by intros c H|reflexivity].
  - reflexivity.
Defined.
